(** * cargo2ports: from a Cargo.lock to a MacPorts [cargo.crates] stanza

    A shallow embedding of [cargo2ports.py] and [cargoV2forports.py] and the
    properties of their parse/render pipeline.

    - [Py]: the Python string and exception primitives the program uses.
    - [Re]: the fragment of Python's [re] module the program uses, as a
      backtracking matcher that enumerates matches in priority order.
    - [Common]: the functions that are textually the same in both scripts.
    - [Cargo2Ports], [CargoV2]: the two scripts.
    - [Spec]: the vocabulary of the statements (well-formed lock files, the
      pieces of the patterns); [Samples]: the lock files of the examples.

    The properties follow: stripping, rendering, the driver, format
    detection, the legacy extractor, and the blocks of the current
    format. *)

From stdpp Require Import gmap list strings.
From Stdlib Require Import Ascii ZArith Lia.

Local Open Scope Z_scope.
Local Open Scope list_scope.

(** ** Python primitives *)

Module Py.

(** A Python [str] is a sequence of Unicode code points. *)
Abbreviation char := N (only parsing).
Abbreviation str := (list N) (only parsing).

(** String literals of the source, written as Rocq strings (ASCII only). *)
Definition lit (s : string) : str := Ascii.N_of_ascii <$> String.list_ascii_of_string s.

Definition nl : char := 10%N.        (* newline *)
Definition space : char := 32%N.     (* space *)
Definition dquote : char := 34%N.    (* double quote *)
Definition equals : char := 61%N.    (* equals sign *)

(** [str.isspace] on one code point: the characters that [str.strip()]
    removes and that [\s] matches in a [str] pattern. *)
Definition isspace (c : char) : bool :=
  ((9 <=? c) && (c <=? 13) || (28 <=? c) && (c <=? 32)
   || (c =? 133) || (c =? 160) || (c =? 5760)
   || (8192 <=? c) && (c <=? 8202)
   || (c =? 8232) || (c =? 8233) || (c =? 8239) || (c =? 8287)
   || (c =? 12288))%N.

Definition is_dquote (c : char) : bool := (c =? dquote)%N.

(** [s.lstrip(..)], [s.rstrip(..)], [s.strip(..)] for a set of characters
    given as a predicate. *)
Fixpoint lstrip (p : char → bool) (s : str) : str :=
  match s with
  | [] => []
  | c :: s' => if p c then lstrip p s' else s
  end.

Definition rstrip (p : char → bool) (s : str) : str :=
  rev (lstrip p (rev s)).

Definition strip (p : char → bool) (s : str) : str :=
  rstrip p (lstrip p s).

(** [s.split(sep)] for a one-character separator: always at least one piece. *)
Fixpoint split (sep : char) (s : str) : list str :=
  match s with
  | [] => [[]]
  | c :: s' =>
      if (c =? sep)%N then [] :: split sep s'
      else match split sep s' with
           | piece :: pieces => (c :: piece) :: pieces
           | [] => [[c]]
           end
  end.

(** [sep in s] for a one-character [sep]. *)
Definition contains (sep : char) (s : str) : bool :=
  existsb (N.eqb sep) s.

(** [s.split(sep, maxsplit=1)] when [sep in s]: the text before the first
    separator and the text after it. *)
Fixpoint split1 (sep : char) (s : str) : str * str :=
  match s with
  | [] => ([], [])
  | c :: s' =>
      if (c =? sep)%N then ([], s')
      else let '(k, v) := split1 sep s' in (c :: k, v)
  end.

(** [n * space]: the empty string when [n <= 0]. *)
Definition spaces (n : Z) : str := replicate (Z.to_nat n) space.

Definition len (s : str) : Z := Z.of_nat (length s).

(** [len] of a list. *)
Definition len_list {A} (l : list A) : Z := Z.of_nat (length l).

(** [sep.join(pieces)]. *)
Fixpoint join (sep : str) (pieces : list str) : str :=
  match pieces with
  | [] => []
  | [p] => p
  | p :: ps => p ++ sep ++ join sep ps
  end.

(** Exceptions the program can raise. *)
Inductive exn :=
| KeyError (key : str)
| UnboundLocalError (var : string)
| SystemExit (code : Z).

Inductive result (A : Type) :=
| Ok (a : A)
| Raise (e : exn).
Arguments Ok {A} a.
Arguments Raise {A} e.

Definition bind {A B} (m : result A) (f : A → result B) : result B :=
  match m with
  | Ok a => f a
  | Raise e => Raise e
  end.

(** [d[key]] on a dict with string keys. *)
Definition getitem (d : gmap str str) (key : str) : result str :=
  match d !! key with
  | Some v => Ok v
  | None => Raise (KeyError key)
  end.

End Py.

Import Py.

Notation "x ←? m ; f" := (Py.bind m (λ x, f))
  (at level 20, m at level 100, f at level 200, right associativity,
   only parsing).

(** ** The fragment of [re] the program uses *)

Module Re.

(** Patterns.  [Bol] and [Eol] are [^] and [$] under [re.MULTILINE]; [Star]
    and [Plus] are the greedy [*] and [+]; [Grp n] is the [n]-th capturing
    group. *)
Inductive regex :=
| Str (s : str)
| Cls (p : char → bool)
| Bol
| Eol
| Seq (r1 r2 : regex)
| Alt (r1 r2 : regex)
| Star (r : regex)
| Plus (r : regex)
| Grp (n : nat) (r : regex).

(** [\s] and [.] (without [re.DOTALL]: anything but a newline). *)
Definition ws : regex := Cls isspace.
Definition dot : regex := Cls (λ c, negb (c =? nl)%N).

(** The matcher's state: whether the position is at the beginning of a line,
    the text that is left, and the groups captured so far (latest first). *)
Record mstate := MState {
  ms_bol : bool;
  ms_rest : str;
  ms_caps : list (nat * str)
}.

Definition consume (st : mstate) (c : char) (rest : str) : mstate :=
  {| ms_bol := (c =? nl)%N; ms_rest := rest; ms_caps := ms_caps st |}.

Fixpoint match_str (s : str) (st : mstate) : list mstate :=
  match s with
  | [] => [st]
  | c :: s' =>
      match ms_rest st with
      | c' :: rest => if (c =? c')%N then match_str s' (consume st c' rest) else []
      | [] => []
      end
  end.

Definition set_group (n : nat) (st st' : mstate) : mstate :=
  {| ms_bol := ms_bol st';
     ms_rest := ms_rest st';
     ms_caps :=
       (n, take (length (ms_rest st) - length (ms_rest st')) (ms_rest st))
         :: ms_caps st' |}.

(** Greedy repetition: one more iteration is tried before stopping.  An
    iteration has to consume text; every repeated sub-pattern of the program
    consumes at least one character, so that the test always succeeds
    ([star_loop_consuming]) and the fuel is enough ([star_loop_fuel]). *)
Fixpoint star_loop (step : mstate → list mstate) (fuel : nat) (st : mstate)
  : list mstate :=
  match fuel with
  | O => [st]
  | S fuel' =>
      (st' ← step st;
       if (length (ms_rest st') <? length (ms_rest st))%nat
       then star_loop step fuel' st' else [])
      ++ [st]
  end.

(** All the ways [r] matches at [st], in the order in which a backtracking
    matcher tries them: the head of the list is the match Python reports. *)
Fixpoint rmatch (r : regex) (st : mstate) : list mstate :=
  match r with
  | Str s => match_str s st
  | Cls p =>
      match ms_rest st with
      | c :: rest => if p c then [consume st c rest] else []
      | [] => []
      end
  | Bol => if ms_bol st then [st] else []
  | Eol =>
      match ms_rest st with
      | [] => [st]
      | c :: _ => if (c =? nl)%N then [st] else []
      end
  | Seq r1 r2 => st' ← rmatch r1 st; rmatch r2 st'
  | Alt r1 r2 => rmatch r1 st ++ rmatch r2 st
  | Star r' => star_loop (rmatch r') (S (length (ms_rest st))) st
  | Plus r' =>
      st' ← rmatch r' st;
      star_loop (rmatch r') (S (length (ms_rest st'))) st'
  | Grp n r' => set_group n st <$> rmatch r' st
  end.

(** A match object: the text skipped before the match, the matched text
    (group 0) and the matcher's final state. *)
Record rematch := ReMatch {
  m_pre : str;
  m_text : str;
  m_end : mstate
}.

(** [m.group(n)], [None] when the group took no part in the match. *)
Definition group (n : nat) (m : rematch) : option str :=
  '(_, g) ← list_find (λ g, fst g = n) (ms_caps (m_end m)); Some (snd g).

Definition match_at (r : regex) (bol : bool) (s : str) : option rematch :=
  match rmatch r (MState bol s []) with
  | st' :: _ =>
      Some (ReMatch [] (take (length s - length (ms_rest st')) s) st')
  | [] => None
  end.

Definition skip (c : char) (m : rematch) : rematch :=
  ReMatch (c :: m_pre m) (m_text m) (m_end m).

(** [re.search]: the first position, left to right, where [r] matches. *)
Fixpoint search_from (r : regex) (bol : bool) (s : str) : option rematch :=
  match match_at r bol s with
  | Some m => Some m
  | None =>
      match s with
      | [] => None
      | c :: s' => skip c <$> search_from r (c =? nl)%N s'
      end
  end.

Definition search (r : regex) (text : str) : option rematch :=
  search_from r true text.

(** [re.finditer]: successive non-overlapping matches.  None of the
    program's patterns matches the empty string ([finditer_from_consuming]);
    after an empty match the iteration would stop here.  The fuel is enough
    ([finditer_from_fuel]). *)
Fixpoint finditer_from (fuel : nat) (r : regex) (bol : bool) (s : str)
  : list rematch :=
  match fuel with
  | O => []
  | S fuel' =>
      match search_from r bol s with
      | None => []
      | Some m =>
          m :: match m_text m with
               | [] => []
               | _ :: _ =>
                   finditer_from fuel' r (ms_bol (m_end m)) (ms_rest (m_end m))
               end
      end
  end.

Definition finditer (r : regex) (text : str) : list rematch :=
  finditer_from (S (length text)) r true text.

(** [re.split] for a pattern without groups: the pieces between matches. *)
Definition re_split (r : regex) (text : str) : list str :=
  let ms := finditer r text in
  (m_pre <$> ms) ++ [from_option (λ m, ms_rest (m_end m)) text (last ms)].

End Re.

Import Re.

(** ** Functions shared by the two scripts *)

Module Common.

(** A parsed package: a Python dict from field name to value. *)
Abbreviation package := (gmap (list N) (list N)) (only parsing).

(** The module-level settings.  [main] overwrites the first two from the
    command line before anything is rendered; they are passed explicitly. *)
Record config := Config {
  STANZA_INDENT : Z;
  STANZA_FIELD_WIDTH : Z
}.

Definition STANZA_SPACER_WIDTH : Z := 2.

Definition default_config : config :=
  {| STANZA_INDENT := 4; STANZA_FIELD_WIDTH := 38 |}.

(** Standard output and standard error of the process. *)
Record world := World {
  stdout : str;
  stderr : str
}.

Definition io (A : Type) : Type := world → world * result A.

Definition io_ret {A} (a : A) : io A := λ w, (w, Ok a).

Definition io_bind {A B} (m : io A) (f : A → io B) : io B :=
  λ w, match m w with
       | (w', Ok a) => f a w'
       | (w', Raise e) => (w', Raise e)
       end.

Definition io_lift {A} (r : result A) : io A := λ w, (w, r).

(** [print(s)] and [print(s, file=sys.stderr)]. *)
Definition print (s : str) : io unit :=
  λ w, ({| stdout := stdout w ++ s ++ [nl]; stderr := stderr w |}, Ok tt).

Definition print_stderr (s : str) : io unit :=
  λ w, ({| stdout := stdout w; stderr := stderr w ++ s ++ [nl] |}, Ok tt).

Definition sys_exit {A} (code : Z) : io A := io_lift (Raise (SystemExit code)).

Definition fatal {A} (msg : str) : io A :=
  io_bind (print_stderr msg) (λ _, sys_exit 1).

(** What the interpreter does with the outcome of [main]: a normal return
    exits with status 0, [SystemExit] with its code, and any other exception
    prints a traceback (only its last line is kept here) and exits with 1. *)
Record outcome := Outcome {
  out_stdout : str;
  out_stderr : str;
  exit_status : Z
}.

Definition traceback (e : exn) : str :=
  match e with
  | KeyError key => lit "KeyError: '" ++ key ++ lit "'" ++ [nl]
  | UnboundLocalError var =>
      lit "UnboundLocalError: " ++ lit var ++ [nl]
  | SystemExit _ => []
  end.

Definition run (m : io unit) : outcome :=
  match m {| stdout := []; stderr := [] |} with
  | (w, Ok _) => Outcome (stdout w) (stderr w) 0
  | (w, Raise (SystemExit code)) => Outcome (stdout w) (stderr w) code
  | (w, Raise e) => Outcome (stdout w) (stderr w ++ traceback e) 1
  end.

Definition strip_string (s : str) : str :=
  let s := strip isspace s in
  let s := strip is_dquote s in
  s.

Definition get_crate_line (cfg : config) (package_dict : package)
  : result str :=
  let indent := spaces (STANZA_INDENT cfg) in
  let spacer_width := STANZA_SPACER_WIDTH in
  name ←? getitem package_dict (lit "name");
  ver ←? getitem package_dict (lit "version");
  cksum ←? getitem package_dict (lit "checksum");
  let name_len := len name in
  let ver_len := len ver in
  let gap_len := STANZA_FIELD_WIDTH cfg - (name_len + ver_len) in
  let '(gap_len, spacer_width) :=
    if gap_len <=? 0 then (1, spacer_width - 1) else (gap_len, spacer_width) in
  Ok (indent ++ name ++ spaces gap_len ++ ver ++ spaces spacer_width ++ cksum).

(** The two endings of a stanza line and the declaration line. *)
Definition continuation : str := lit " \".
Definition declaration : str := lit "cargo.crates \".

Definition no_packages_message : str :=
  lit "No package definitions found: either not a Cargo.lock file, or file is empty.".

End Common.

Import Common.

Notation "x ←! m ; f" := (Common.io_bind m (λ x, f))
  (at level 20, m at level 100, f at level 200, right associativity,
   only parsing).

(** ** cargo2ports.py *)

Module Cargo2Ports.

(** [\[\[package\]\]\s*((.+\n)+)(^\s*\n|$)] *)
Definition block_re : regex :=
  Seq (Str (lit "[[package]]"))
    (Seq (Star ws)
       (Seq (Grp 1 (Plus (Grp 2 (Seq (Plus dot) (Str [nl])))))
          (Grp 3 (Alt (Seq Bol (Seq (Star ws) (Str [nl]))) Eol)))).

(** The pattern, piece by piece (Q stands for the double quote character):
    [^\[metadata\]  \s*  ( ^ ( ( \Qchecksum  \s*  .* ) | \s*\n )+ )] *)
Definition metadata_re : regex :=
  Seq Bol
    (Seq (Str (lit "[metadata]"))
       (Seq (Star ws)
          (Grp 1
             (Seq Bol
                (Plus
                   (Grp 2
                      (Alt
                         (Grp 3
                            (Seq (Str (dquote :: lit "checksum"))
                               (Seq (Star ws) (Star dot))))
                         (Seq (Star ws) (Str [nl]))))))))).

(** [^\[metadata\]] *)
Definition v1_re : regex := Seq Bol (Str (lit "[metadata]")).

(** [\s+] *)
Definition token_sep_re : regex := Plus ws.

(** [match.groups()[0]]; group 1 is not optional in either pattern. *)
Definition groups_0 (m : rematch) : str := default [] (group 1 m).

Definition parse_package_block (text : str) : package :=
  let lines := split nl text in
  foldl
    (λ (parsed : package) line,
       if contains equals line then
         let '(k, v) := split1 equals line in
         <[strip_string k := strip_string v]> parsed
       else parsed)
    ∅ lines.

Definition get_packages (text : str) : list package :=
  foldl
    (λ packages m,
       let block := groups_0 m in
       let package := parse_package_block block in
       packages ++ [package])
    [] (finditer block_re text).

(** The record built from the tokens of one metadata line. *)
Definition metadata_package (tokens : list str) : package :=
  let tokens := strip_string <$> tokens in
  <[lit "checksum" := tokens !!! 5%nat]>
    (<[lit "version" := tokens !!! 2%nat]>
       (<[lit "name" := tokens !!! 1%nat]> ∅)).

Definition get_packages_from_metadata (text : str) : list package :=
  match search metadata_re text with
  | None => []
  | Some m =>
      let metadata_lines := split nl (groups_0 m) in
      foldl
        (λ packages line,
           let tokens := re_split token_sep_re line in
           if (6 <=? length tokens)%nat
           then packages ++ [metadata_package tokens]
           else packages)
        [] metadata_lines
  end.

(** The loop of [generate_crates_stanza]: [count] is the index that
    [enumerate] gives to the head of [pkg_dicts]. *)
Fixpoint stanza_loop (cfg : config) (num_blocks : Z) (count : Z)
    (pkg_dicts : list package) (output : list str) : result (list str) :=
  match pkg_dicts with
  | [] => Ok output
  | pkg :: rest =>
      match pkg !! lit "checksum" with
      | None => stanza_loop cfg num_blocks (count + 1) rest output
      | Some _ =>
          line ←? get_crate_line cfg pkg;
          let ending := if count =? num_blocks - 1 then [] else continuation in
          stanza_loop cfg num_blocks (count + 1) rest
            (output ++ [line ++ ending])
      end
  end.

Definition generate_crates_stanza (cfg : config) (pkg_dicts : list package)
  : result str :=
  let num_blocks := len_list pkg_dicts in
  output ←? stanza_loop cfg num_blocks 0 pkg_dicts [declaration];
  Ok (join [nl] output).

Definition is_v1_lockfile (text : str) : bool :=
  match search v1_re text with Some _ => true | None => false end.

(** [main] after the command line is parsed: [indent] and [width] are the
    values of [-i] and [-w], [contents] the text of the lock file. *)
Definition main (indent width : Z) (contents : str) : io unit :=
  let cfg := {| STANZA_INDENT := indent; STANZA_FIELD_WIDTH := width |} in
  let packages :=
    if is_v1_lockfile contents
    then get_packages_from_metadata contents
    else get_packages contents in
  _ ←! (match packages with
        | [] => fatal no_packages_message
        | _ :: _ => io_ret tt
        end);
  output ←! io_lift (generate_crates_stanza cfg packages);
  print output.

End Cargo2Ports.

(** ** cargoV2forports.py *)

Module CargoV2.

(** [(\[\[package\]\]\s*((.+\n)+))(^\s*\n|$)] *)
Definition block_re : regex :=
  Seq (Grp 1
         (Seq (Str (lit "[[package]]"))
            (Seq (Star ws)
               (Grp 2 (Plus (Grp 3 (Seq (Plus dot) (Str [nl]))))))))
    (Grp 4 (Alt (Seq Bol (Seq (Star ws) (Str [nl]))) Eol)).

(** [match.groups()[1]]; group 2 is not optional in the pattern. *)
Definition groups_1 (m : rematch) : str := default [] (group 2 m).

Definition get_package_blocks (text : str) : list str :=
  foldl (λ blocks m, let block := groups_1 m in blocks ++ [block])
    [] (finditer block_re text).

(** The loop of [parse_package_block].  The assignment to [parsed] is not
    under the [if]: it runs for every line, with the [k] and [v] of the
    latest line that had an equals sign ([kv]), and its right-hand side is
    evaluated first, so it is [v] that is found unbound. *)
Fixpoint parse_loop (lines : list str) (kv : option (str * str))
    (parsed : package) : result package :=
  match lines with
  | [] => Ok parsed
  | line :: rest =>
      let kv := if contains equals line then Some (split1 equals line) else kv in
      match kv with
      | None => Raise (UnboundLocalError "v")
      | Some (k, v) =>
          parse_loop rest kv (<[strip_string k := strip_string v]> parsed)
      end
  end.

Definition parse_package_block (text : str) : result package :=
  let lines := split nl text in
  parse_loop lines None ∅.

Fixpoint stanza_loop (cfg : config) (num_blocks : Z) (count : Z)
    (blocks_dict_list : list str) (output : list str) : result (list str) :=
  match blocks_dict_list with
  | [] => Ok output
  | b :: rest =>
      block ←? parse_package_block b;
      match block !! lit "checksum" with
      | None => stanza_loop cfg num_blocks (count + 1) rest output
      | Some _ =>
          line ←? get_crate_line cfg block;
          let ending := if count =? num_blocks - 1 then [] else continuation in
          stanza_loop cfg num_blocks (count + 1) rest
            (output ++ [line ++ ending])
      end
  end.

Definition generate_crates_stanza (cfg : config) (blocks_dict_list : list str)
  : result str :=
  let num_blocks := len_list blocks_dict_list in
  output ←? stanza_loop cfg num_blocks 0 blocks_dict_list [declaration];
  Ok (join [nl] output).

(** [main] after the command line is parsed; this script has no [-w]. *)
Definition main (indent : Z) (contents : str) : io unit :=
  let cfg :=
    {| STANZA_INDENT := indent;
       STANZA_FIELD_WIDTH := STANZA_FIELD_WIDTH default_config |} in
  let blocks := get_package_blocks contents in
  _ ←! (match blocks with
        | [] => fatal no_packages_message
        | _ :: _ => io_ret tt
        end);
  output ←! io_lift (generate_crates_stanza cfg blocks);
  print output.

End CargoV2.

(** ** Vocabulary of the statements *)

Module Spec.

(** *** Records and their lines *)

(** A record is rendered when it has a checksum; it can be rendered when it
    then has a name and a version too. *)
Definition renderable (pkg : package) : Prop :=
  is_Some (pkg !! lit "checksum").

#[export] Instance renderable_dec pkg : Decision (renderable pkg).
Proof. unfold renderable. apply _. Defined.

Definition complete (pkg : package) : Prop :=
  renderable pkg →
  is_Some (pkg !! lit "name") ∧ is_Some (pkg !! lit "version").

(** [line] is the line of [pkg], with or without the continuation marker. *)
Definition rendered_as (cfg : config) (pkg : package) (line : str) : Prop :=
  ∃ l, get_crate_line cfg pkg = Ok l ∧ (line = l ∨ line = l ++ continuation).

(** One step of the loop of [parse_package_block] in cargo2ports.py. *)
Definition parse_step (parsed : package) (line : str) : package :=
  if contains equals line then
    let '(k, v) := split1 equals line in
    <[strip_string k := strip_string v]> parsed
  else parsed.

(** What [main] of cargo2ports.py does once the records are extracted. *)
Definition render (cfg : config) (packages : list package) : io unit :=
  _ ←! (match packages with
        | [] => fatal no_packages_message
        | _ :: _ => io_ret tt
        end);
  output ←! io_lift (Cargo2Ports.generate_crates_stanza cfg packages);
  print output.

(** *** Patterns and matcher states *)

(** Patterns that cannot match the empty string, patterns without groups,
    and patterns all of whose matches begin with the character [c]. *)
Fixpoint consuming (r : regex) : bool :=
  match r with
  | Str s => match s with [] => false | _ :: _ => true end
  | Cls _ => true
  | Bol | Eol | Star _ => false
  | Seq r1 r2 => consuming r1 || consuming r2
  | Alt r1 r2 => consuming r1 && consuming r2
  | Plus r' | Grp _ r' => consuming r'
  end.

Fixpoint groupless (r : regex) : bool :=
  match r with
  | Str _ | Cls _ | Bol | Eol => true
  | Seq r1 r2 | Alt r1 r2 => groupless r1 && groupless r2
  | Star r' | Plus r' => groupless r'
  | Grp _ _ => false
  end.

Fixpoint starts_with (c : char) (r : regex) : bool :=
  match r with
  | Str s => match s with c' :: _ => (c' =? c)%N | [] => false end
  | Cls _ | Bol | Eol | Star _ => false
  | Seq r1 _ | Plus r1 | Grp _ r1 => starts_with c r1
  | Alt r1 r2 => starts_with c r1 && starts_with c r2
  end.

(** [st'] has a suffix of the text of [st] left; [st'] has the groups of
    [st]. *)
Definition rest_suffix (st st' : mstate) : Prop :=
  ms_rest st' `suffix_of` ms_rest st.

Definition same_caps (st st' : mstate) : Prop := ms_caps st' = ms_caps st.

(** Whether the position after [s] is at the beginning of a line, when the
    position before it is according to [b]. *)
Definition bol_after (b : bool) (s : str) : bool :=
  from_option (λ c, c =? nl)%N b (last s).

(** The text is at its end or starts with a newline; the text is at its end
    or starts with a character that is not whitespace. *)
Definition not_line_start (s : str) : Prop :=
  ∀ c, head s = Some c → c = nl.

Definition not_ws_start (s : str) : Prop :=
  ∀ c, head s = Some c → isspace c = false.

(** The pieces of the two block patterns: [(.+\n)] as group [n], the end of
    a block, and the header with the lines as group [n]. *)
Definition line_re (n : nat) : regex := Grp n (Seq (Plus dot) (Str [nl])).

Definition terminator_re : regex :=
  Alt (Seq Bol (Seq (Star ws) (Str [nl]))) Eol.

Definition header_lines_re (n k : nat) : regex :=
  Seq (Str (lit "[[package]]")) (Seq (Star ws) (Grp n (Plus (line_re k)))).

(** The pieces of the section pattern: a checksum line, one repetition, and
    the whole of group 1. *)
Definition checksum_key : str := dquote :: lit "checksum".

Definition checksum_line_re : regex :=
  Grp 3 (Seq (Str checksum_key) (Seq (Star ws) (Star dot))).

Definition section_item_re : regex :=
  Grp 2 (Alt checksum_line_re (Seq (Star ws) (Str [nl]))).

Definition metadata_body_re : regex := Seq Bol (Plus section_item_re).

(** *** Well-formed lock files of the current format *)

(** A package table is given by its lines after the header.  Its text is
    the header line followed by the lines, each with its newline. *)
Definition lines_text (ls : list str) : str :=
  ls ≫= λ l, l ++ [nl].

Definition block_text (ls : list str) : str :=
  lit "[[package]]" ++ nl :: lines_text ls.

(** A table has at least one line; its lines are not empty and the first one
    does not start with whitespace. *)
Definition body_line (l : str) : Prop := l ≠ [] ∧ nl ∉ l.

Definition wf_block (ls : list str) : Prop :=
  ls ≠ [] ∧ Forall body_line ls ∧ not_ws_start (lines_text ls).

(** What follows a table: the end of the text, or an empty line followed by
    the end of the text or by something that is not whitespace. *)
Definition block_end (tail : str) : Prop :=
  tail = [] ∨ ∃ s, tail = nl :: s ∧ not_ws_start s.

(** A lock file: a preamble without an opening bracket, then the tables,
    separated by one empty line. *)
Definition open_bracket : char := 91%N.

Definition lockfile_text (preamble : str) (blocks : list (list str)) : str :=
  preamble ++ (join [nl] (block_text <$> blocks)).

Definition wf_lockfile (preamble : str) (blocks : list (list str)) : Prop :=
  (open_bracket ∉ preamble) ∧ Forall wf_block blocks.

(** The record of a table, and tables that start with a key/value line. *)
Definition block_record (ls : list str) : package :=
  Cargo2Ports.parse_package_block (lines_text ls).

Definition starts_with_pair (ls : list str) : Prop :=
  ∃ l ls', ls = l :: ls' ∧ contains equals l = true.

(** *** Legacy lock files *)

(** The text has a line that begins with the [metadata] section header. *)
Definition has_metadata_header (text : str) : Prop :=
  ∃ pre post,
    text = pre ++ lit "[metadata]" ++ post
    ∧ (pre = [] ∨ ∃ pre', pre = pre' ++ [nl]).

(** The text of the [metadata] section that the legacy extractor finds, the
    tokens of one of its lines, and the lines that give a record. *)
Definition metadata_section (text : str) : option str :=
  Cargo2Ports.groups_0 <$> search Cargo2Ports.metadata_re text.

Definition tokens_of (line : str) : list str :=
  re_split Cargo2Ports.token_sep_re line.

Definition qualifying (line : str) : Prop :=
  (6 ≤ length (tokens_of line))%nat.

#[export] Instance qualifying_dec line : Decision (qualifying line).
Proof. unfold qualifying. apply _. Defined.

(** An entry of the section: a line made of the quoted checksum key,
    whitespace ([e_space]) and a rest ([e_body]) that starts with a
    character that is not whitespace, followed by its newline and by
    [e_blank] empty lines. *)
Record entry := Entry {
  e_space : str;
  e_body : str;
  e_blank : nat
}.

Definition entry_line (e : entry) : str :=
  checksum_key ++ e_space e ++ e_body e.

Definition entry_text (e : entry) : str :=
  entry_line e ++ replicate (S (e_blank e)) nl.

Definition section_text (es : list entry) : str := es ≫= entry_text.

Definition wf_entry (e : entry) : Prop :=
  forallb isspace (e_space e) = true
  ∧ (nl ∉ e_space e)
  ∧ e_body e ≠ []
  ∧ not_ws_start (e_body e)
  ∧ (nl ∉ e_body e).

(** What may follow the section: nothing, or text that starts neither with
    whitespace nor with a double quote. *)
Definition section_end (tail : str) : Prop :=
  not_ws_start tail ∧ head tail ≠ Some dquote.

(** A legacy lock file: a preamble, the header, one or more newlines, the
    entries, and what follows them.  The header is at the beginning of a
    line, and it is the first line that begins with it. *)
Definition legacy_text (preamble : str) (blank : nat) (es : list entry)
    (tail : str) : str :=
  preamble ++ lit "[metadata]" ++ replicate (S blank) nl
  ++ section_text es ++ tail.

Definition wf_legacy (preamble : str) (es : list entry) (tail : str) : Prop :=
  (preamble = [] ∨ ∃ pre', preamble = pre' ++ [nl])
  ∧ ¬ has_metadata_header (preamble ++ lit "[metadata")
  ∧ es ≠ []
  ∧ Forall wf_entry es
  ∧ section_end tail.

(** *** Stripped text and tables of pairs *)

(** A character that [strip_string] may remove. *)
Definition strippable (c : N) : bool := isspace c || is_dquote c.

(** The line [key = Qvalue Q] (Q the double quote) of a pair, keys and values
    that such a line gives back, and the record that a list of pairs
    builds. *)
Definition pair_line (p : list N * list N) : list N :=
  p.1 ++ lit " = " ++ [dquote] ++ p.2 ++ [dquote].

Definition clean_key (k : list N) : Prop :=
  (equals ∉ k) ∧ (nl ∉ k)
  ∧ (∀ c, head k = Some c → strippable c = false)
  ∧ (∀ c, last k = Some c → strippable c = false).

Definition clean_value (v : list N) : Prop :=
  (nl ∉ v) ∧ head v ≠ Some dquote ∧ last v ≠ Some dquote.

Definition clean_pair (p : list N * list N) : Prop :=
  clean_key p.1 ∧ clean_value p.2.

Definition table_record (pairs : list (list N * list N))
  : gmap (list N) (list N) :=
  foldl (λ m p, <[p.1 := p.2]> m) ∅ pairs.

(** Settles [clean_pair] for a pair of literals. *)
Ltac clean_pair_tac :=
  split; [split; [|split; [|split]] | split; [|split]];
  first [ apply (bool_decide_unpack _); vm_compute; exact I
        | intros c Hc; vm_compute in Hc; injection Hc as <-; reflexivity
        | discriminate ].

(** The line defines [key]: it has an equals sign, and the stripped text
    before the first one is [key]; the value it gives. *)
Definition defines (key line : list N) : Prop :=
  contains equals line = true ∧ strip_string (split1 equals line).1 = key.

Definition value_of (line : list N) : list N :=
  strip_string (split1 equals line).2.

#[export] Instance defines_dec key line : Decision (defines key line).
Proof. unfold defines. apply _. Defined.

(** *** Lines of the stanza *)

(** The line with the marker, and [l] is the line of [pkg]. *)
Definition marked (l : list N) : list N := l ++ continuation.

Definition line_of (cfg : config) (pkg : gmap (list N) (list N))
    (l : list N) : Prop :=
  get_crate_line cfg pkg = Ok l.

Definition full (pkg : gmap (list N) (list N)) : Prop :=
  is_Some (pkg !! lit "name") ∧ is_Some (pkg !! lit "version")
  ∧ is_Some (pkg !! lit "checksum").

(** *** Occurrences, positions and groups *)

(** [s] occurs in [text]. *)
Definition occurs (s text : list N) : Prop :=
  ∃ pre post, text = pre ++ s ++ post.

(** Two matcher states at the same position; the text of group [n]. *)
Definition pos_eq (st1 st2 : mstate) : Prop :=
  ms_bol st1 = ms_bol st2 ∧ ms_rest st1 = ms_rest st2.

Definition cap (n : nat) (st : mstate) : option (list N) :=
  '(_, g) ← list_find (λ g, fst g = n) (ms_caps st); Some (snd g).

(** The pattern without its groups. *)
Fixpoint erase (r : regex) : regex :=
  match r with
  | Str _ | Cls _ | Bol | Eol => r
  | Seq r1 r2 => Seq (erase r1) (erase r2)
  | Alt r1 r2 => Alt (erase r1) (erase r2)
  | Star r' => Star (erase r')
  | Plus r' => Plus (erase r')
  | Grp _ r' => erase r'
  end.

(** Two states at the same position of which the first has as group 1 what
    the second has as group 2; the same for match objects. *)
Definition same_block (st1 st2 : mstate) : Prop :=
  pos_eq st1 st2 ∧ cap 1 st1 = cap 2 st2.

Definition same_match (m1 m2 : rematch) : Prop :=
  m_pre m1 = m_pre m2 ∧ m_text m1 = m_text m2
  ∧ same_block (m_end m1) (m_end m2).

(** The first line of the block has an equals sign. *)
Definition first_line_pair (b : list N) : bool :=
  contains equals (hd [] (split nl b)).

(** [st'] is [st] after a text with the property [P]. *)
Definition skips (P : list N → Prop) (st st' : mstate) : Prop :=
  ∃ l, P l ∧ ms_rest st = l ++ ms_rest st'.

(** A text without a newline; the text of some lines. *)
Definition no_newline (l : list N) : Prop := nl ∉ l.

Definition some_lines (t : list N) : Prop :=
  ∃ ls, Forall body_line ls ∧ t = lines_text ls.

(** *** Tokens and values *)

(** A text without whitespace. *)
Definition no_ws (t : list N) : Prop := Forall (λ c, isspace c = false) t.

(** No value of the record has a newline in it. *)
Definition one_line_values (pkg : gmap (list N) (list N)) : Prop :=
  ∀ key value, pkg !! key = Some value → nl ∉ value.

(** *** A lock file cut short *)

(** A text of whitespace; a line with something other than whitespace. *)
Definition blank (w : list N) : Prop := Forall (λ c, isspace c = true) w.





(** *** Crates and their tables *)

(** A crate as Cargo records it, the lines of its table, and the line that
    the stanza is to have for it. *)
Record crate := Crate {
  c_name : list N;
  c_version : list N;
  c_checksum : list N
}.

Definition crate_pairs (c : crate) : list (list N * list N) :=
  [(lit "name", c_name c); (lit "version", c_version c);
   (lit "checksum", c_checksum c)].

Definition crate_table (c : crate) : list (list N) :=
  pair_line <$> crate_pairs c.

Definition crate_record (c : crate) : gmap (list N) (list N) :=
  <[lit "checksum" := c_checksum c]>
    (<[lit "version" := c_version c]> (<[lit "name" := c_name c]> ∅)).

Definition crate_line (cfg : config) (c : crate) : list N :=
  let room := STANZA_FIELD_WIDTH cfg - (len (c_name c) + len (c_version c)) in
  spaces (STANZA_INDENT cfg) ++ c_name c ++ spaces (Z.max 1 room)
  ++ c_version c ++ spaces (if room <=? 0 then 1 else 2) ++ c_checksum c.

Definition clean_crate (c : crate) : Prop :=
  clean_value (c_name c) ∧ clean_value (c_version c)
  ∧ clean_value (c_checksum c).

(** The stanza for the crates [init] followed by the crate [final]. *)
Definition crates_stanza (cfg : config) (init : list crate) (final : crate)
  : list N :=
  join [nl]
    (declaration :: (marked <$> (crate_line cfg <$> init))
                    ++ [crate_line cfg final]).

(** A line that no scan for the legacy header can stop at: it has no newline
    and does not begin with the header. *)
Definition plain_line (l : list N) : Prop :=
  (nl ∉ l) ∧ ∀ s post, l ++ nl :: s ≠ lit "[metadata]" ++ post.

(** *** Crates in the legacy section *)

(** A word: a text that is not empty and has no whitespace. *)
Definition word (t : list N) : Prop := t ≠ [] ∧ no_ws t.

(** The six tokens of the line that Cargo wrote for a crate and its source
    in the [metadata] section, and the entry of that line. *)
Definition legacy_tokens (item : crate * list N) : list (list N) :=
  [checksum_key; c_name item.1; c_version item.1;
   lit "(" ++ item.2 ++ lit ")" ++ [dquote]; lit "=";
   [dquote] ++ c_checksum item.1 ++ [dquote]].

Definition legacy_entry (item : crate * list N) : entry :=
  {| e_space := [space];
     e_body := join [space] (drop 1 (legacy_tokens item));
     e_blank := 0 |}.

(** The name and the version are words that neither begin nor end with a
    double quote; the source and the checksum have no whitespace, and the
    checksum neither begins nor ends with a double quote. *)
Definition legacy_crate (item : crate * list N) : Prop :=
  word (c_name item.1) ∧ clean_value (c_name item.1)
  ∧ word (c_version item.1) ∧ clean_value (c_version item.1)
  ∧ no_ws item.2
  ∧ no_ws (c_checksum item.1) ∧ clean_value (c_checksum item.1).

End Spec.

Import Spec.

(** ** Lock files used in the examples *)

Module Samples.

(** The line [key = Qvalue Q], with Q the double quote, and the header line
    of a package table, each with its newline. *)
Definition kv (key value : string) : str :=
  lit key ++ lit " = " ++ [dquote] ++ lit value ++ [dquote] ++ [nl].

Definition header : str := lit "[[package]]" ++ [nl].

(** One package with a checksum. *)
Definition foo_block : str :=
  header ++ kv "name" "foo" ++ kv "version" "1.0" ++ kv "checksum" "abc123".

Definition foo_body : str :=
  kv "name" "foo" ++ kv "version" "1.0" ++ kv "checksum" "abc123".

(** A second package without a checksum, after a blank line. *)
Definition bar_body : str := kv "name" "bar" ++ kv "version" "2.0".

Definition foo_bar_lock : str := foo_block ++ [nl] ++ header ++ bar_body.

Definition foo_record : package :=
  <[lit "checksum" := lit "abc123"]>
    (<[lit "version" := lit "1.0"]> (<[lit "name" := lit "foo"]> ∅)).

Definition bar_record : package :=
  <[lit "version" := lit "2.0"]> (<[lit "name" := lit "bar"]> ∅).

(** The line rendered for [foo_record] with the default settings. *)
Definition foo_line : str := lit "    foo" ++ spaces 32 ++ lit "1.0  abc123".

(** A package table whose only line has no equals sign. *)
Definition junk_lock : str := header ++ lit "foo" ++ [nl].

(** A package table with a checksum and nothing else. *)
Definition checksum_only_lock : str := header ++ kv "checksum" "abc".

(** A legacy lock file: a [metadata] section with one checksum line. *)
Definition bar_metadata_line : str :=
  dquote
    :: lit "checksum bar 2.3.4 (registry+https://github.com/rust-lang/crates.io-index)"
    ++ [dquote] ++ lit " = " ++ [dquote] ++ lit "deadbeef" ++ [dquote].

Definition legacy_lock : str :=
  lit "[metadata]" ++ [nl] ++ bar_metadata_line ++ [nl].

(** A text with a package table and a [metadata] section. *)
Definition mixed_lock : str := foo_block ++ [nl] ++ legacy_lock.

Definition bar_legacy_record : package :=
  <[lit "checksum" := lit "deadbeef"]>
    (<[lit "version" := lit "2.3.4"]> (<[lit "name" := lit "bar"]> ∅)).

(** The lines of the two tables of [foo_bar_lock], and the preamble that
    Cargo writes. *)
Definition kv_line (key value : string) : list N :=
  lit key ++ lit " = " ++ [dquote] ++ lit value ++ [dquote].

Definition foo_lines : list (list N) :=
  [kv_line "name" "foo"; kv_line "version" "1.0";
   kv_line "checksum" "abc123"].

Definition bar_lines : list (list N) :=
  [kv_line "name" "bar"; kv_line "version" "2.0"].

Definition cargo_preamble : list N :=
  lit "# This file is automatically @generated by Cargo." ++ [nl]
  ++ lit "# It is not intended for manual editing." ++ [nl]
  ++ lit "version = 3" ++ [nl; nl].

(** The entry of [legacy_lock]. *)
Definition bar_entry : entry :=
  {| e_space := [space];
     e_body :=
       lit "bar 2.3.4 (registry+https://github.com/rust-lang/crates.io-index)"
       ++ [dquote] ++ lit " = " ++ [dquote] ++ lit "deadbeef" ++ [dquote];
     e_blank := 0 |}.

(** Inputs of the further properties. *)

(** Two pairs, the second with an equals sign and a space in its value. *)
Definition sample_pairs : list (list N * list N) :=
  [(lit "name", lit "foo"); (lit "source", lit "registry+a=b c")].

(** A table in which the checksum is given twice. *)
Definition twice_body : list N :=
  kv "checksum" "old" ++ kv "name" "foo" ++ kv "checksum" "new".

(** The crate of the sample legacy lock file, with its source. *)
Definition bar_item : crate * list N :=
  (Crate (lit "bar") (lit "2.3.4") (lit "deadbeef"),
   lit "registry+https://github.com/rust-lang/crates.io-index").

End Samples.

Import Samples.

(** * Properties *)

(** ** Stripping *)

Section Strip.
Context (p : N → bool).

Lemma lstrip_all (l s : list N) :
  forallb p l = true → lstrip p (l ++ s) = lstrip p s.
Proof.
  induction l as [|c l IH]; simpl; [done|].
  intros [Hc Hl]%andb_prop. rewrite Hc. auto.
Qed.

Lemma lstrip_stop (c : N) (s : list N) :
  p c = false → lstrip p (c :: s) = c :: s.
Proof. intros Hc. simpl. by rewrite Hc. Qed.

Lemma rstrip_all (s l : list N) :
  forallb p l = true → rstrip p (s ++ l) = rstrip p s.
Proof.
  intros Hl. unfold rstrip. rewrite rev_app_distr, lstrip_all; [done|].
  rewrite forallb_forall in *. intros x Hx. apply Hl. by apply in_rev.
Qed.

Lemma rstrip_stop (s : list N) (c : N) :
  p c = false → rstrip p (s ++ [c]) = s ++ [c].
Proof.
  intros Hc. unfold rstrip. rewrite rev_app_distr. simpl.
  rewrite Hc. simpl. by rewrite rev_involutive.
Qed.

(** Stripping on both sides gives back a string that neither starts nor
    ends with a stripped character. *)
Lemma strip_wrapped (l s r : list N) :
  forallb p l = true → forallb p r = true →
  (∀ c, head s = Some c → p c = false) →
  (∀ c, last s = Some c → p c = false) →
  strip p (l ++ s ++ r) = s.
Proof.
  intros Hl Hr Hhd Hlast. unfold strip. rewrite lstrip_all by done.
  destruct s as [|c s].
  - simpl. replace r with (r ++ []) by apply app_nil_r.
    rewrite lstrip_all by done. done.
  - change ((c :: s) ++ r) with (c :: (s ++ r)).
    rewrite lstrip_stop by (apply Hhd; done).
    change (c :: (s ++ r)) with ((c :: s) ++ r).
    rewrite rstrip_all by done.
    destruct (exists_last (l:=c :: s)) as (s' & d & Heq); [done|].
    rewrite Heq. apply rstrip_stop, Hlast. rewrite Heq.
    by rewrite last_snoc.
Qed.
End Strip.

(** C9 (as stated, refuted): the string made of one double quote followed by
    the letter x, wrapped in one layer of double quotes and in spaces, does
    not come back from [strip_string]: the quote it starts with is stripped
    together with the wrapping one. *)
Lemma C9_counterexample :
  let s := dquote :: lit "x" in
  strip_string (lit " " ++ [dquote] ++ s ++ [dquote] ++ lit " ") = lit "x"
  ∧ lit "x" ≠ s.
Proof. split; [reflexivity | discriminate]. Qed.

(** C9 (amended): for every string [s] that neither starts nor ends with a
    double quote, [strip_string] applied to [s] wrapped in one layer of double
    quotes and in arbitrary leading and trailing whitespace gives back exactly
    [s]; whitespace inside the quotes is untouched. *)
Theorem C9_strip_string_unwraps (lead trail s : list N) :
  forallb isspace lead = true →
  forallb isspace trail = true →
  head s ≠ Some dquote →
  last s ≠ Some dquote →
  strip_string (lead ++ [dquote] ++ s ++ [dquote] ++ trail) = s.
Proof.
  intros Hlead Htrail Hhd Hlast. unfold strip_string.
  replace (lead ++ [dquote] ++ s ++ [dquote] ++ trail)
    with (lead ++ ([dquote] ++ s ++ [dquote]) ++ trail)
    by (by rewrite <- !app_assoc).
  rewrite strip_wrapped; try done.
  - apply strip_wrapped; try done.
    + intros c Hc. unfold is_dquote. apply N.eqb_neq. congruence.
    + intros c Hc. unfold is_dquote. apply N.eqb_neq. congruence.
  - simpl. by intros c [= <-].
  - intros c. rewrite app_assoc, last_snoc. by intros [= <-].
Qed.

(** C9 at the string [ foo bar ] between quotes, two spaces before and a
    space and a newline after. *)
Lemma C9_strip_string_unwraps_witness :
  let lead := lit "  " in
  let trail := [space; nl] in
  let s := lit " foo bar " in
  forallb isspace lead = true ∧ forallb isspace trail = true
  ∧ head s ≠ Some dquote ∧ last s ≠ Some dquote
  ∧ strip_string (lead ++ [dquote] ++ s ++ [dquote] ++ trail) = s.
Proof.
  intros lead trail s.
  split; [reflexivity|]. split; [reflexivity|].
  split; [discriminate|]. split; [discriminate|].
  apply (C9_strip_string_unwraps lead trail s);
    [reflexivity | reflexivity | discriminate | discriminate].
Defined.

(** ** Rendering one line *)

(** C2: for a record with a name, a version and a checksum the line is the
    indentation, the name, the gap, the version, the spacer and the checksum.
    When [gap = FIELD_WIDTH - (len(name) + len(version))] is positive the gap
    is [gap] spaces, so that name and gap fill the field up to the version,
    and the spacer is [SPACER_WIDTH] spaces; when [gap <= 0] the gap is
    exactly one space and the spacer is [SPACER_WIDTH - 1] spaces. *)
Theorem C2_get_crate_line_layout (cfg : config) (pkg : gmap (list N) (list N))
    (name ver cksum : list N) :
  pkg !! lit "name" = Some name →
  pkg !! lit "version" = Some ver →
  pkg !! lit "checksum" = Some cksum →
  let gap := STANZA_FIELD_WIDTH cfg - (len name + len ver) in
  let indent := replicate (Z.to_nat (STANZA_INDENT cfg)) space in
  (0 < gap →
   get_crate_line cfg pkg
   = Ok (indent ++ name ++ replicate (Z.to_nat gap) space ++ ver
         ++ replicate (Z.to_nat STANZA_SPACER_WIDTH) space ++ cksum)
   ∧ len name + Z.of_nat (Z.to_nat gap) + len ver = STANZA_FIELD_WIDTH cfg)
  ∧ (gap ≤ 0 →
     get_crate_line cfg pkg
     = Ok (indent ++ name ++ [space] ++ ver
           ++ replicate (Z.to_nat (STANZA_SPACER_WIDTH - 1)) space ++ cksum)).
Proof.
  intros Hn Hv Hc gap indent. unfold get_crate_line, getitem.
  rewrite Hn, Hv, Hc. simpl. fold gap. split; intros Hgap.
  - destruct (Z.leb_spec gap 0) as [?|_]; [lia|]. split; [done | lia].
  - destruct (Z.leb_spec gap 0) as [_|?]; [done | lia].
Qed.

(** C2 at the record of the package foo: a gap of 32 spaces. *)
Lemma C2_get_crate_line_layout_witness :
  let pkg : gmap (list N) (list N) :=
    <[lit "checksum" := lit "abc123"]>
      (<[lit "version" := lit "1.0"]> (<[lit "name" := lit "foo"]> ∅)) in
  pkg !! lit "name" = Some (lit "foo")
  ∧ pkg !! lit "version" = Some (lit "1.0")
  ∧ pkg !! lit "checksum" = Some (lit "abc123")
  ∧ get_crate_line default_config pkg
    = Ok (lit "    foo                                1.0  abc123").
Proof.
  intros pkg.
  split; [reflexivity|]. split; [reflexivity|]. split; [reflexivity|].
  refine (proj1 (proj1 (C2_get_crate_line_layout default_config pkg
            (lit "foo") (lit "1.0") (lit "abc123") _ _ _) _));
    reflexivity.
Defined.

(** A name and a version that overflow the field: one space between them
    and one space before the checksum. *)
Example get_crate_line_overflow :
  get_crate_line default_config
    (<[lit "checksum" := lit "abc"]>
       (<[lit "version" := lit "0.123456789"]>
          (<[lit "name" := lit "a-crate-with-a-very-long-name-indeed"]> ∅)))
  = Ok (lit "    a-crate-with-a-very-long-name-indeed 0.123456789 abc").
Proof. vm_compute. reflexivity. Qed.

(** ** Records with a checksum but no name or version *)

Lemma get_crate_line_missing (cfg : config) (pkg : gmap (list N) (list N)) :
  pkg !! lit "name" = None ∨ pkg !! lit "version" = None →
  ∃ key, get_crate_line cfg pkg = Raise (KeyError key)
         ∧ (key = lit "name" ∨ key = lit "version").
Proof.
  intros Hmiss. unfold get_crate_line, getitem.
  destruct (pkg !! lit "name") as [name|] eqn:Hn.
  - destruct Hmiss as [?|Hv]; [done|]. rewrite Hv. simpl. eauto.
  - simpl. eauto.
Qed.

Lemma stanza_loop_raises (cfg : config) (pkg : gmap (list N) (list N))
    (e : exn) (pkgs : list (gmap (list N) (list N))) :
  pkg ∈ pkgs →
  is_Some (pkg !! lit "checksum") →
  get_crate_line cfg pkg = Raise e →
  ∀ num_blocks count output,
    ∃ e', Cargo2Ports.stanza_loop cfg num_blocks count pkgs output = Raise e'.
Proof.
  intros Hin [ck Hck] Hline.
  induction pkgs as [|x pkgs IH]; intros num_blocks count output.
  - by apply elem_of_nil in Hin.
  - simpl. apply elem_of_cons in Hin as [<-|Hin].
    + rewrite Hck, Hline. simpl. eauto.
    + destruct (x !! lit "checksum"); [|by apply IH].
      destruct (get_crate_line cfg x); simpl; [by apply IH | eauto].
Qed.

Lemma v2_stanza_loop_raises (cfg : config) (pkg : gmap (list N) (list N))
    (e : exn) (b : list N) (blocks : list (list N)) :
  b ∈ blocks →
  CargoV2.parse_package_block b = Ok pkg →
  is_Some (pkg !! lit "checksum") →
  get_crate_line cfg pkg = Raise e →
  ∀ num_blocks count output,
    ∃ e', CargoV2.stanza_loop cfg num_blocks count blocks output = Raise e'.
Proof.
  intros Hin Hparse [ck Hck] Hline.
  induction blocks as [|x blocks IH]; intros num_blocks count output.
  - by apply elem_of_nil in Hin.
  - simpl. apply elem_of_cons in Hin as [<-|Hin].
    + rewrite Hparse. simpl. rewrite Hck, Hline. simpl. eauto.
    + destruct (CargoV2.parse_package_block x) as [block|]; simpl; [|eauto].
      destruct (block !! lit "checksum"); [|by apply IH].
      destruct (get_crate_line cfg block); simpl; [by apply IH | eauto].
Qed.

(** C10: a record that has a [checksum] key but lacks [name] or [version]
    never yields an output line: [get_crate_line] raises [KeyError] on the
    missing key, and stanza generation over any sequence that contains the
    record raises instead of returning a stanza, in both scripts. *)
Theorem C10_missing_field_fails_loudly (cfg : config)
    (pkg : gmap (list N) (list N)) :
  is_Some (pkg !! lit "checksum") →
  pkg !! lit "name" = None ∨ pkg !! lit "version" = None →
  (∃ key, get_crate_line cfg pkg = Raise (KeyError key)
          ∧ (key = lit "name" ∨ key = lit "version"))
  ∧ (∀ pkgs, pkg ∈ pkgs →
       ∃ e, Cargo2Ports.generate_crates_stanza cfg pkgs = Raise e)
  ∧ (∀ blocks b, b ∈ blocks → CargoV2.parse_package_block b = Ok pkg →
       ∃ e, CargoV2.generate_crates_stanza cfg blocks = Raise e).
Proof.
  intros Hck Hmiss.
  destruct (get_crate_line_missing cfg pkg Hmiss) as (key & Hline & Hkey).
  split; [eauto|]. split.
  - intros pkgs Hin. unfold Cargo2Ports.generate_crates_stanza.
    destruct (stanza_loop_raises cfg pkg _ pkgs Hin Hck Hline
                (len_list pkgs) 0 [declaration]) as [e' ->].
    simpl. eauto.
  - intros blocks b Hin Hparse. unfold CargoV2.generate_crates_stanza.
    destruct (v2_stanza_loop_raises cfg pkg _ b blocks Hin Hparse Hck Hline
                (len_list blocks) 0 [declaration]) as [e' ->].
    simpl. eauto.
Qed.

(** C10 at a record that has a checksum only. *)
Lemma C10_missing_field_fails_loudly_witness :
  let pkg : gmap (list N) (list N) := <[lit "checksum" := lit "abc"]> ∅ in
  is_Some (pkg !! lit "checksum")
  ∧ (pkg !! lit "name" = None ∨ pkg !! lit "version" = None)
  ∧ ∃ key, get_crate_line default_config pkg = Raise (KeyError key)
           ∧ (key = lit "name" ∨ key = lit "version").
Proof.
  intros pkg.
  split; [by exists (lit "abc")|]. split; [by left|].
  apply (C10_missing_field_fails_loudly default_config pkg);
    [by exists (lit "abc") | by left].
Defined.

(** ** The continuation marker *)

(** C1 (the code departs from it): the lock file with the package foo (with
    a checksum) followed by the package bar (without one).  Only foo is
    rendered, and its line, the last one emitted, still ends with the
    continuation marker: the loop compares the index of the record in the
    unfiltered sequence with the index of its last element.  With foo alone
    the line has no marker. *)
Theorem C1_marker_after_last_emitted_line :
  Cargo2Ports.get_packages foo_bar_lock = [foo_record; bar_record]
  ∧ Cargo2Ports.generate_crates_stanza default_config [foo_record; bar_record]
    = Ok (declaration ++ [nl] ++ foo_line ++ continuation)
  ∧ Cargo2Ports.generate_crates_stanza default_config [foo_record]
    = Ok (declaration ++ [nl] ++ foo_line)
  ∧ CargoV2.get_package_blocks foo_bar_lock = [foo_body; bar_body]
  ∧ CargoV2.generate_crates_stanza default_config [foo_body; bar_body]
    = Ok (declaration ++ [nl] ++ foo_line ++ continuation).
Proof. vm_compute. repeat split. Qed.

(** ** Parsing a block *)

(** C6 (the code departs from it in cargoV2forports.py): a block whose first
    line has no equals sign.  cargo2ports.py ignores the line;
    cargoV2forports.py, whose assignment to the record is outside the [if],
    raises [UnboundLocalError]. *)
Theorem C6_v2_block_without_equals_raises :
  CargoV2.get_package_blocks junk_lock = [lit "foo" ++ [nl]]
  ∧ CargoV2.parse_package_block (lit "foo" ++ [nl])
    = Raise (UnboundLocalError "v")
  ∧ Cargo2Ports.parse_package_block (lit "foo" ++ [nl]) = ∅.
Proof. vm_compute. repeat split. Qed.

(** ** The rendering loop *)

Lemma get_crate_line_complete (cfg : config) (pkg : gmap (list N) (list N)) :
  renderable pkg → complete pkg → ∃ l, get_crate_line cfg pkg = Ok l.
Proof.
  intros Hr Hc. destruct (Hc Hr) as [[name Hn] [ver Hv]].
  destruct Hr as [ck Hck].
  unfold get_crate_line, getitem. rewrite Hn, Hv, Hck. simpl.
  destruct (_ <=? 0); eauto.
Qed.

(** When every record can be rendered, the loop appends one line per record
    with a checksum, in order. *)
Lemma stanza_loop_complete (cfg : config)
    (pkgs : list (gmap (list N) (list N))) :
  Forall complete pkgs →
  ∀ num_blocks count output,
    ∃ lines,
      Cargo2Ports.stanza_loop cfg num_blocks count pkgs output
      = Ok (output ++ lines)
      ∧ Forall2 (rendered_as cfg) (filter renderable pkgs) lines.
Proof.
  induction 1 as [|pkg pkgs Hpkg _ IH]; intros num_blocks count output.
  - exists []. simpl. by rewrite app_nil_r.
  - simpl. destruct (pkg !! lit "checksum") as [ck|] eqn:Hck.
    + assert (renderable pkg) as Hr by (by exists ck).
      destruct (get_crate_line_complete cfg pkg Hr Hpkg) as [l Hl].
      rewrite Hl. simpl.
      destruct (IH num_blocks (count + 1)
                  (output ++
                   [l ++ (if count =? num_blocks - 1 then [] else continuation)]))
        as (lines & -> & Hlines).
      eexists (_ :: lines). rewrite <- app_assoc. split; [done|].
      rewrite filter_cons_True by done. constructor; [|done].
      exists l. split; [done|].
      destruct (count =? num_blocks - 1); [left; by rewrite app_nil_r | by right].
    + destruct (IH num_blocks (count + 1) output) as (lines & -> & Hlines).
      exists lines. split; [done|].
      rewrite filter_cons_False; [done|].
      intros [? ?]. unfold renderable in *. congruence.
Qed.

(** The loop of cargoV2forports.py on blocks that parse is the loop of
    cargo2ports.py on the parsed records. *)
Lemma v2_stanza_loop_parsed (cfg : config) (blocks : list (list N))
    (pkgs : list (gmap (list N) (list N))) :
  Forall2 (λ b pkg, CargoV2.parse_package_block b = Ok pkg) blocks pkgs →
  ∀ num_blocks count output,
    CargoV2.stanza_loop cfg num_blocks count blocks output
    = Cargo2Ports.stanza_loop cfg num_blocks count pkgs output.
Proof.
  induction 1 as [|b pkg blocks pkgs Hb _ IH]; intros num_blocks count output.
  - done.
  - simpl. rewrite Hb. simpl.
    destruct (pkg !! lit "checksum"); [|by apply IH].
    destruct (get_crate_line cfg pkg); simpl; [by apply IH | done].
Qed.

Lemma v2_generate_parsed (cfg : config) (blocks : list (list N))
    (pkgs : list (gmap (list N) (list N))) :
  Forall2 (λ b pkg, CargoV2.parse_package_block b = Ok pkg) blocks pkgs →
  CargoV2.generate_crates_stanza cfg blocks
  = Cargo2Ports.generate_crates_stanza cfg pkgs.
Proof.
  intros H. unfold CargoV2.generate_crates_stanza,
    Cargo2Ports.generate_crates_stanza.
  rewrite (v2_stanza_loop_parsed cfg blocks pkgs H).
  unfold len_list. by rewrite (Forall2_length _ _ _ H).
Qed.

Lemma generate_complete (cfg : config)
    (pkgs : list (gmap (list N) (list N))) :
  Forall complete pkgs →
  ∃ lines,
    Cargo2Ports.generate_crates_stanza cfg pkgs
    = Ok (join [nl] (declaration :: lines))
    ∧ Forall2 (rendered_as cfg) (filter renderable pkgs) lines.
Proof.
  intros H. unfold Cargo2Ports.generate_crates_stanza.
  destruct (stanza_loop_complete cfg pkgs H (len_list pkgs) 0 [declaration])
    as (lines & -> & Hlines).
  exists lines. done.
Qed.

(** ** The driver *)

Lemma run_fatal_first {A} (k : A → io unit) :
  run (io_bind (fatal no_packages_message) k)
  = Outcome [] (no_packages_message ++ [nl]) 1.
Proof. done. Qed.

Lemma run_print_stanza (r : result (list N)) (stanza : list N) :
  r = Ok stanza →
  run (io_bind (io_ret tt) (λ _, io_bind (io_lift r) print))
  = Outcome (stanza ++ [nl]) [] 0.
Proof. by intros ->. Qed.

(** C4 (as stated, refuted): a lock file whose only package table has a
    checksum but neither name nor version.  The record sequence is not
    empty, yet nothing is written to standard output and the exit status is
    1: rendering raises [KeyError]. *)
Lemma C4_counterexample :
  Cargo2Ports.is_v1_lockfile checksum_only_lock = false
  ∧ Cargo2Ports.get_packages checksum_only_lock
    = [<[lit "checksum" := lit "abc"]> ∅]
  ∧ run (Cargo2Ports.main 4 38 checksum_only_lock)
    = Outcome [] (lit "KeyError: 'name'" ++ [nl]) 1
  ∧ CargoV2.get_package_blocks checksum_only_lock = [kv "checksum" "abc"]
  ∧ run (CargoV2.main 4 checksum_only_lock)
    = Outcome [] (lit "KeyError: 'name'" ++ [nl]) 1.
Proof. vm_compute. repeat split. Qed.

(** C4 (amended): when the extraction yields an empty sequence, as it does
    for a 0-byte file, the driver writes the diagnostic to standard error,
    nothing to standard output, and exits with status 1.  When it yields a
    non-empty sequence in which every record that has a checksum also has a
    name and a version (in cargoV2forports.py: every block parses to such a
    record), the driver writes the rendered stanza and a newline to standard
    output, nothing to standard error, and exits with status 0. *)
Theorem C4_driver_outcome (indent width : Z) (contents : list N) :
  (let cfg := {| STANZA_INDENT := indent; STANZA_FIELD_WIDTH := width |} in
   let packages :=
     if Cargo2Ports.is_v1_lockfile contents
     then Cargo2Ports.get_packages_from_metadata contents
     else Cargo2Ports.get_packages contents in
   (packages = [] →
    run (Cargo2Ports.main indent width contents)
    = Outcome [] (no_packages_message ++ [nl]) 1)
   ∧ (packages ≠ [] → Forall complete packages →
      ∃ stanza,
        Cargo2Ports.generate_crates_stanza cfg packages = Ok stanza
        ∧ run (Cargo2Ports.main indent width contents)
          = Outcome (stanza ++ [nl]) [] 0))
  ∧ (let cfg := {| STANZA_INDENT := indent; STANZA_FIELD_WIDTH := 38 |} in
     let blocks := CargoV2.get_package_blocks contents in
     (blocks = [] →
      run (CargoV2.main indent contents)
      = Outcome [] (no_packages_message ++ [nl]) 1)
     ∧ (blocks ≠ [] →
        ∀ pkgs,
          Forall2 (λ b pkg, CargoV2.parse_package_block b = Ok pkg)
            blocks pkgs →
          Forall complete pkgs →
          ∃ stanza,
            CargoV2.generate_crates_stanza cfg blocks = Ok stanza
            ∧ run (CargoV2.main indent contents)
              = Outcome (stanza ++ [nl]) [] 0))
  ∧ run (Cargo2Ports.main indent width [])
    = Outcome [] (no_packages_message ++ [nl]) 1
  ∧ run (CargoV2.main indent []) = Outcome [] (no_packages_message ++ [nl]) 1.
Proof.
  split; [|split; [|done]].
  - intros cfg packages. split.
    + intros Hnil. unfold Cargo2Ports.main. fold packages. rewrite Hnil.
      apply run_fatal_first.
    + intros Hne Hall.
      destruct (generate_complete cfg packages Hall) as (lines & Hgen & _).
      eexists. split; [exact Hgen|].
      unfold Cargo2Ports.main. fold packages. fold cfg.
      destruct packages as [|pkg packages']; [done|].
      by apply run_print_stanza.
  - intros cfg blocks. split.
    + intros Hnil. unfold CargoV2.main. fold blocks. rewrite Hnil.
      apply run_fatal_first.
    + intros Hne pkgs Hparse Hall.
      destruct (generate_complete cfg pkgs Hall) as (lines & Hgen & _).
      rewrite <- (v2_generate_parsed cfg blocks pkgs Hparse) in Hgen.
      eexists. split; [exact Hgen|].
      unfold CargoV2.main. fold blocks. simpl STANZA_FIELD_WIDTH. fold cfg.
      destruct blocks as [|b blocks']; [done|].
      by apply run_print_stanza.
Qed.

(** C4 at the lock file with the packages foo and bar. *)
Lemma C4_driver_outcome_witness :
  Cargo2Ports.is_v1_lockfile foo_bar_lock = false
  ∧ Cargo2Ports.get_packages foo_bar_lock ≠ []
  ∧ Forall complete (Cargo2Ports.get_packages foo_bar_lock)
  ∧ ∃ stanza,
      Cargo2Ports.generate_crates_stanza default_config
        (Cargo2Ports.get_packages foo_bar_lock) = Ok stanza
      ∧ run (Cargo2Ports.main 4 38 foo_bar_lock)
        = Outcome (stanza ++ [nl]) [] 0.
Proof.
  assert (Cargo2Ports.is_v1_lockfile foo_bar_lock = false) as Hv1
    by (vm_compute; reflexivity).
  assert (Cargo2Ports.get_packages foo_bar_lock = [foo_record; bar_record])
    as Hpk by (vm_compute; reflexivity).
  assert (Forall complete (Cargo2Ports.get_packages foo_bar_lock)) as Hall.
  { rewrite Hpk.
    apply Forall_cons_2; [|apply Forall_cons_2; [|apply Forall_nil_2]];
      intros _; split; vm_compute; eauto. }
  assert (Cargo2Ports.get_packages foo_bar_lock ≠ []) as Hne
    by (rewrite Hpk; discriminate).
  split; [exact Hv1|]. split; [exact Hne|]. split; [exact Hall|].
  pose proof (proj1 (C4_driver_outcome 4 38 foo_bar_lock)) as H.
  cbv zeta in H. rewrite Hv1 in H. exact (proj2 H Hne Hall).
Defined.

(** ** The matcher *)

Lemma match_str_app (l s : list N) (b : bool) (caps : list (nat * list N)) :
  match_str l (MState b (l ++ s) caps)
  = [MState (from_option (λ c, c =? nl)%N b (last l)) s caps].
Proof.
  revert b. induction l as [|c l IH]; intros b; simpl; [done|].
  rewrite N.eqb_refl. unfold consume. simpl. rewrite IH.
  destruct l as [|d l]; [done|]. rewrite last_cons_cons.
  destruct (proj2 (last_is_Some (d :: l))) as [x ->]; done.
Qed.

Lemma match_str_inv (l : list N) (st st' : mstate) :
  st' ∈ match_str l st →
  ms_rest st = l ++ ms_rest st' ∧ ms_caps st' = ms_caps st.
Proof.
  revert st. induction l as [|c l IH]; intros st; simpl.
  - by intros ->%list_elem_of_singleton.
  - destruct (ms_rest st) as [|c' rest] eqn:Hrest; [by intros ?%elem_of_nil|].
    destruct (N.eqb_spec c c') as [->|?]; [|by intros ?%elem_of_nil].
    intros [Hr Hc]%IH. simpl in *. by rewrite Hr.
Qed.

Lemma match_str_nil_iff (l : list N) (st : mstate) :
  match_str l st ≠ [] ↔ ∃ s, ms_rest st = l ++ s.
Proof.
  split.
  - destruct (match_str l st) as [|st' ?] eqn:Heq; [done|]. intros _.
    exists (ms_rest st'). apply match_str_inv. rewrite Heq. left.
  - intros [s Hs]. destruct st as [b rest caps]. simpl in Hs. subst rest.
    by rewrite match_str_app.
Qed.

(** The detection pattern matches at a position exactly when the position is
    at the beginning of a line and the header follows. *)
Lemma match_at_v1_re (bol : bool) (s : list N) :
  is_Some (match_at Cargo2Ports.v1_re bol s)
  ↔ bol = true ∧ ∃ post, s = lit "[metadata]" ++ post.
Proof.
  unfold match_at, Cargo2Ports.v1_re.
  change (rmatch (Seq Bol (Str (lit "[metadata]"))) (MState bol s []))
    with ((if bol then [MState bol s []] else [])
          ≫= match_str (lit "[metadata]")).
  destruct bol.
  - rewrite bind_singleton.
    pose proof (match_str_nil_iff (lit "[metadata]") (MState true s [])) as H.
    simpl ms_rest in H.
    destruct (match_str (lit "[metadata]") (MState true s [])).
    + split; [by intros [? ?]|]. intros [_ Hs]. apply H in Hs. done.
    + split; [|by eauto]. intros _. split; [done|]. by apply H.
  - split; [by intros [? ?] | by intros [? _]].
Qed.

Lemma search_from_v1_re (bol : bool) (s : list N) :
  is_Some (search_from Cargo2Ports.v1_re bol s)
  ↔ ∃ pre post,
      s = pre ++ lit "[metadata]" ++ post
      ∧ (pre = [] ∧ bol = true ∨ ∃ pre', pre = pre' ++ [nl]).
Proof.
  revert bol. induction s as [|c s IH]; intros bol.
  - simpl search_from. pose proof (match_at_v1_re bol []) as Hat.
    destruct (match_at Cargo2Ports.v1_re bol []) as [m|].
    + destruct Hat as [Hat _]. destruct Hat as [_ [post Hpost]]; [by eauto|].
      discriminate Hpost.
    + split; [by intros [? ?]|].
      intros (pre & post & Heq & _). destruct pre; discriminate Heq.
  - simpl search_from. pose proof (match_at_v1_re bol (c :: s)) as Hat.
    destruct (match_at Cargo2Ports.v1_re bol (c :: s)) as [m|].
    + split; [|by eauto]. intros _.
      destruct Hat as [Hat _]. destruct Hat as [-> [post Hpost]]; [by eauto|].
      exists [], post. split; [done | by left].
    + rewrite fmap_is_Some, IH. split.
      * intros (pre & post & -> & Hpre). exists (c :: pre), post.
        split; [done|]. right.
        destruct Hpre as [[-> Hc]|[pre' ->]].
        -- exists []. apply N.eqb_eq in Hc. by subst c.
        -- by exists (c :: pre').
      * intros (pre & post & Heq & Hpre).
        destruct Hpre as [[-> ->]|[pre' ->]].
        -- destruct Hat as [_ Hat]. destruct Hat as [? ?]; [by eauto | done].
        -- destruct pre' as [|c' pre'].
           ++ injection Heq as -> ->. exists [], post.
              split; [done|]. by left.
           ++ injection Heq as -> ->. exists (pre' ++ [nl]), post.
              split; [done|]. right. by eexists.
Qed.

Lemma is_v1_lockfile_spec (text : list N) :
  Cargo2Ports.is_v1_lockfile text = true ↔ has_metadata_header text.
Proof.
  unfold Cargo2Ports.is_v1_lockfile, search, has_metadata_header.
  pose proof (search_from_v1_re true text) as H.
  destruct (search_from Cargo2Ports.v1_re true text).
  - split; [|done]. intros _. destruct H as [H _].
    destruct H as (pre & post & -> & Hpre); [by eauto|].
    exists pre, post. split; [done|]. destruct Hpre as [[-> _]|?]; eauto.
  - split; [done|]. intros (pre & post & -> & Hpre).
    destruct H as [_ H]. destruct H as [? ?]; [|done].
    exists pre, post. split; [done|]. destruct Hpre as [->|?]; eauto.
Qed.

(** ** Format detection *)

(** C5: the detection is true exactly when some line of the text begins
    with the [metadata] header; when it does, the driver renders the records
    of the legacy extractor, whatever else the text contains, and otherwise
    those of the current-format extractor. *)
Theorem C5_format_detection (indent width : Z) (text : list N) :
  let cfg := {| STANZA_INDENT := indent; STANZA_FIELD_WIDTH := width |} in
  (Cargo2Ports.is_v1_lockfile text = true ↔ has_metadata_header text)
  ∧ (has_metadata_header text →
     Cargo2Ports.main indent width text
     = render cfg (Cargo2Ports.get_packages_from_metadata text))
  ∧ (¬ has_metadata_header text →
     Cargo2Ports.main indent width text
     = render cfg (Cargo2Ports.get_packages text)).
Proof.
  intros cfg. split; [apply is_v1_lockfile_spec|]. split.
  - intros Hh%is_v1_lockfile_spec. unfold Cargo2Ports.main. by rewrite Hh.
  - intros Hh. unfold Cargo2Ports.main.
    destruct (Cargo2Ports.is_v1_lockfile text) eqn:Hv1; [|done].
    by apply is_v1_lockfile_spec in Hv1.
Qed.

(** C5 at a text that has a package table and a [metadata] section. *)
Lemma C5_format_detection_witness :
  has_metadata_header mixed_lock
  ∧ Cargo2Ports.main 4 38 mixed_lock
    = render default_config (Cargo2Ports.get_packages_from_metadata mixed_lock).
Proof.
  assert (has_metadata_header mixed_lock) as Hh.
  { exists (foo_block ++ [nl]), ([nl] ++ bar_metadata_line ++ [nl]).
    split; [|right; by exists foo_block].
    unfold mixed_lock, legacy_lock. by rewrite <- !app_assoc. }
  split; [exact Hh|].
  exact (proj1 (proj2 (C5_format_detection 4 38 mixed_lock)) Hh).
Defined.

(** ** The legacy extractor *)

Lemma search_from_mono (r1 r2 : regex) :
  (∀ bol s, is_Some (match_at r1 bol s) → is_Some (match_at r2 bol s)) →
  ∀ bol s, is_Some (search_from r1 bol s) → is_Some (search_from r2 bol s).
Proof.
  intros Hat bol s. revert bol.
  induction s as [|c s IH]; intros bol; simpl.
  - specialize (Hat bol []).
    destruct (match_at r1 bol []); [|by intros [? ?]].
    intros _. destruct Hat as [m ->]; by eauto.
  - specialize (Hat bol (c :: s)).
    destruct (match_at r1 bol (c :: s)).
    + intros _. destruct Hat as [m ->]; by eauto.
    + rewrite fmap_is_Some. intros H%IH.
      destruct (match_at r2 bol (c :: s)); [by eauto|].
      by rewrite fmap_is_Some.
Qed.

(** The section pattern starts with the detection pattern. *)
Lemma match_at_metadata_re (bol : bool) (s : list N) :
  is_Some (match_at Cargo2Ports.metadata_re bol s) →
  is_Some (match_at Cargo2Ports.v1_re bol s).
Proof.
  rewrite match_at_v1_re. unfold match_at, Cargo2Ports.metadata_re.
  match goal with
  | |- context [rmatch (Seq Bol (Seq (Str ?m) ?r)) ?st] =>
      change (rmatch (Seq Bol (Seq (Str m) r)) st)
        with ((if bol then [st] else [])
              ≫= λ st1, match_str m st1 ≫= rmatch r)
  end.
  destruct bol; [|by intros [? ?]].
  rewrite bind_singleton. intros Hsome. split; [done|].
  pose proof (match_str_nil_iff (lit "[metadata]") (MState true s [])) as H.
  simpl ms_rest in H. apply H.
  destruct (match_str (lit "[metadata]") (MState true s [])); [|done].
  by destruct Hsome.
Qed.

Lemma metadata_section_None (text : list N) :
  ¬ has_metadata_header text → metadata_section text = None.
Proof.
  intros Hh. unfold metadata_section, search.
  destruct (search_from Cargo2Ports.metadata_re true text) eqn:Hs; [|done].
  destruct Hh. apply is_v1_lockfile_spec.
  unfold Cargo2Ports.is_v1_lockfile, search.
  destruct (search_from_mono _ _ match_at_metadata_re true text) as [m ->];
    [by rewrite Hs | done].
Qed.

Lemma foldl_append_if {A B} (c : A → bool) (P : A → Prop)
    `{∀ x, Decision (P x)} (g : A → B) (l : list A) (acc : list B) :
  (∀ x, c x = true ↔ P x) →
  foldl (λ acc x, if c x then acc ++ [g x] else acc) acc l
  = acc ++ (g <$> filter P l).
Proof.
  intros Hc. revert acc. induction l as [|x l IH]; intros acc; simpl.
  - by rewrite app_nil_r.
  - rewrite IH. destruct (c x) eqn:Hx.
    + rewrite filter_cons_True by (by apply Hc). by rewrite <- app_assoc.
    + rewrite filter_cons_False; [done|]. rewrite <- Hc. congruence.
Qed.

Lemma get_packages_from_metadata_section (text : list N) :
  Cargo2Ports.get_packages_from_metadata text
  = match metadata_section text with
    | None => []
    | Some section =>
        (λ line, Cargo2Ports.metadata_package (tokens_of line))
          <$> filter qualifying (split nl section)
    end.
Proof.
  unfold Cargo2Ports.get_packages_from_metadata, metadata_section.
  destruct (search Cargo2Ports.metadata_re text) as [m|]; [|done].
  exact (foldl_append_if (λ line, (6 <=? length (tokens_of line))%nat)
           qualifying
           (λ line, Cargo2Ports.metadata_package (tokens_of line))
           (split nl (Cargo2Ports.groups_0 m)) []
           (λ line, Nat.leb_le 6 (length (tokens_of line)))).
Qed.

Lemma metadata_package_fields (tokens : list (list N)) :
  (6 ≤ length tokens)%nat →
  let pkg := Cargo2Ports.metadata_package tokens in
  pkg !! lit "name" = Some (strip_string (tokens !!! 1%nat))
  ∧ pkg !! lit "version" = Some (strip_string (tokens !!! 2%nat))
  ∧ pkg !! lit "checksum" = Some (strip_string (tokens !!! 5%nat)).
Proof.
  intros Hlen. unfold Cargo2Ports.metadata_package.
  rewrite !(list_lookup_total_fmap strip_string tokens) by lia.
  split; [|split].
  - rewrite lookup_insert_ne by done. rewrite lookup_insert_ne by done.
    apply lookup_insert_eq.
  - rewrite lookup_insert_ne by done. apply lookup_insert_eq.
  - apply lookup_insert_eq.
Qed.

(** ** What every match consumes and captures *)

Lemma star_loop_closure (R : relation mstate) `{!Reflexive R, !Transitive R}
    (step : mstate → list mstate) :
  (∀ st st', st' ∈ step st → R st st') →
  ∀ fuel st st', st' ∈ star_loop step fuel st → R st st'.
Proof.
  intros Hstep. induction fuel as [|fuel IH]; intros st st'; simpl.
  - by intros ->%list_elem_of_singleton.
  - intros [Hin| ->%list_elem_of_singleton]%elem_of_app; [|done].
    apply list_elem_of_bind in Hin as (st1 & Hin & Hst1).
    destruct (_ <? _)%nat; [|by apply elem_of_nil in Hin].
    transitivity st1; [by apply Hstep | by apply IH].
Qed.

#[local] Instance rest_suffix_refl : Reflexive rest_suffix.
Proof. intros st. by unfold rest_suffix. Qed.

#[local] Instance rest_suffix_trans : Transitive rest_suffix.
Proof. intros st1 st2 st3 H1 H2. unfold rest_suffix in *. by etrans. Qed.

#[local] Instance same_caps_refl : Reflexive same_caps.
Proof. by intros st. Qed.

#[local] Instance same_caps_trans : Transitive same_caps.
Proof. intros st1 st2 st3 H1 H2. unfold same_caps in *. congruence. Qed.

(** A match leaves a suffix of the text it started from. *)
Lemma rmatch_suffix (r : regex) (st st' : mstate) :
  st' ∈ rmatch r st → rest_suffix st st'.
Proof.
  revert st st'.
  induction r as [s| p | | |r1 IH1 r2 IH2|r1 IH1 r2 IH2|r IH|r IH|n r IH];
    intros st st'; cbn [rmatch].
  - intros [Hr _]%match_str_inv. unfold rest_suffix. rewrite Hr.
    by apply suffix_app_r.
  - destruct (ms_rest st) as [|c rest] eqn:Hrest; [by intros ?%elem_of_nil|].
    destruct (p c); [|by intros ?%elem_of_nil].
    intros ->%list_elem_of_singleton. unfold rest_suffix. rewrite Hrest.
    simpl. by apply suffix_cons_r.
  - destruct (ms_bol st); [|by intros ?%elem_of_nil].
    by intros ->%list_elem_of_singleton.
  - destruct (ms_rest st) as [|c rest] eqn:Hrest.
    + by intros ->%list_elem_of_singleton.
    + destruct (c =? nl)%N; [|by intros ?%elem_of_nil].
      by intros ->%list_elem_of_singleton.
  - intros (st1 & H2 & H1)%list_elem_of_bind.
    transitivity st1; [by apply IH1 | by apply IH2].
  - intros [?|?]%elem_of_app; [by apply IH1 | by apply IH2].
  - apply (star_loop_closure rest_suffix (rmatch r) IH).
  - intros (st1 & H2 & H1)%list_elem_of_bind.
    transitivity st1; [by apply IH|].
    by apply (star_loop_closure rest_suffix (rmatch r) IH) in H2.
  - intros (st1 & -> & H1)%list_elem_of_fmap. by apply IH in H1.
Qed.

Lemma rmatch_length (r : regex) (st st' : mstate) :
  st' ∈ rmatch r st → (length (ms_rest st') ≤ length (ms_rest st))%nat.
Proof. intros H%rmatch_suffix. by apply suffix_length. Qed.

(** A pattern that cannot match the empty string consumes text. *)
Lemma rmatch_consuming (r : regex) (st st' : mstate) :
  consuming r = true →
  st' ∈ rmatch r st → (length (ms_rest st') < length (ms_rest st))%nat.
Proof.
  revert st st'.
  induction r as [s| p | | |r1 IH1 r2 IH2|r1 IH1 r2 IH2|r IH|r IH|n r IH];
    intros st st'; cbn [rmatch consuming]; try done.
  - destruct s as [|c s]; [done|]. intros _ [Hr _]%match_str_inv.
    rewrite Hr. rewrite length_app. simpl. lia.
  - intros _. destruct (ms_rest st) as [|c rest] eqn:Hrest;
      [by intros ?%elem_of_nil|].
    destruct (p c); [|by intros ?%elem_of_nil].
    intros ->%list_elem_of_singleton. simpl. lia.
  - intros Hc (st1 & H2 & H1)%list_elem_of_bind.
    pose proof (rmatch_length _ _ _ H1). pose proof (rmatch_length _ _ _ H2).
    apply orb_prop in Hc as [Hc|Hc].
    + specialize (IH1 _ _ Hc H1). lia.
    + specialize (IH2 _ _ Hc H2). lia.
  - intros [Hc1 Hc2]%andb_prop [?|?]%elem_of_app;
      [by apply IH1 | by apply IH2].
  - intros Hc (st1 & H2 & H1)%list_elem_of_bind.
    specialize (IH _ _ Hc H1).
    apply (star_loop_closure rest_suffix (rmatch r) (rmatch_suffix r)) in H2.
    apply suffix_length in H2. lia.
  - intros Hc (st1 & -> & H1)%list_elem_of_fmap. simpl. by apply IH.
Qed.

(** A pattern without groups leaves the captured groups as they are. *)
Lemma rmatch_groupless (r : regex) (st st' : mstate) :
  groupless r = true → st' ∈ rmatch r st → same_caps st st'.
Proof.
  revert st st'.
  induction r as [s| p | | |r1 IH1 r2 IH2|r1 IH1 r2 IH2|r IH|r IH|n r IH];
    intros st st'; cbn [rmatch groupless]; try done.
  - by intros _ [_ Hc]%match_str_inv.
  - intros _. destruct (ms_rest st) as [|c rest]; [by intros ?%elem_of_nil|].
    destruct (p c); [|by intros ?%elem_of_nil].
    by intros ->%list_elem_of_singleton.
  - intros _. destruct (ms_bol st); [|by intros ?%elem_of_nil].
    by intros ->%list_elem_of_singleton.
  - intros _. destruct (ms_rest st) as [|c rest].
    + by intros ->%list_elem_of_singleton.
    + destruct (c =? nl)%N; [|by intros ?%elem_of_nil].
      by intros ->%list_elem_of_singleton.
  - intros [Hc1 Hc2]%andb_prop (st1 & H2 & H1)%list_elem_of_bind.
    transitivity st1; [by apply IH1 | by apply IH2].
  - intros [Hc1 Hc2]%andb_prop [?|?]%elem_of_app;
      [by apply IH1 | by apply IH2].
  - intros Hc. apply (star_loop_closure same_caps (rmatch r)).
    intros ? ?. by apply IH.
  - intros Hc (st1 & H2 & H1)%list_elem_of_bind.
    transitivity st1; [by apply IH|].
    apply (star_loop_closure same_caps (rmatch r)) in H2; [done|].
    intros ? ?. by apply IH.
Qed.

(** ** The blocks of the current format *)

Lemma search_from_end (r : regex) (bol : bool) (s : list N) (m : rematch) :
  search_from r bol s = Some m →
  ∃ bol' s', m_end m ∈ rmatch r (MState bol' s' []).
Proof.
  revert bol m. induction s as [|c s IH]; intros bol m; simpl.
  - unfold match_at. destruct (rmatch r (MState bol [] [])) eqn:Hr; [done|].
    intros [= <-]. exists bol, []. rewrite Hr. simpl. left.
  - unfold match_at at 1.
    destruct (rmatch r (MState bol (c :: s) [])) eqn:Hr.
    + destruct (search_from r (c =? nl)%N s) as [m'|] eqn:Hs; [|done].
      intros [= <-]. simpl. by eapply IH.
    + intros [= <-]. exists bol, (c :: s). rewrite Hr. simpl. left.
Qed.

Lemma finditer_from_end (r : regex) (fuel : nat) (bol : bool) (s : list N)
    (m : rematch) :
  m ∈ finditer_from fuel r bol s →
  ∃ bol' s', m_end m ∈ rmatch r (MState bol' s' []).
Proof.
  revert bol s. induction fuel as [|fuel IH]; intros bol s; simpl.
  - by intros ?%elem_of_nil.
  - destruct (search_from r bol s) as [m'|] eqn:Hs; [|by intros ?%elem_of_nil].
    intros [->|Hin]%elem_of_cons; [by eapply search_from_end|].
    destruct (m_text m'); [by apply elem_of_nil in Hin | by eapply IH].
Qed.

Lemma take_nonempty {A} (n : nat) (l : list A) :
  (0 < n)%nat → l ≠ [] → take n l ≠ [].
Proof. destruct n, l; simpl; try done; lia. Qed.

(** Group 1 of a match of the block pattern of cargo2ports.py is not
    empty. *)
Lemma block_re_group_nonempty (st st' : mstate) (pre txt : list N) :
  st' ∈ rmatch Cargo2Ports.block_re st →
  ∃ b, group 1 (ReMatch pre txt st') = Some b ∧ b ≠ [].
Proof.
  unfold Cargo2Ports.block_re. cbn [rmatch].
  intros (st1 & Hin & _)%list_elem_of_bind.
  apply list_elem_of_bind in Hin as (st2 & Hin & _).
  apply list_elem_of_bind in Hin as (st3 & Hin & H3).
  apply list_elem_of_fmap in Hin as (st4 & -> & H4).
  apply list_elem_of_fmap in H3 as (st3' & -> & H3).
  pose proof (rmatch_consuming (Plus (line_re 2)) st2 st3' eq_refl H3) as Hlt.
  apply (rmatch_groupless terminator_re) in H4; [|done].
  unfold same_caps in H4. simpl in H4.
  unfold group. simpl. rewrite H4. simpl.
  eexists. split; [done|]. apply take_nonempty; [lia|].
  destruct (ms_rest st2); [simpl in Hlt; lia | done].
Qed.

(** The same for group 2 of the block pattern of cargoV2forports.py. *)
Lemma v2_block_re_group_nonempty (st st' : mstate) (pre txt : list N) :
  st' ∈ rmatch CargoV2.block_re st →
  ∃ b, group 2 (ReMatch pre txt st') = Some b ∧ b ≠ [].
Proof.
  unfold CargoV2.block_re. cbn [rmatch].
  intros (st1 & Hin & H1)%list_elem_of_bind.
  apply list_elem_of_fmap in Hin as (st4 & -> & H4).
  apply list_elem_of_fmap in H1 as (st1' & -> & H1).
  apply list_elem_of_bind in H1 as (st2 & H1 & _).
  apply list_elem_of_bind in H1 as (st3 & H1 & _).
  apply list_elem_of_fmap in H1 as (st3' & -> & H3).
  pose proof (rmatch_consuming (Plus (line_re 3)) st3 st3' eq_refl H3) as Hlt.
  apply (rmatch_groupless terminator_re) in H4; [|done].
  unfold same_caps in H4. simpl in H4.
  unfold group. simpl. rewrite H4. simpl.
  eexists. split; [done|]. apply take_nonempty; [lia|].
  destruct (ms_rest st3); [simpl in Hlt; lia | done].
Qed.

Lemma foldl_snoc_fmap {A B} (g : A → B) (l : list A) (acc : list B) :
  foldl (λ acc x, acc ++ [g x]) acc l = acc ++ (g <$> l).
Proof.
  revert acc. induction l as [|x l IH]; intros acc; simpl.
  - by rewrite app_nil_r.
  - rewrite IH. by rewrite <- app_assoc.
Qed.

Lemma get_packages_fmap (text : list N) :
  Cargo2Ports.get_packages text
  = (λ m, Cargo2Ports.parse_package_block (Cargo2Ports.groups_0 m))
      <$> finditer Cargo2Ports.block_re text.
Proof. apply (foldl_snoc_fmap _ _ []). Qed.

Lemma get_package_blocks_fmap (text : list N) :
  CargoV2.get_package_blocks text
  = CargoV2.groups_1 <$> finditer CargoV2.block_re text.
Proof. apply (foldl_snoc_fmap _ _ []). Qed.

(** No block that the extractor yields is empty. *)
Lemma blocks_nonempty (text : list N) :
  (∀ m, m ∈ finditer Cargo2Ports.block_re text → Cargo2Ports.groups_0 m ≠ [])
  ∧ (∀ b, b ∈ CargoV2.get_package_blocks text → b ≠ []).
Proof.
  split.
  - intros m (bol & s & Hm)%finditer_from_end.
    destruct (block_re_group_nonempty _ _ (m_pre m) (m_text m) Hm)
      as (b & Hb & Hne).
    unfold Cargo2Ports.groups_0. destruct m. simpl in *. by rewrite Hb.
  - intros b. rewrite get_package_blocks_fmap.
    intros (m & -> & (bol & s & Hm)%finditer_from_end)%list_elem_of_fmap.
    destruct (v2_block_re_group_nonempty _ _ (m_pre m) (m_text m) Hm)
      as (b & Hb & Hne).
    unfold CargoV2.groups_1. destruct m. simpl in *. by rewrite Hb.
Qed.

(** ** Matching the lines of a block *)

Lemma rmatch_Seq (r1 r2 : regex) (st : mstate) :
  rmatch (Seq r1 r2) st = rmatch r1 st ≫= rmatch r2.
Proof. done. Qed.

Lemma rmatch_Alt (r1 r2 : regex) (st : mstate) :
  rmatch (Alt r1 r2) st = rmatch r1 st ++ rmatch r2 st.
Proof. done. Qed.

Lemma rmatch_Star (r : regex) (st : mstate) :
  rmatch (Star r) st = star_loop (rmatch r) (S (length (ms_rest st))) st.
Proof. done. Qed.

Lemma rmatch_Plus (r : regex) (st : mstate) :
  rmatch (Plus r) st
  = rmatch r st ≫= λ st', star_loop (rmatch r) (S (length (ms_rest st'))) st'.
Proof. done. Qed.

Lemma rmatch_Grp (n : nat) (r : regex) (st : mstate) :
  rmatch (Grp n r) st = set_group n st <$> rmatch r st.
Proof. done. Qed.

Lemma rmatch_Str (l : list N) (st : mstate) :
  rmatch (Str l) st = match_str l st.
Proof. done. Qed.

Lemma star_loop_S (step : mstate → list mstate) (fuel : nat) (st : mstate) :
  star_loop step (S fuel) st
  = (st' ← step st;
     if (length (ms_rest st') <? length (ms_rest st))%nat
     then star_loop step fuel st' else [])
    ++ [st].
Proof. done. Qed.

Lemma star_loop_stuck (step : mstate → list mstate) (fuel : nat)
    (st : mstate) :
  step st = [] → star_loop step fuel st = [st].
Proof. intros H. destruct fuel; [done|]. by rewrite star_loop_S, H. Qed.

Lemma rmatch_cls_stuck (p : N → bool) (st : mstate) :
  (∀ c, head (ms_rest st) = Some c → p c = false) → rmatch (Cls p) st = [].
Proof.
  intros H. simpl. destruct (ms_rest st) as [|c rest]; [done|].
  by rewrite (H c).
Qed.

Lemma rmatch_cls_step (p : N → bool) (b : bool) (c : N) (s : list N)
    (caps : list (nat * list N)) :
  p c = true →
  rmatch (Cls p) (MState b (c :: s) caps) = [MState (c =? nl)%N s caps].
Proof. intros H. simpl. by rewrite H. Qed.

Lemma rmatch_ws_step (b : bool) (c : N) (s : list N)
    (caps : list (nat * list N)) :
  isspace c = true →
  rmatch ws (MState b (c :: s) caps) = [MState (c =? nl)%N s caps].
Proof. apply rmatch_cls_step. Qed.

Lemma rmatch_dot_step (b : bool) (c : N) (s : list N)
    (caps : list (nat * list N)) :
  c ≠ nl →
  rmatch dot (MState b (c :: s) caps) = [MState false s caps].
Proof.
  intros Hc. unfold dot. rewrite rmatch_cls_step.
  - by rewrite (proj2 (N.eqb_neq c nl) Hc).
  - by apply negb_true_iff, N.eqb_neq.
Qed.

Lemma rmatch_ws_stuck (st : mstate) :
  not_ws_start (ms_rest st) → rmatch ws st = [].
Proof. apply rmatch_cls_stuck. Qed.

Lemma rmatch_dot_stuck (st : mstate) :
  not_line_start (ms_rest st) → rmatch dot st = [].
Proof.
  intros H. apply rmatch_cls_stuck. intros c Hc. rewrite (H c Hc). done.
Qed.

Lemma rmatch_newline_step (b : bool) (s : list N)
    (caps : list (nat * list N)) :
  rmatch (Str [nl]) (MState b (nl :: s) caps) = [MState true s caps].
Proof. done. Qed.

Lemma rmatch_newline_stuck (st : mstate) :
  head (ms_rest st) ≠ Some nl → rmatch (Str [nl]) st = [].
Proof.
  intros H. rewrite rmatch_Str. cbn [match_str].
  destruct (ms_rest st) as [|c rest]; [done|].
  destruct (N.eqb_spec nl c) as [<-|_]; [by destruct H | done].
Qed.

(** [\s*] at a newline that is followed by the end of the text or by a
    character that is not whitespace: the newline is taken first. *)
Lemma star_ws_newline (b : bool) (s : list N) (caps : list (nat * list N)) :
  not_ws_start s →
  rmatch (Star ws) (MState b (nl :: s) caps)
  = [MState true s caps; MState b (nl :: s) caps].
Proof.
  intros Hs. rewrite rmatch_Star. cbn [ms_rest length]. rewrite star_loop_S.
  rewrite rmatch_ws_step by done. rewrite bind_singleton.
  cbn [ms_rest length].
  replace (length s <? S (length s))%nat with true
    by (symmetry; apply Nat.ltb_lt; lia).
  rewrite star_loop_stuck; [done|]. by apply rmatch_ws_stuck.
Qed.

(** [.+] followed by a newline, on a line and its newline. *)
Lemma star_dot_newline (l s : list N) (fuel : nat) (b : bool)
    (caps : list (nat * list N)) :
  nl ∉ l → (length l ≤ fuel)%nat →
  star_loop (rmatch dot) fuel (MState b (l ++ nl :: s) caps)
    ≫= rmatch (Str [nl])
  = [MState true s caps].
Proof.
  revert fuel b. induction l as [|c l IH]; intros fuel b Hnl Hfuel.
  - rewrite star_loop_stuck; [by rewrite bind_singleton|].
    apply rmatch_dot_stuck. simpl. by intros c [= <-].
  - destruct fuel as [|fuel]; [simpl in Hfuel; lia|].
    apply not_elem_of_cons in Hnl as [Hc Hnl].
    rewrite star_loop_S, <- app_comm_cons.
    rewrite rmatch_dot_step by done.
    rewrite bind_singleton. cbn [ms_rest length].
    replace (length (l ++ nl :: s) <? S (length (l ++ nl :: s)))%nat
      with true by (symmetry; apply Nat.ltb_lt; lia).
    rewrite bind_app, IH by (done || simpl in Hfuel; lia).
    rewrite bind_singleton, rmatch_newline_stuck; [done|].
    simpl. congruence.
Qed.

Lemma set_group_app (n : nat) (x s : list N) (b b' : bool)
    (caps caps' : list (nat * list N)) :
  set_group n (MState b (x ++ s) caps) (MState b' s caps')
  = MState b' s ((n, x) :: caps').
Proof.
  unfold set_group. cbn [ms_rest ms_bol ms_caps].
  rewrite length_app.
  replace (length x + length s - length s)%nat with (length x) by lia.
  by rewrite take_app_length.
Qed.

Lemma set_group_state (n : nat) (st : mstate) (b : bool) (s : list N)
    (caps : list (nat * list N)) :
  set_group n st (MState b s caps)
  = MState b s
      ((n, take (length (ms_rest st) - length s) (ms_rest st)) :: caps).
Proof. done. Qed.

Lemma line_re_match (n : nat) (l s : list N) (b : bool)
    (caps : list (nat * list N)) :
  l ≠ [] → nl ∉ l →
  rmatch (line_re n) (MState b (l ++ nl :: s) caps)
  = [MState true s ((n, l ++ [nl]) :: caps)].
Proof.
  intros Hne Hnl. destruct l as [|c l]; [done|].
  apply not_elem_of_cons in Hnl as [Hc Hnl].
  unfold line_re. rewrite rmatch_Grp, rmatch_Seq, rmatch_Plus.
  rewrite <- app_comm_cons. rewrite rmatch_dot_step by done.
  rewrite bind_singleton. cbn [ms_rest].
  rewrite star_dot_newline by (done || rewrite length_app; lia).
  rewrite list_fmap_singleton.
  replace (c :: l ++ nl :: s) with (((c :: l) ++ [nl]) ++ s)
    by (by rewrite <- app_assoc).
  by rewrite set_group_app.
Qed.

Lemma line_re_stuck (n : nat) (st : mstate) :
  not_line_start (ms_rest st) → rmatch (line_re n) st = [].
Proof.
  intros H. unfold line_re.
  rewrite rmatch_Grp, rmatch_Seq, rmatch_Plus, rmatch_dot_stuck by done.
  done.
Qed.

Lemma length_lines_text (ls : list (list N)) :
  (length ls ≤ length (lines_text ls))%nat.
Proof.
  induction ls as [|l ls IH]; [done|]. unfold lines_text in *.
  rewrite bind_cons, !length_app. simpl. lia.
Qed.

(** [(.+\n)*] on the lines of a block, followed by the end of the text or
    by an empty line: all the lines are taken first. *)
Lemma star_lines_match (n : nat) (ls : list (list N)) (tail : list N)
    (fuel : nat) (b : bool) (caps : list (nat * list N)) :
  Forall body_line ls → not_line_start tail → (length ls ≤ fuel)%nat →
  ∃ caps' others,
    star_loop (rmatch (line_re n)) fuel (MState b (lines_text ls ++ tail) caps)
    = MState (if ls is [] then b else true) tail caps' :: others.
Proof.
  intros Hls Htail. revert fuel b caps.
  induction Hls as [|l ls [Hne Hnl] _ IH]; intros fuel b caps Hfuel.
  - exists caps, []. simpl app. rewrite star_loop_stuck; [done|].
    by apply line_re_stuck.
  - destruct fuel as [|fuel]; [simpl in Hfuel; lia|].
    destruct (IH fuel true ((n, l ++ [nl]) :: caps)) as (caps' & others & Heq);
      [simpl in Hfuel; lia|].
    rewrite star_loop_S. unfold lines_text. rewrite bind_cons.
    rewrite <- !app_assoc. cbn [app].
    rewrite line_re_match by done.
    rewrite bind_singleton. cbn [ms_rest length].
    fold (lines_text ls).
    replace (length (lines_text ls ++ tail)
             <? length (l ++ nl :: lines_text ls ++ tail))%nat
      with true by (symmetry; apply Nat.ltb_lt; rewrite (length_app l);
                    simpl; lia).
    rewrite Heq. exists caps', (others ++ [MState b (l ++ nl :: lines_text ls ++ tail) caps]).
    destruct ls; done.
Qed.

Lemma plus_lines_match (n : nat) (l : list N) (ls : list (list N))
    (tail : list N) (b : bool) (caps : list (nat * list N)) :
  Forall body_line (l :: ls) → not_line_start tail →
  ∃ caps' others,
    rmatch (Plus (line_re n)) (MState b (lines_text (l :: ls) ++ tail) caps)
    = MState true tail caps' :: others.
Proof.
  intros [[Hne Hnl] Hls]%Forall_cons Htail.
  rewrite rmatch_Plus. unfold lines_text. rewrite bind_cons.
  rewrite <- !app_assoc. cbn [app]. rewrite line_re_match by done.
  rewrite bind_singleton. cbn [ms_rest]. fold (lines_text ls).
  destruct (star_lines_match n ls tail (S (length (lines_text ls ++ tail)))
              true ((n, l ++ [nl]) :: caps) Hls Htail)
    as (caps' & others & ->).
  { pose proof (length_lines_text ls). rewrite length_app. lia. }
  exists caps', others. by destruct ls.
Qed.

Lemma block_end_not_line_start (tail : list N) :
  block_end tail → not_line_start tail.
Proof.
  intros [->|(s & -> & _)] c; simpl; [done | by intros [= <-]].
Qed.

Lemma not_ws_not_newline (s : list N) :
  not_ws_start s → head s ≠ Some nl.
Proof. intros H Hnl. by specialize (H nl Hnl). Qed.

Lemma terminator_match (tail : list N) (caps : list (nat * list N)) :
  block_end tail →
  ∃ others,
    rmatch terminator_re (MState true tail caps)
    = MState true (drop 1 tail) caps :: others.
Proof.
  unfold terminator_re. rewrite rmatch_Alt, !rmatch_Seq.
  intros [->|(s & -> & Hs)].
  - exists []. done.
  - exists [MState true (nl :: s) caps].
    change (rmatch Bol (MState true (nl :: s) caps))
      with [MState true (nl :: s) caps].
    rewrite bind_singleton, rmatch_Seq, star_ws_newline by done.
    rewrite bind_cons, bind_singleton.
    rewrite (rmatch_newline_stuck (MState true s caps))
      by (by apply not_ws_not_newline).
    by rewrite rmatch_newline_step.
Qed.

Lemma list_bind_assoc {A B C} (f : A → list B) (g : B → list C) (l : list A) :
  (l ≫= f) ≫= g = l ≫= λ x, f x ≫= g.
Proof.
  induction l as [|x l IH]; [done|].
  by rewrite !bind_cons, bind_app, IH.
Qed.

Lemma rmatch_Seq_assoc (r1 r2 r3 r4 : regex) (st : mstate) :
  rmatch (Seq r1 (Seq r2 (Seq r3 r4))) st
  = rmatch (Seq (Seq r1 (Seq r2 r3)) r4) st.
Proof.
  rewrite !rmatch_Seq, list_bind_assoc. apply list_bind_ext; [|done].
  intros st1. rewrite !rmatch_Seq, list_bind_assoc.
  apply list_bind_ext; [|done]. intros st2. by rewrite rmatch_Seq.
Qed.

Lemma not_ws_start_app (s t : list N) :
  s ≠ [] → not_ws_start s → not_ws_start (s ++ t).
Proof. destruct s; [done|]. intros _ H c. simpl. apply H. Qed.

Lemma lines_text_nonempty (ls : list (list N)) :
  ls ≠ [] → lines_text ls ≠ [].
Proof.
  destruct ls as [|l ls]; [done|]. intros _. unfold lines_text.
  rewrite bind_cons. by destruct l.
Qed.

(** The header and the lines of a well-formed block. *)
Lemma header_lines_match (n k : nat) (ls : list (list N)) (tail : list N)
    (b : bool) (caps : list (nat * list N)) :
  wf_block ls → block_end tail →
  ∃ caps' others,
    rmatch (header_lines_re n k) (MState b (block_text ls ++ tail) caps)
    = MState true tail ((n, lines_text ls) :: caps') :: others.
Proof.
  intros (Hne & Hls & Hws) Htail. unfold header_lines_re, block_text.
  rewrite rmatch_Seq, rmatch_Str, <- app_assoc, match_str_app.
  rewrite bind_singleton, rmatch_Seq, <- app_comm_cons.
  rewrite star_ws_newline
    by (by apply not_ws_start_app; [apply lines_text_nonempty|]).
  rewrite bind_cons, rmatch_Grp.
  destruct ls as [|l ls]; [done|].
  destruct (plus_lines_match k l ls tail true caps Hls
              (block_end_not_line_start _ Htail)) as (caps' & others & ->).
  rewrite fmap_cons, set_group_app. by eexists _, _.
Qed.

Lemma block_text_take (ls : list (list N)) (tail : list N) :
  take (length (block_text ls ++ tail) - length (drop 1 tail))
    (block_text ls ++ tail) ≠ [].
Proof.
  assert (0 < length (block_text ls))%nat as Hlen.
  { unfold block_text. rewrite length_app. simpl. lia. }
  apply take_nonempty.
  - rewrite length_app, length_drop. lia.
  - intros H. apply (f_equal length) in H. rewrite length_app in H.
    simpl in H. lia.
Qed.

Lemma block_re_match (b : bool) (ls : list (list N)) (tail : list N) :
  wf_block ls → block_end tail →
  ∃ m,
    match_at Cargo2Ports.block_re b (block_text ls ++ tail) = Some m
    ∧ Cargo2Ports.groups_0 m = lines_text ls
    ∧ m_text m ≠ []
    ∧ ms_bol (m_end m) = true
    ∧ ms_rest (m_end m) = drop 1 tail.
Proof.
  intros Hwf Htail. unfold match_at, Cargo2Ports.block_re.
  rewrite rmatch_Seq_assoc, rmatch_Seq.
  destruct (header_lines_match 1 2 ls tail b [] Hwf Htail)
    as (caps' & others & Heq).
  unfold header_lines_re, line_re in Heq. rewrite Heq.
  rewrite bind_cons, rmatch_Grp.
  destruct (terminator_match tail ((1%nat, lines_text ls) :: caps') Htail)
    as (others' & Heq').
  unfold terminator_re in Heq'. rewrite Heq'. rewrite fmap_cons.
  cbn [app]. eexists. split; [done|].
  split; [done|]. split; [|done].
  cbn [m_text ms_rest set_group]. apply block_text_take.
Qed.

Lemma v2_block_re_match (b : bool) (ls : list (list N)) (tail : list N) :
  wf_block ls → block_end tail →
  ∃ m,
    match_at CargoV2.block_re b (block_text ls ++ tail) = Some m
    ∧ CargoV2.groups_1 m = lines_text ls
    ∧ m_text m ≠ []
    ∧ ms_bol (m_end m) = true
    ∧ ms_rest (m_end m) = drop 1 tail.
Proof.
  intros Hwf Htail. unfold match_at, CargoV2.block_re.
  rewrite rmatch_Seq, rmatch_Grp.
  destruct (header_lines_match 2 3 ls tail b [] Hwf Htail)
    as (caps' & others & Heq).
  unfold header_lines_re, line_re in Heq. rewrite Heq.
  rewrite fmap_cons, bind_cons, rmatch_Grp.
  rewrite (set_group_state 1).
  match goal with
  | |- context [rmatch _ (MState true tail ?caps)] =>
      destruct (terminator_match tail caps Htail) as (others' & Heq')
  end.
  unfold terminator_re in Heq'. rewrite Heq'. rewrite fmap_cons.
  cbn [app]. eexists. split; [done|].
  split; [done|]. split; [|done].
  cbn [m_text ms_rest set_group]. apply block_text_take.
Qed.

(** ** Finding the blocks of a well-formed lock file *)

Lemma rmatch_starts_with (c : N) (r : regex) (st : mstate) :
  starts_with c r = true → head (ms_rest st) ≠ Some c → rmatch r st = [].
Proof.
  revert st.
  induction r as [s| p | | |r1 IH1 r2 IH2|r1 IH1 r2 IH2|r IH|r IH|n r IH];
    intros st; cbn [starts_with]; try done.
  - destruct s as [|c' s]; [done|]. intros ->%N.eqb_eq Hhd.
    rewrite rmatch_Str. cbn [match_str].
    destruct (ms_rest st) as [|c' rest]; [done|].
    destruct (N.eqb_spec c c') as [<-|_]; [by destruct Hhd | done].
  - intros Hs Hhd. by rewrite rmatch_Seq, IH1.
  - intros [H1 H2]%andb_prop Hhd. by rewrite rmatch_Alt, IH1, IH2.
  - intros Hs Hhd. by rewrite rmatch_Plus, IH.
  - intros Hs Hhd. by rewrite rmatch_Grp, IH.
Qed.

Lemma match_at_starts_with (c : N) (r : regex) (b : bool) (s : list N) :
  starts_with c r = true → head s ≠ Some c → match_at r b s = None.
Proof.
  intros Hr Hs. unfold match_at. by rewrite (rmatch_starts_with c).
Qed.

Lemma search_from_hit (r : regex) (b : bool) (s : list N) (m : rematch) :
  match_at r b s = Some m → search_from r b s = Some m.
Proof. intros H. destruct s; simpl; by rewrite H. Qed.

Lemma search_from_miss (r : regex) (b : bool) (c : N) (s : list N) :
  match_at r b (c :: s) = None →
  search_from r b (c :: s) = skip c <$> search_from r (c =? nl)%N s.
Proof. intros H. simpl. by rewrite H. Qed.

Lemma finditer_from_S (fuel : nat) (r : regex) (b : bool) (s : list N) :
  finditer_from (S fuel) r b s
  = match search_from r b s with
    | None => []
    | Some m =>
        m :: match m_text m with
             | [] => []
             | _ :: _ =>
                 finditer_from fuel r (ms_bol (m_end m)) (ms_rest (m_end m))
             end
    end.
Proof. done. Qed.

(** Text without an opening bracket before the first match changes nothing
    but the text skipped before that match. *)
Lemma search_from_preamble (r : regex) (pre s : list N) (b : bool) :
  starts_with open_bracket r = true → open_bracket ∉ pre →
  ∃ b',
    search_from r b (pre ++ s)
    = (λ m, ReMatch (pre ++ m_pre m) (m_text m) (m_end m))
        <$> search_from r b' s.
Proof.
  intros Hr. revert b. induction pre as [|c pre IH]; intros b Hpre.
  - exists b. simpl. destruct (search_from r b s) as [[]|]; done.
  - apply not_elem_of_cons in Hpre as [Hc Hpre].
    destruct (IH (c =? nl)%N Hpre) as [b' Heq]. exists b'.
    rewrite <- app_comm_cons.
    rewrite search_from_miss
      by (apply (match_at_starts_with open_bracket); [done|];
          simpl; congruence).
    rewrite Heq. by destruct (search_from r b' s).
Qed.

Lemma finditer_from_preamble (r : regex) (pre s : list N) (b : bool)
    (fuel : nat) :
  starts_with open_bracket r = true → open_bracket ∉ pre →
  ∃ b',
    m_end <$> finditer_from fuel r b (pre ++ s)
    = m_end <$> finditer_from fuel r b' s.
Proof.
  intros Hr Hpre.
  destruct (search_from_preamble r pre s b Hr Hpre) as [b' Heq].
  exists b'. destruct fuel as [|fuel]; [done|].
  rewrite !finditer_from_S, Heq.
  destruct (search_from r b' s) as [m|]; [|done]. simpl.
  by destruct (m_text m).
Qed.

Lemma join_blocks_cons (ls : list (list N)) (bs : list (list (list N))) :
  join [nl] (block_text <$> (ls :: bs))
  = block_text ls
    ++ (if bs is [] then [] else nl :: join [nl] (block_text <$> bs)).
Proof. destruct bs; simpl; [by rewrite app_nil_r | done]. Qed.

Lemma join_blocks_end (bs : list (list (list N))) :
  block_end (if bs is [] then [] else nl :: join [nl] (block_text <$> bs)).
Proof.
  destruct bs as [|ls bs]; [by left|]. right. eexists. split; [done|].
  rewrite join_blocks_cons. intros c. simpl. by intros [= <-].
Qed.

Lemma join_blocks_drop (bs : list (list (list N))) :
  drop 1 (if bs is [] then [] else nl :: join [nl] (block_text <$> bs))
  = join [nl] (block_text <$> bs).
Proof. by destruct bs. Qed.

(** The matches that a scan for blocks finds in the blocks of a well-formed
    lock file, for a pattern that matches each block as [block_re] does. *)
Lemma finditer_blocks (r : regex) (grp : rematch → list N)
    (bs : list (list (list N))) :
  (∀ b, match_at r b [] = None) →
  (∀ b ls tail, wf_block ls → block_end tail →
     ∃ m, match_at r b (block_text ls ++ tail) = Some m
          ∧ grp m = lines_text ls
          ∧ m_text m ≠ []
          ∧ ms_bol (m_end m) = true
          ∧ ms_rest (m_end m) = drop 1 tail) →
  Forall wf_block bs →
  ∀ fuel b,
    (length bs < fuel)%nat →
    grp <$> finditer_from fuel r b (join [nl] (block_text <$> bs))
    = lines_text <$> bs.
Proof.
  intros Hnil Hblock. induction 1 as [|ls bs Hls _ IH]; intros fuel b Hfuel.
  - destruct fuel as [|fuel]; [done|].
    rewrite finditer_from_S. simpl. by rewrite Hnil.
  - destruct fuel as [|fuel]; [simpl in Hfuel; lia|].
    rewrite finditer_from_S, join_blocks_cons.
    destruct (Hblock b ls _ Hls (join_blocks_end bs))
      as (m & Hm & Hgrp & Htext & Hbol & Hrest).
    rewrite (search_from_hit _ _ _ _ Hm).
    destruct (m_text m) as [|? ?]; [done|].
    rewrite fmap_cons, Hgrp, Hbol, Hrest, join_blocks_drop.
    rewrite IH by (simpl in Hfuel; lia). done.
Qed.

Lemma length_join_blocks (bs : list (list (list N))) :
  (length bs ≤ length (join [nl] (block_text <$> bs)))%nat.
Proof.
  induction bs as [|ls bs IH]; [done|].
  rewrite join_blocks_cons, length_app. unfold block_text at 1.
  rewrite length_app. simpl length at 1 2.
  destruct bs; simpl in *; lia.
Qed.

Lemma block_re_at_end (b : bool) :
  match_at Cargo2Ports.block_re b [] = None
  ∧ match_at CargoV2.block_re b [] = None.
Proof. by destruct b. Qed.

(** The blocks that both scripts find in a well-formed lock file are the
    texts of its package tables, in order. *)
Lemma finditer_wf_lockfile (pre : list N) (bs : list (list (list N))) :
  wf_lockfile pre bs →
  Cargo2Ports.groups_0
    <$> finditer Cargo2Ports.block_re (lockfile_text pre bs)
  = lines_text <$> bs
  ∧ CargoV2.groups_1 <$> finditer CargoV2.block_re (lockfile_text pre bs)
    = lines_text <$> bs.
Proof.
  intros [Hpre Hbs]. unfold finditer, lockfile_text.
  set (fuel := S (length (pre ++ join [nl] (block_text <$> bs)))).
  assert (length bs < fuel)%nat as Hfuel.
  { unfold fuel. rewrite length_app. pose proof (length_join_blocks bs). lia. }
  split.
  - destruct (finditer_from_preamble Cargo2Ports.block_re pre
                (join [nl] (block_text <$> bs)) true fuel eq_refl Hpre)
      as [b' Heq].
    change (Cargo2Ports.groups_0 <$> ?l)
      with ((λ st, Cargo2Ports.groups_0 (ReMatch [] [] st)) ∘ m_end <$> l).
    rewrite (list_fmap_compose m_end), Heq, <- list_fmap_compose.
    apply (finditer_blocks Cargo2Ports.block_re
             (λ m, Cargo2Ports.groups_0 (ReMatch [] [] (m_end m))));
      [apply block_re_at_end | apply block_re_match | done | done].
  - destruct (finditer_from_preamble CargoV2.block_re pre
                (join [nl] (block_text <$> bs)) true fuel eq_refl Hpre)
      as [b' Heq].
    change (CargoV2.groups_1 <$> ?l)
      with ((λ st, CargoV2.groups_1 (ReMatch [] [] st)) ∘ m_end <$> l).
    rewrite (list_fmap_compose m_end), Heq, <- list_fmap_compose.
    apply (finditer_blocks CargoV2.block_re
             (λ m, CargoV2.groups_1 (ReMatch [] [] (m_end m))));
      [apply block_re_at_end | apply v2_block_re_match | done | done].
Qed.

(** ** The fuel of the loops is enough *)

(** A repetition never needs more iterations than there are characters
    left: more fuel changes nothing. *)
Lemma star_loop_fuel (step : mstate → list mstate) (n m : nat) (st : mstate) :
  (length (ms_rest st) < n)%nat → (length (ms_rest st) < m)%nat →
  star_loop step n st = star_loop step m st.
Proof.
  revert m st. induction n as [|n IH]; intros m st Hn Hm; [lia|].
  destruct m as [|m]; [lia|]. rewrite !star_loop_S. f_equal.
  apply list_bind_ext; [|done]. intros st'.
  destruct (Nat.ltb_spec (length (ms_rest st')) (length (ms_rest st)));
    [|done].
  apply IH; lia.
Qed.

Lemma match_at_progress (r : regex) (b : bool) (s : list N) (m : rematch) :
  match_at r b s = Some m → m_text m ≠ [] →
  (length (ms_rest (m_end m)) < length s)%nat.
Proof.
  unfold match_at. destruct (rmatch r (MState b s [])) as [|st' ?]; [done|].
  intros [= <-]. cbn [m_text m_end]. intros Htext.
  destruct (decide (length (ms_rest st') < length s)%nat); [done|].
  destruct Htext.
  replace (length s - length (ms_rest st'))%nat with 0%nat by lia. done.
Qed.

Lemma search_from_progress (r : regex) (b : bool) (s : list N) (m : rematch) :
  search_from r b s = Some m → m_text m ≠ [] →
  (length (ms_rest (m_end m)) < length s)%nat.
Proof.
  revert b m. induction s as [|c s IH]; intros b m; simpl.
  - destruct (match_at r b []) eqn:Hat; [|done].
    intros [= <-] Htext. by apply (match_at_progress _ _ _ _ Hat).
  - destruct (match_at r b (c :: s)) eqn:Hat.
    + intros [= <-] Htext. by apply (match_at_progress _ _ _ _ Hat).
    + destruct (search_from r (c =? nl)%N s) as [m'|] eqn:Hs; [|done].
      intros [= <-] Htext. specialize (IH _ _ Hs Htext). simpl in *. lia.
Qed.

(** A scan never finds more matches than there are characters: more fuel
    changes nothing. *)
Lemma finditer_from_fuel (r : regex) (n m : nat) (b : bool) (s : list N) :
  (length s < n)%nat → (length s < m)%nat →
  finditer_from n r b s = finditer_from m r b s.
Proof.
  revert m b s. induction n as [|n IH]; intros m b s Hn Hm; [lia|].
  destruct m as [|m]; [lia|]. rewrite !finditer_from_S.
  destruct (search_from r b s) as [mt|] eqn:Hs; [|done]. f_equal.
  pose proof (search_from_progress r b s mt Hs) as Hlt.
  destruct (m_text mt) as [|c t]; [done|].
  apply IH; specialize (Hlt ltac:(done)); lia.
Qed.

(** ** The patterns of the program never match the empty string *)

(** The patterns given to [re.search], [re.finditer] and [re.split], and
    the sub-patterns under a repetition, all consume text. *)
Lemma program_patterns_consuming :
  Forall (λ r, consuming r = true)
    [Cargo2Ports.block_re; CargoV2.block_re; Cargo2Ports.metadata_re;
     Cargo2Ports.v1_re; Cargo2Ports.token_sep_re;
     ws; dot; line_re 2; line_re 3; section_item_re].
Proof. repeat constructor. Qed.

(** Under a repetition of a consuming pattern the test that an iteration
    consumed text always succeeds. *)
Lemma star_loop_consuming (r : regex) (fuel : nat) (st : mstate) :
  consuming r = true →
  star_loop (rmatch r) (S fuel) st
  = (rmatch r st ≫= star_loop (rmatch r) fuel) ++ [st].
Proof.
  intros Hr. rewrite star_loop_S. f_equal.
  apply Forall_bind_ext. apply Forall_forall. intros st' Hst'.
  apply (rmatch_consuming r st st' Hr) in Hst'.
  by destruct (Nat.ltb_spec (length (ms_rest st')) (length (ms_rest st)));
    [|lia].
Qed.

Lemma match_at_consuming (r : regex) (b : bool) (s : list N) (m : rematch) :
  consuming r = true → match_at r b s = Some m → m_text m ≠ [].
Proof.
  intros Hr. unfold match_at.
  destruct (rmatch r (MState b s [])) as [|st' sts] eqn:Hm; [done|].
  intros [= <-]. cbn [m_text].
  assert (st' ∈ rmatch r (MState b s [])) as Hin by (rewrite Hm; left).
  apply (rmatch_consuming r _ _ Hr) in Hin. cbn [ms_rest] in Hin.
  apply take_nonempty; [lia|]. destruct s; [simpl in Hin; lia | done].
Qed.

Lemma search_from_consuming (r : regex) (b : bool) (s : list N)
    (m : rematch) :
  consuming r = true → search_from r b s = Some m → m_text m ≠ [].
Proof.
  intros Hr. revert b m. induction s as [|c s IH]; intros b m; simpl.
  - destruct (match_at r b []) eqn:Hat; [|done].
    intros [= <-]. by apply (match_at_consuming r b []).
  - destruct (match_at r b (c :: s)) eqn:Hat.
    + intros [= <-]. by apply (match_at_consuming r b (c :: s)).
    + destruct (search_from r (c =? nl)%N s) as [m'|] eqn:Hs; [|done].
      intros [= <-]. simpl. by apply (IH _ _ Hs).
Qed.

(** So a scan with a consuming pattern goes on after every match. *)
Lemma finditer_from_consuming (r : regex) (fuel : nat) (b : bool)
    (s : list N) :
  consuming r = true →
  finditer_from (S fuel) r b s
  = match search_from r b s with
    | None => []
    | Some m => m :: finditer_from fuel r (ms_bol (m_end m)) (ms_rest (m_end m))
    end.
Proof.
  intros Hr. rewrite finditer_from_S.
  destruct (search_from r b s) as [m|] eqn:Hs; [|done].
  apply (search_from_consuming r b s m Hr) in Hs.
  by destruct (m_text m).
Qed.

(** ** The lines of the stanza *)

Lemma split_no_sep (sep : N) (s : list N) :
  Forall (λ piece, sep ∉ piece) (split sep s).
Proof.
  induction s as [|c s IH]; simpl.
  - repeat constructor. by intros ?%elem_of_nil.
  - destruct (N.eqb_spec c sep) as [->|Hc].
    + constructor; [by intros ?%elem_of_nil | done].
    + destruct (split sep s) as [|piece pieces].
      * repeat constructor. by intros [?|?%elem_of_nil]%elem_of_cons.
      * apply Forall_cons in IH as [Hp Hps]. constructor; [|done].
        by intros [?|?]%elem_of_cons.
Qed.

Lemma split_piece (sep : N) (p s : list N) :
  sep ∉ p → split sep (p ++ sep :: s) = p :: split sep s.
Proof.
  induction p as [|c p IH]; intros Hp; simpl.
  - by rewrite N.eqb_refl.
  - apply not_elem_of_cons in Hp as [Hc Hp].
    destruct (N.eqb_spec c sep) as [?|_]; [done|]. by rewrite IH.
Qed.

Lemma split_last (sep : N) (p : list N) :
  sep ∉ p → split sep p = [p].
Proof.
  induction p as [|c p IH]; intros Hp; simpl; [done|].
  apply not_elem_of_cons in Hp as [Hc Hp].
  destruct (N.eqb_spec c sep) as [?|_]; [done|]. by rewrite IH.
Qed.

(** Joining with newlines pieces that have none, and splitting again. *)
Lemma split_join (ps : list (list N)) :
  ps ≠ [] → Forall (λ p, nl ∉ p) ps → split nl (join [nl] ps) = ps.
Proof.
  intros Hne Hps. induction Hps as [|p ps Hp Hps IH]; [done|].
  destruct ps as [|q ps].
  - simpl. by apply split_last.
  - change (join [nl] (p :: q :: ps)) with (p ++ nl :: join [nl] (q :: ps)).
    rewrite split_piece by done. by rewrite IH.
Qed.

Lemma lstrip_subseteq (p : N → bool) (s : list N) : lstrip p s ⊆ s.
Proof.
  induction s as [|c s IH]; simpl; [done|].
  destruct (p c); [|done]. by apply list_subseteq_cons.
Qed.

Lemma elem_of_rev (x : N) (l : list N) : x ∈ rev l ↔ x ∈ l.
Proof. rewrite !list_elem_of_In. symmetry. apply in_rev. Qed.

Lemma strip_subseteq (p : N → bool) (s : list N) : strip p s ⊆ s.
Proof.
  unfold strip, rstrip. intros x. rewrite elem_of_rev.
  intros Hx%lstrip_subseteq. rewrite elem_of_rev in Hx.
  by apply lstrip_subseteq in Hx.
Qed.

Lemma strip_string_subseteq (s : list N) : strip_string s ⊆ s.
Proof.
  unfold strip_string. etrans; apply strip_subseteq.
Qed.

Lemma split1_subseteq (sep : N) (s : list N) :
  (split1 sep s).1 ⊆ s ∧ (split1 sep s).2 ⊆ s.
Proof.
  induction s as [|c s [IHk IHv]]; simpl; [done|].
  destruct (c =? sep)%N; simpl.
  - split; [by intros ? ?%elem_of_nil | by apply list_subseteq_cons].
  - destruct (split1 sep s) as [k v]. simpl in *. split.
    + intros x [->|?]%elem_of_cons; [left | right; by apply IHk].
    + by apply list_subseteq_cons.
Qed.

(** No value of a parsed record contains a newline. *)
Lemma parse_package_block_no_newline (text key value : list N) :
  Cargo2Ports.parse_package_block text !! key = Some value → nl ∉ value.
Proof.
  unfold Cargo2Ports.parse_package_block.
  pose proof (split_no_sep nl text) as Hlines.
  assert (map_Forall (λ _ v, nl ∉ v) (∅ : gmap (list N) (list N))) as Hinv
    by apply map_Forall_empty.
  revert Hinv. generalize (∅ : gmap (list N) (list N)).
  induction Hlines as [|line lines Hline _ IH]; intros parsed Hinv; simpl.
  - intros H. by apply (Hinv key).
  - apply IH. destruct (contains equals line); [|done].
    destruct (split1_subseteq equals line) as [_ Hv].
    destruct (split1 equals line) as [k v]. simpl in Hv.
    apply map_Forall_insert_2; [|done].
    intros Hnl%strip_string_subseteq%Hv. done.
Qed.

Lemma spaces_no_newline (n : Z) : nl ∉ spaces n.
Proof. unfold spaces. by intros [[=] _]%elem_of_replicate. Qed.

Lemma get_crate_line_no_newline (cfg : config)
    (pkg : gmap (list N) (list N)) (l : list N) :
  (∀ key value, pkg !! key = Some value → nl ∉ value) →
  get_crate_line cfg pkg = Ok l → nl ∉ l.
Proof.
  intros Hpkg. unfold get_crate_line, getitem.
  destruct (pkg !! lit "name") as [name|] eqn:Hn; [|done].
  destruct (pkg !! lit "version") as [ver|] eqn:Hv; [|done].
  destruct (pkg !! lit "checksum") as [ck|] eqn:Hc; [|done].
  assert (∀ a b c,
            nl ∉ spaces a ++ name ++ spaces b ++ ver ++ spaces c ++ ck)
    as Hall.
  { intros a b c. rewrite !elem_of_app.
    pose proof (spaces_no_newline a). pose proof (spaces_no_newline b).
    pose proof (spaces_no_newline c).
    pose proof (Hpkg _ _ Hn). pose proof (Hpkg _ _ Hv).
    pose proof (Hpkg _ _ Hc). tauto. }
  cbn [Py.bind]. destruct (_ <=? 0); cbv beta iota; intros [= <-].
  - exact (Hall _ 1 (STANZA_SPACER_WIDTH - 1)).
  - exact (Hall _ _ STANZA_SPACER_WIDTH).
Qed.

Lemma continuation_no_newline : (nl ∉ continuation) ∧ (nl ∉ declaration).
Proof.
  split; apply (bool_decide_unpack _); vm_compute; exact I.
Qed.

Lemma rendered_as_no_newline (cfg : config)
    (pkg : gmap (list N) (list N)) (line : list N) :
  (∀ key value, pkg !! key = Some value → nl ∉ value) →
  rendered_as cfg pkg line → nl ∉ line.
Proof.
  intros Hpkg (l & Hl & Hline).
  pose proof (get_crate_line_no_newline cfg pkg l Hpkg Hl) as Hnl.
  destruct Hline as [->| ->]; [done|].
  rewrite elem_of_app. intros [?|Hc]; [done|].
  by apply (proj1 continuation_no_newline) in Hc.
Qed.

(** ** The two parsers *)

Lemma parse_package_block_foldl (text : list N) :
  Cargo2Ports.parse_package_block text = foldl parse_step ∅ (split nl text).
Proof. done. Qed.

(** Once a line with an equals sign has been seen, the loop of
    cargoV2forports.py computes what the loop of cargo2ports.py does: storing
    the latest pair again changes nothing. *)
Lemma v2_parse_loop_seen (lines : list (list N)) (k v : list N)
    (parsed : gmap (list N) (list N)) :
  parsed !! strip_string k = Some (strip_string v) →
  CargoV2.parse_loop lines (Some (k, v)) parsed
  = Ok (foldl parse_step parsed lines).
Proof.
  revert k v parsed. induction lines as [|line lines IH];
    intros k v parsed Hkv; [done|].
  cbn [CargoV2.parse_loop foldl]. unfold parse_step at 2.
  destruct (contains equals line).
  - destruct (split1 equals line) as [k' v'].
    apply IH, lookup_insert_eq.
  - rewrite (insert_id parsed _ _ Hkv). by apply IH.
Qed.

Lemma v2_parse_package_block_ok (text first : list N)
    (rest : list (list N)) :
  split nl text = first :: rest →
  contains equals first = true →
  CargoV2.parse_package_block text
  = Ok (Cargo2Ports.parse_package_block text).
Proof.
  intros Hsplit Hfirst.
  unfold CargoV2.parse_package_block. rewrite parse_package_block_foldl.
  rewrite Hsplit. cbn [CargoV2.parse_loop foldl]. unfold parse_step at 2.
  rewrite Hfirst. destruct (split1 equals first) as [k v].
  apply v2_parse_loop_seen, lookup_insert_eq.
Qed.

Lemma v2_parse_lines_text (ls : list (list N)) :
  Forall body_line ls → starts_with_pair ls →
  CargoV2.parse_package_block (lines_text ls)
  = Ok (Cargo2Ports.parse_package_block (lines_text ls)).
Proof.
  intros Hls (l & ls' & -> & Hl).
  apply Forall_cons in Hls as [[_ Hnl] _].
  apply (v2_parse_package_block_ok _ l (split nl (lines_text ls'))); [|done].
  unfold lines_text. rewrite bind_cons, <- app_assoc. cbn [app].
  by apply split_piece.
Qed.

(** ** Well-formed lock files *)

Lemma length_filter_split {A} (P : A → Prop) `{∀ x, Decision (P x)}
    (l : list A) :
  (length (filter P l) + length (filter (λ x, ¬ P x) l) = length l)%nat.
Proof.
  induction l as [|x l IH]; [done|].
  destruct (decide (P x)).
  - rewrite filter_cons_True, filter_cons_False by tauto. simpl. lia.
  - rewrite filter_cons_False, filter_cons_True by tauto. simpl. lia.
Qed.

Lemma get_packages_wf_lockfile (pre : list N) (bs : list (list (list N))) :
  wf_lockfile pre bs →
  Cargo2Ports.get_packages (lockfile_text pre bs) = block_record <$> bs
  ∧ CargoV2.get_package_blocks (lockfile_text pre bs) = lines_text <$> bs.
Proof.
  intros [H1 H2]%finditer_wf_lockfile. split.
  - rewrite get_packages_fmap.
    change (?f <$> finditer Cargo2Ports.block_re ?t)
      with (Cargo2Ports.parse_package_block ∘ Cargo2Ports.groups_0
            <$> finditer Cargo2Ports.block_re t).
    by rewrite list_fmap_compose, H1, <- list_fmap_compose.
  - by rewrite get_package_blocks_fmap.
Qed.

(** C3: a well-formed current-format lock file is a preamble without an
    opening bracket followed by package tables separated by one empty line,
    each a header line and one or more non-empty lines, the first of which
    does not start with whitespace; its tables parse to records that have a
    name and a version when they have a checksum.  With [n] tables that
    have a checksum and [m] that have none, the extraction yields the
    [n + m] records in document order, and the stanza is the declaration
    line followed by exactly [n] lines, the lines of the records with a
    checksum in document order.  cargoV2forports.py yields the same stanza
    when every table starts with a key/value line. *)
Theorem C3_well_formed_lockfile_stanza (cfg : config) (preamble : list N)
    (blocks : list (list (list N))) (n m : nat) :
  wf_lockfile preamble blocks →
  let text := lockfile_text preamble blocks in
  let records := block_record <$> blocks in
  Forall complete records →
  length (filter renderable records) = n →
  length (filter (λ pkg, ¬ renderable pkg) records) = m →
  Cargo2Ports.get_packages text = records
  ∧ length records = (n + m)%nat
  ∧ ∃ lines,
      Cargo2Ports.generate_crates_stanza cfg (Cargo2Ports.get_packages text)
      = Ok (join [nl] (declaration :: lines))
      ∧ split nl (join [nl] (declaration :: lines)) = declaration :: lines
      ∧ length lines = n
      ∧ Forall2 (rendered_as cfg) (filter renderable records) lines
      ∧ (Forall starts_with_pair blocks →
         CargoV2.get_package_blocks text = lines_text <$> blocks
         ∧ CargoV2.generate_crates_stanza cfg
             (CargoV2.get_package_blocks text)
           = Ok (join [nl] (declaration :: lines))).
Proof.
  intros Hwf text records Hall Hn Hm.
  destruct (get_packages_wf_lockfile preamble blocks Hwf) as [Hpk Hbl].
  fold text in Hpk, Hbl. fold records in Hpk.
  split; [done|]. split.
  { rewrite <- Hn, <- Hm. symmetry. apply length_filter_split. }
  destruct (generate_complete cfg records Hall) as (lines & Hgen & Hlines).
  exists lines. rewrite Hpk. split; [done|]. split; [|split; [|split; [done|]]].
  - apply split_join; [done|]. constructor.
    + apply continuation_no_newline.
    + eapply Forall2_Forall_r; [exact Hlines|].
      apply Forall_forall. intros pkg [_ Hin]%list_elem_of_filter line Hr.
      apply (rendered_as_no_newline cfg pkg); [|done].
      apply list_elem_of_fmap in Hin as (ls & -> & _).
      intros key value. apply parse_package_block_no_newline.
  - rewrite <- Hn. symmetry. by eapply Forall2_length.
  - intros Hpairs. split; [done|]. rewrite Hbl, <- Hgen.
    apply v2_generate_parsed. unfold records.
    apply Forall2_fmap, Forall_Forall2_diag.
    destruct Hwf as [_ Hwf].
    rewrite Forall_forall in Hwf, Hpairs. apply Forall_forall.
    intros ls Hin. destruct (Hwf ls Hin) as (_ & Hls & _).
    by apply v2_parse_lines_text, Hpairs.
Qed.

(** ** A header without lines *)

Lemma bind_nil_all {A B} (f : A → list B) (l : list A) :
  (∀ x, x ∈ l → f x = []) → l ≫= f = [].
Proof.
  induction l as [|x l IH]; intros H; [done|].
  rewrite bind_cons, H, IH; [done| |left]. intros y Hy. apply H. by right.
Qed.

Lemma suffix_newlines (s : list N) (n : nat) :
  s `suffix_of` replicate n nl → not_line_start s.
Proof.
  intros [pre Heq] c Hc. destruct s as [|c' s]; [done|].
  injection Hc as ->.
  assert (c ∈ replicate n nl) as Hin.
  { rewrite Heq. apply elem_of_app. right. left. }
  by apply elem_of_replicate in Hin as [-> _].
Qed.

(** After the header, empty lines up to the end of the text give the
    pattern no line to match. *)
Lemma header_lines_stuck (n k : nat) (b : bool) (w : nat)
    (caps : list (nat * list N)) :
  rmatch (header_lines_re n k)
    (MState b (lit "[[package]]" ++ replicate w nl) caps) = [].
Proof.
  unfold header_lines_re.
  rewrite rmatch_Seq, rmatch_Str, match_str_app, bind_singleton, rmatch_Seq.
  apply bind_nil_all. intros st Hst%rmatch_suffix.
  rewrite rmatch_Grp, rmatch_Plus, line_re_stuck; [done|].
  by apply (suffix_newlines _ w).
Qed.

Lemma search_from_header_only (r : regex) (b : bool) (w : nat) :
  starts_with open_bracket r = true →
  (∀ b', match_at r b' [] = None) →
  (∀ b', match_at r b' (lit "[[package]]" ++ replicate w nl) = None) →
  (∀ b', match_at r b'
           (open_bracket :: lit "package]]" ++ replicate w nl) = None) →
  search_from r b (lit "[[package]]" ++ replicate w nl) = None.
Proof.
  intros Hr Hnil H0 H1.
  change (lit "[[package]]")
    with (open_bracket :: open_bracket :: lit "package]]") in *.
  rewrite <- !app_comm_cons in *.
  rewrite search_from_miss by apply H0.
  rewrite search_from_miss by apply H1.
  destruct (search_from_preamble r (lit "package]]" ++ replicate w nl) []
              (open_bracket =? nl)%N Hr) as [b' Heq].
  { assert (open_bracket ∉ lit "package]]") as Hlit
      by (apply (bool_decide_unpack _); vm_compute; exact I).
    rewrite elem_of_app. by intros [Hin|Hin%elem_of_replicate_inv]. }
  rewrite app_nil_r in Heq. rewrite Heq. simpl. by rewrite Hnil.
Qed.

Lemma finditer_header_only (w : nat) :
  finditer Cargo2Ports.block_re (lit "[[package]]" ++ replicate w nl) = []
  ∧ finditer CargoV2.block_re (lit "[[package]]" ++ replicate w nl) = [].
Proof.
  unfold finditer. rewrite !finditer_from_S. split.
  - rewrite search_from_header_only; [done|done|..].
    + intros b'. apply block_re_at_end.
    + intros b'. unfold match_at, Cargo2Ports.block_re.
      rewrite rmatch_Seq_assoc, rmatch_Seq.
      by rewrite (header_lines_stuck 1 2).
    + intros b'. vm_compute. reflexivity.
  - rewrite search_from_header_only; [done|done|..].
    + intros b'. apply block_re_at_end.
    + intros b'. unfold match_at, CargoV2.block_re.
      rewrite rmatch_Seq, rmatch_Grp.
      by rewrite (header_lines_stuck 2 3).
    + intros b'. vm_compute. reflexivity.
Qed.

(** C8 (as stated, refuted): for the text made of a package header and its
    newline, neither script yields a block, empty or not; the driver of
    cargo2ports.py then stops with the diagnostic and status 1. *)
Lemma C8_counterexample :
  finditer Cargo2Ports.block_re header = []
  ∧ Cargo2Ports.get_packages header = []
  ∧ CargoV2.get_package_blocks header = []
  ∧ run (Cargo2Ports.main 4 38 header)
    = Outcome [] (no_packages_message ++ [nl]) 1.
Proof. vm_compute. repeat split. Qed.

(** C8 (amended): the extractor never yields an empty block, and a header
    followed only by newlines up to the end of the text yields no block at
    all, in both scripts.  In cargo2ports.py an empty block text parses to
    the empty record, and the renderer skips that record without an
    error. *)
Theorem C8_no_empty_block (cfg : config) (text : list N) (w : nat) :
  (∀ m, m ∈ finditer Cargo2Ports.block_re text →
        Cargo2Ports.groups_0 m ≠ [])
  ∧ (∀ b, b ∈ CargoV2.get_package_blocks text → b ≠ [])
  ∧ Cargo2Ports.get_packages (lit "[[package]]" ++ replicate w nl) = []
  ∧ CargoV2.get_package_blocks (lit "[[package]]" ++ replicate w nl) = []
  ∧ Cargo2Ports.parse_package_block [] = ∅
  ∧ Cargo2Ports.generate_crates_stanza cfg [∅] = Ok declaration.
Proof.
  destruct (blocks_nonempty text) as [H1 H2].
  destruct (finditer_header_only w) as [H3 H4].
  split; [done|]. split; [done|]. split; [|split; [|done]].
  - by rewrite get_packages_fmap, H3.
  - by rewrite get_package_blocks_fmap, H4.
Qed.

(** C8 at the first block of the lock file with the packages foo and bar. *)
Lemma C8_no_empty_block_witness :
  foo_body ∈ CargoV2.get_package_blocks foo_bar_lock ∧ foo_body ≠ [].
Proof.
  assert (foo_body ∈ CargoV2.get_package_blocks foo_bar_lock) as Hin.
  { replace (CargoV2.get_package_blocks foo_bar_lock)
      with [foo_body; bar_body] by (vm_compute; reflexivity).
    left. }
  split; [exact Hin|].
  exact (proj1 (proj2 (C8_no_empty_block default_config foo_bar_lock 0))
           foo_body Hin).
Defined.

(** C3 at the lock file with the preamble that Cargo writes and the packages
    foo (with a checksum) and bar (without one). *)
Lemma C3_well_formed_lockfile_stanza_witness :
  let blocks := [foo_lines; bar_lines] in
  let records := block_record <$> blocks in
  wf_lockfile cargo_preamble blocks
  ∧ Forall complete records
  ∧ length (filter renderable records) = 1%nat
  ∧ length (filter (λ pkg, ¬ renderable pkg) records) = 1%nat
  ∧ lockfile_text cargo_preamble blocks = cargo_preamble ++ foo_bar_lock
  ∧ ∃ lines,
      Cargo2Ports.generate_crates_stanza default_config
        (Cargo2Ports.get_packages (lockfile_text cargo_preamble blocks))
      = Ok (join [nl] (declaration :: lines))
      ∧ length lines = 1%nat.
Proof.
  intros blocks records.
  assert (records = [foo_record; bar_record]) as Hrec
    by (vm_compute; reflexivity).
  assert (wf_lockfile cargo_preamble blocks) as Hwf.
  { split; [apply (bool_decide_unpack _); vm_compute; exact I|].
    repeat apply Forall_cons_2; try apply Forall_nil_2;
      (split; [done|]; split;
       [repeat apply Forall_cons_2; try apply Forall_nil_2;
        (split; [done | apply (bool_decide_unpack _); vm_compute; exact I])
       |by intros c [= <-]]). }
  assert (Forall complete records) as Hall.
  { rewrite Hrec.
    apply Forall_cons_2; [|apply Forall_cons_2; [|apply Forall_nil_2]];
      intros _; split; vm_compute; eauto. }
  assert (length (filter renderable records) = 1%nat) as Hn
    by (rewrite Hrec; vm_compute; reflexivity).
  assert (length (filter (λ pkg, ¬ renderable pkg) records) = 1%nat) as Hm
    by (rewrite Hrec; vm_compute; reflexivity).
  split; [exact Hwf|]. split; [exact Hall|]. split; [exact Hn|].
  split; [exact Hm|]. split; [vm_compute; reflexivity|].
  destruct (C3_well_formed_lockfile_stanza default_config cargo_preamble
              blocks 1 1 Hwf Hall Hn Hm)
    as (_ & _ & lines & Hgen & _ & Hlen & _).
  exists lines. split; [exact Hgen | exact Hlen].
Defined.

(** ** The section of a well-formed legacy lock file *)

Lemma bol_after_snoc (b : bool) (s : list N) (c : N) :
  bol_after b (s ++ [c]) = (c =? nl)%N.
Proof. unfold bol_after. by rewrite last_snoc. Qed.

Lemma bol_after_cons (b : bool) (c : N) (s : list N) :
  bol_after b (c :: s) = bol_after (c =? nl)%N s.
Proof.
  unfold bol_after. destruct s as [|d s]; [done|].
  rewrite last_cons_cons.
  by destruct (proj2 (last_is_Some (d :: s))) as [x ->].
Qed.

(** Greedy repetition of a character class takes the whole run first. *)
Lemma star_cls_head (p : N → bool) (w t : list N) (fuel : nat) (b : bool)
    (caps : list (nat * list N)) :
  forallb p w = true →
  (∀ c, head t = Some c → p c = false) →
  (length w ≤ fuel)%nat →
  ∃ others,
    star_loop (rmatch (Cls p)) fuel (MState b (w ++ t) caps)
    = MState (bol_after b w) t caps :: others.
Proof.
  intros Hw Ht. revert fuel b.
  induction w as [|c w IH]; intros fuel b Hfuel.
  - exists []. rewrite star_loop_stuck; [done|]. by apply rmatch_cls_stuck.
  - destruct fuel as [|fuel]; [simpl in Hfuel; lia|].
    apply andb_prop in Hw as [Hc Hw].
    destruct (IH Hw fuel (c =? nl)%N) as [others Heq];
      [simpl in Hfuel; lia|].
    rewrite star_loop_S, <- app_comm_cons, rmatch_cls_step by done.
    rewrite bind_singleton. cbn [ms_rest length].
    replace (length (w ++ t) <? S (length (w ++ t)))%nat with true
      by (symmetry; apply Nat.ltb_lt; lia).
    rewrite Heq, bol_after_cons. by eexists.
Qed.

Lemma star_ws_head (w t : list N) (b : bool) (caps : list (nat * list N)) :
  forallb isspace w = true → not_ws_start t →
  ∃ others,
    rmatch (Star ws) (MState b (w ++ t) caps)
    = MState (bol_after b w) t caps :: others.
Proof.
  intros Hw Ht. rewrite rmatch_Star. apply star_cls_head; [done|done|].
  cbn [ms_rest]. rewrite length_app. lia.
Qed.

Lemma star_dot_head (l t : list N) (b : bool) (caps : list (nat * list N)) :
  nl ∉ l →
  ∃ others,
    rmatch (Star dot) (MState b (l ++ nl :: t) caps)
    = MState (bol_after b l) (nl :: t) caps :: others.
Proof.
  intros Hl. rewrite rmatch_Star. apply star_cls_head.
  - apply forallb_forall. intros c Hc%list_elem_of_In.
    apply negb_true_iff, N.eqb_neq. by intros ->.
  - intros c [= <-]. done.
  - cbn [ms_rest]. rewrite length_app. lia.
Qed.

(** The key, whitespace and the rest of the line. *)
Lemma checksum_line_match (e : entry) (t : list N) (b : bool)
    (caps : list (nat * list N)) :
  wf_entry e →
  ∃ b' others,
    rmatch checksum_line_re (MState b (entry_line e ++ nl :: t) caps)
    = MState b' (nl :: t) ((3%nat, entry_line e) :: caps) :: others.
Proof.
  intros (Hw & Hwnl & Hne & Hbody & Hbnl).
  unfold checksum_line_re, entry_line.
  rewrite rmatch_Grp, rmatch_Seq, rmatch_Str, <- !app_assoc, match_str_app.
  rewrite bind_singleton, rmatch_Seq. fold (bol_after b checksum_key).
  destruct (star_ws_head (e_space e) (e_body e ++ nl :: t)
              (bol_after b checksum_key) caps Hw) as [o1 ->].
  { by apply not_ws_start_app. }
  rewrite bind_cons.
  destruct (star_dot_head (e_body e) t
              (bol_after (bol_after b checksum_key) (e_space e)) caps Hbnl)
    as [o2 ->].
  cbn [app]. rewrite fmap_cons.
  replace (checksum_key ++ e_space e ++ e_body e ++ nl :: t)
    with ((checksum_key ++ e_space e ++ e_body e) ++ nl :: t)
    by (by rewrite <- !app_assoc).
  rewrite set_group_app. by eexists _, _.
Qed.

(** [\s*\n] on a run of newlines that is followed by the end of the text or
    by a character that is not whitespace takes the whole run. *)
Lemma newline_run_match (k : nat) (t : list N) (fuel : nat) (b : bool)
    (caps : list (nat * list N)) :
  not_ws_start t → (S k ≤ fuel)%nat →
  ∃ others,
    star_loop (rmatch ws) fuel (MState b (replicate (S k) nl ++ t) caps)
      ≫= rmatch (Str [nl])
    = MState true t caps :: others.
Proof.
  intros Ht. revert fuel b. induction k as [|k IH]; intros fuel b Hfuel.
  - destruct fuel as [|fuel]; [lia|]. exists [].
    rewrite star_loop_S. cbn [replicate app].
    rewrite rmatch_ws_step by done. rewrite bind_singleton.
    cbn [ms_rest length].
    replace (length t <? S (length t))%nat with true
      by (symmetry; apply Nat.ltb_lt; lia).
    rewrite star_loop_stuck by (by apply rmatch_ws_stuck).
    rewrite bind_app, !bind_singleton.
    rewrite (rmatch_newline_stuck (MState _ t caps))
      by (by apply not_ws_not_newline).
    by rewrite rmatch_newline_step.
  - destruct fuel as [|fuel]; [lia|].
    destruct (IH fuel true) as [others Heq]; [lia|].
    rewrite star_loop_S.
    change (replicate (S (S k)) nl ++ t)
      with (nl :: (replicate (S k) nl ++ t)).
    rewrite rmatch_ws_step by done. rewrite bind_singleton.
    cbn [ms_rest length].
    replace (length (replicate (S k) nl ++ t)
             <? S (length (replicate (S k) nl ++ t)))%nat with true
      by (symmetry; apply Nat.ltb_lt; lia).
    change (nl =? nl)%N with true.
    rewrite bind_app, Heq. by eexists.
Qed.

Lemma checksum_line_stuck (st : mstate) :
  head (ms_rest st) ≠ Some dquote → rmatch checksum_line_re st = [].
Proof. by apply (rmatch_starts_with dquote). Qed.

(** One repetition on a line of the section ... *)
Lemma section_item_line (e : entry) (t : list N) (b : bool)
    (caps : list (nat * list N)) :
  wf_entry e →
  ∃ b' caps' others,
    rmatch section_item_re (MState b (entry_line e ++ nl :: t) caps)
    = MState b' (nl :: t) caps' :: others.
Proof.
  intros He. unfold section_item_re. rewrite rmatch_Grp, rmatch_Alt.
  destruct (checksum_line_match e t b caps He) as (b' & others & ->).
  cbn [app]. rewrite fmap_cons, set_group_state. by eexists _, _, _.
Qed.

(** ... and on the newlines that follow it. *)
Lemma section_item_newlines (k : nat) (t : list N) (b : bool)
    (caps : list (nat * list N)) :
  not_ws_start t →
  ∃ caps' others,
    rmatch section_item_re (MState b (replicate (S k) nl ++ t) caps)
    = MState true t caps' :: others.
Proof.
  intros Ht. unfold section_item_re.
  rewrite rmatch_Grp, rmatch_Alt, checksum_line_stuck by done.
  rewrite app_nil_l, rmatch_Seq, rmatch_Star.
  destruct (newline_run_match k t
              (S (length (replicate (S k) nl ++ t))) b caps Ht)
    as [others Heq].
  { rewrite length_app, length_replicate. lia. }
  cbn [ms_rest]. rewrite Heq, fmap_cons, set_group_state.
  by eexists _, _.
Qed.

Lemma section_item_stuck (tail : list N) (b : bool)
    (caps : list (nat * list N)) :
  section_end tail → rmatch section_item_re (MState b tail caps) = [].
Proof.
  intros [Hws Hdq]. unfold section_item_re.
  rewrite rmatch_Grp, rmatch_Alt, checksum_line_stuck by done.
  rewrite app_nil_l, rmatch_Seq, rmatch_Star.
  rewrite star_loop_stuck by (by apply rmatch_ws_stuck).
  rewrite bind_singleton, rmatch_newline_stuck; [done|].
  by apply not_ws_not_newline.
Qed.

Lemma section_text_start (es : list entry) (tail : list N) :
  section_end tail → not_ws_start (section_text es ++ tail).
Proof.
  intros [Hws _]. destruct es as [|e es]; [done|].
  unfold section_text. rewrite bind_cons. intros c. simpl. by intros [= <-].
Qed.

Lemma section_text_cons (e : entry) (es : list entry) (tail : list N) :
  section_text (e :: es) ++ tail
  = entry_line e ++ nl :: (replicate (e_blank e) nl ++ section_text es ++ tail).
Proof.
  unfold section_text. rewrite bind_cons. unfold entry_text.
  by rewrite <- !app_assoc.
Qed.

Lemma ltb_entry_line (e : entry) (t : list N) :
  (length t <? length (entry_line e ++ t))%nat = true.
Proof.
  apply Nat.ltb_lt. unfold entry_line, checksum_key.
  rewrite length_app. simpl. lia.
Qed.

Lemma ltb_replicate_app (k : nat) (t : list N) :
  (length t <? length (replicate (S k) nl ++ t))%nat = true.
Proof. apply Nat.ltb_lt. rewrite length_app, length_replicate. lia. Qed.

(** The repetitions take every entry of the section. *)
Lemma section_loop (es : list entry) (tail : list N) (fuel : nat) (b : bool)
    (caps : list (nat * list N)) :
  Forall wf_entry es → section_end tail → (2 * length es ≤ fuel)%nat →
  ∃ caps' others,
    star_loop (rmatch section_item_re) fuel
      (MState b (section_text es ++ tail) caps)
    = MState (if es is [] then b else true) tail caps' :: others.
Proof.
  intros Hes Htail. revert fuel b caps.
  induction Hes as [|e es He _ IH]; intros fuel b caps Hfuel.
  - exists caps, []. rewrite star_loop_stuck; [done|].
    by apply section_item_stuck.
  - destruct fuel as [|[|fuel]]; [simpl in Hfuel; lia ..|].
    rewrite section_text_cons, star_loop_S.
    destruct (section_item_line e
                (replicate (e_blank e) nl ++ section_text es ++ tail)
                b caps He) as (b1 & caps1 & o1 & ->).
    rewrite bind_cons. cbn [ms_rest].
    rewrite ltb_entry_line, star_loop_S.
    change (nl :: replicate (e_blank e) nl ++ section_text es ++ tail)
      with (replicate (S (e_blank e)) nl ++ section_text es ++ tail).
    destruct (section_item_newlines (e_blank e) (section_text es ++ tail)
                b1 caps1 (section_text_start es tail Htail))
      as (caps2 & o2 & ->).
    rewrite bind_cons. cbn [ms_rest]. rewrite ltb_replicate_app.
    destruct (IH fuel true caps2) as (caps' & others & ->);
      [simpl in Hfuel; lia|].
    cbn [app]. replace (if es is [] then true else true) with true
      by (by destruct es).
    by eexists _, _.
Qed.

Lemma length_section_text (es : list entry) :
  (2 * length es ≤ length (section_text es))%nat.
Proof.
  induction es as [|e es IH]; [done|]. unfold section_text in *.
  assert (2 ≤ length (entry_text e))%nat as He.
  { unfold entry_text, entry_line, checksum_key.
    rewrite !length_app, length_replicate. simpl. lia. }
  rewrite bind_cons, length_app. simpl length at 1. lia.
Qed.

Lemma rmatch_Bol_true (s : list N) (caps : list (nat * list N)) :
  rmatch Bol (MState true s caps) = [MState true s caps].
Proof. done. Qed.

Lemma metadata_body_match (es : list entry) (tail : list N)
    (caps : list (nat * list N)) :
  es ≠ [] → Forall wf_entry es → section_end tail →
  ∃ caps' others,
    rmatch metadata_body_re (MState true (section_text es ++ tail) caps)
    = MState true tail caps' :: others.
Proof.
  intros Hne Hes Htail. destruct es as [|e es]; [done|].
  apply Forall_cons in Hes as [He Hes].
  unfold metadata_body_re. rewrite rmatch_Seq.
  rewrite rmatch_Bol_true.
  rewrite bind_singleton, rmatch_Plus, section_text_cons.
  destruct (section_item_line e
              (replicate (e_blank e) nl ++ section_text es ++ tail)
              true caps He) as (b1 & caps1 & o1 & ->).
  rewrite bind_cons. cbn [ms_rest]. rewrite star_loop_S.
  change (nl :: replicate (e_blank e) nl ++ section_text es ++ tail)
    with (replicate (S (e_blank e)) nl ++ section_text es ++ tail).
  destruct (section_item_newlines (e_blank e) (section_text es ++ tail)
              b1 caps1 (section_text_start es tail Htail))
    as (caps2 & o2 & ->).
  rewrite bind_cons. cbn [ms_rest]. rewrite ltb_replicate_app.
  match goal with
  | |- context [star_loop _ ?fuel (MState true (section_text es ++ tail) _)] =>
      destruct (section_loop es tail fuel true caps2 Hes Htail)
        as (caps' & others & ->)
  end.
  { pose proof (length_section_text es).
    rewrite !length_app, length_replicate. lia. }
  cbn [app]. replace (if es is [] then true else true) with true
    by (by destruct es).
  by eexists _, _.
Qed.

Lemma bol_after_newlines (b : bool) (k : nat) :
  bol_after b (replicate (S k) nl) = true.
Proof.
  unfold bol_after. replace (S k) with (k + 1)%nat by lia.
  rewrite replicate_add. cbn [replicate]. by rewrite last_snoc.
Qed.

Lemma forallb_isspace_newlines (k : nat) :
  forallb isspace (replicate k nl) = true.
Proof. induction k; [done|]. simpl. by rewrite IHk. Qed.

(** The section pattern at the header of a well-formed section. *)
Lemma metadata_re_match (blank : nat) (es : list entry) (tail : list N) :
  es ≠ [] → Forall wf_entry es → section_end tail →
  ∃ m,
    match_at Cargo2Ports.metadata_re true
      (lit "[metadata]" ++ replicate (S blank) nl ++ section_text es ++ tail)
    = Some m
    ∧ Cargo2Ports.groups_0 m = section_text es.
Proof.
  intros Hne Hes Htail. unfold match_at, Cargo2Ports.metadata_re.
  rewrite rmatch_Seq.
  rewrite rmatch_Bol_true.
  rewrite bind_singleton, rmatch_Seq, rmatch_Str, match_str_app.
  rewrite bind_singleton, rmatch_Seq.
  destruct (star_ws_head (replicate (S blank) nl) (section_text es ++ tail)
              (bol_after true (lit "[metadata]")) []
              (forallb_isspace_newlines _) (section_text_start es tail Htail))
    as [o1 Heq].
  fold (bol_after true (lit "[metadata]")). rewrite Heq.
  rewrite bind_cons, rmatch_Grp, bol_after_newlines.
  destruct (metadata_body_match es tail [] Hne Hes Htail)
    as (caps' & o2 & Heq2).
  unfold metadata_body_re, section_item_re, checksum_line_re, checksum_key
    in Heq2.
  rewrite Heq2, fmap_cons, set_group_app. cbn [app].
  eexists. split; [done|]. done.
Qed.

Lemma prefix_app_short (l a b : list N) :
  l `prefix_of` a ++ b → (length l ≤ length a)%nat → l `prefix_of` a.
Proof.
  intros [k Hk] Hlen. exists (drop (length l) a).
  apply (f_equal (take (length l))) in Hk.
  rewrite take_app_le in Hk by done. rewrite take_app_length in Hk.
  rewrite <- (take_drop (length l) a) at 1. by rewrite Hk.
Qed.

(** Text before the header in which no line begins with the header is
    skipped by the search for the section. *)
Lemma search_from_metadata_preamble (pre rest : list N) (b : bool) :
  search_from Cargo2Ports.v1_re b (pre ++ lit "[metadata") = None →
  search_from Cargo2Ports.metadata_re b (pre ++ lit "[metadata]" ++ rest)
  = (λ m, ReMatch (pre ++ m_pre m) (m_text m) (m_end m))
      <$> search_from Cargo2Ports.metadata_re (bol_after b pre)
            (lit "[metadata]" ++ rest).
Proof.
  revert b. induction pre as [|c pre IH]; intros b Hnone.
  - change (bol_after b []) with b. rewrite app_nil_l.
    by destruct (search_from Cargo2Ports.metadata_re b
                   (lit "[metadata]" ++ rest)) as [[]|].
  - rewrite <- app_comm_cons in Hnone. simpl search_from in Hnone.
    destruct (match_at Cargo2Ports.v1_re b (c :: pre ++ lit "[metadata"))
      as [|] eqn:Hat; [done|].
    destruct (search_from Cargo2Ports.v1_re (c =? nl)%N
                (pre ++ lit "[metadata")) as [|] eqn:Hs; [done|].
    rewrite <- app_comm_cons, search_from_miss.
    + rewrite (IH _ Hs), bol_after_cons.
      by destruct (search_from Cargo2Ports.metadata_re _ _).
    + destruct (match_at Cargo2Ports.metadata_re b
                  (c :: pre ++ lit "[metadata]" ++ rest)) as [m|] eqn:Hm;
        [|done].
      assert (is_Some (match_at Cargo2Ports.v1_re b
                         (c :: pre ++ lit "[metadata"))) as [? Hsome];
        [|congruence].
      apply match_at_v1_re.
      destruct (proj1 (match_at_v1_re b _)
                  (match_at_metadata_re b _ (mk_is_Some _ _ Hm)))
        as [-> [post Hpost]].
      split; [done|].
      assert (lit "[metadata]" `prefix_of`
              (c :: pre ++ lit "[metadata") ++ lit "]" ++ rest) as Hpre.
      { exists post. rewrite <- Hpost. rewrite <- app_comm_cons.
        by rewrite <- !app_assoc. }
      apply prefix_app_short in Hpre as [post' Hpost'].
      * by exists post'.
      * cbn [length]. rewrite length_app. simpl. lia.
Qed.

Lemma is_v1_lockfile_spec' (text : list N) :
  ¬ has_metadata_header text → search_from Cargo2Ports.v1_re true text = None.
Proof.
  intros Hh. pose proof (is_v1_lockfile_spec text) as Hspec.
  unfold Cargo2Ports.is_v1_lockfile, search in Hspec.
  destruct (search_from Cargo2Ports.v1_re true text); [|done].
  destruct Hh. by apply Hspec.
Qed.

(** The section that the legacy extractor finds in a well-formed legacy
    lock file is the text of all its entries. *)
Lemma metadata_section_wf_legacy (pre : list N) (blank : nat)
    (es : list entry) (tail : list N) :
  wf_legacy pre es tail →
  metadata_section (legacy_text pre blank es tail) = Some (section_text es).
Proof.
  intros (Hpre & Hfirst & Hne & Hes & Htail).
  unfold metadata_section, search, legacy_text.
  rewrite search_from_metadata_preamble.
  - assert (bol_after true pre = true) as ->.
    { destruct Hpre as [->|[pre' ->]]; [done|]. by rewrite bol_after_snoc. }
    destruct (metadata_re_match blank es tail Hne Hes Htail)
      as (m & Hm & Hgrp).
    rewrite (search_from_hit _ _ _ _ Hm). simpl. by rewrite <- Hgrp.
  - apply is_v1_lockfile_spec' in Hfirst. exact Hfirst.
Qed.

Lemma split_newlines (k : nat) (rest : list N) :
  split nl (replicate k nl ++ rest) = replicate k [] ++ split nl rest.
Proof. induction k as [|k IH]; [done|]. simpl. by rewrite IH. Qed.

Lemma entry_line_no_newline (e : entry) : wf_entry e → nl ∉ entry_line e.
Proof.
  intros (_ & Hw & _ & _ & Hb). unfold entry_line.
  rewrite !elem_of_app. intros [Hk|[?|?]]; [|done..].
  revert Hk. apply (bool_decide_unpack _). vm_compute. exact I.
Qed.

Lemma not_qualifying_empty : ¬ qualifying [].
Proof. unfold qualifying. vm_compute. lia. Qed.

Lemma filter_qualifying_blank (k : nat) (ls : list (list N)) :
  filter qualifying (replicate k [] ++ ls) = filter qualifying ls.
Proof.
  induction k as [|k IH]; [done|]. simpl.
  rewrite filter_cons_False; [done | apply not_qualifying_empty].
Qed.

(** The lines of the section that give a record are the lines of its
    entries that do. *)
Lemma filter_qualifying_section (es : list entry) :
  Forall wf_entry es →
  filter qualifying (split nl (section_text es))
  = filter qualifying (entry_line <$> es).
Proof.
  induction 1 as [|e es He _ IH].
  - simpl. rewrite filter_cons_False; [done | apply not_qualifying_empty].
  - unfold section_text. rewrite bind_cons. fold (section_text es).
    unfold entry_text. rewrite <- app_assoc.
    change (replicate (S (e_blank e)) nl ++ section_text es)
      with (nl :: (replicate (e_blank e) nl ++ section_text es)).
    rewrite split_piece by (by apply entry_line_no_newline).
    rewrite split_newlines, fmap_cons.
    change (entry_line e :: ?l) with ([entry_line e] ++ l).
    by rewrite !(filter_app qualifying [entry_line e]),
      filter_qualifying_blank, IH.
Qed.

Lemma get_packages_from_metadata_wf_legacy (pre : list N) (blank : nat)
    (es : list entry) (tail : list N) :
  wf_legacy pre es tail →
  Cargo2Ports.get_packages_from_metadata (legacy_text pre blank es tail)
  = (λ line, Cargo2Ports.metadata_package (tokens_of line))
      <$> filter qualifying (entry_line <$> es).
Proof.
  intros Hwf. rewrite get_packages_from_metadata_section.
  rewrite (metadata_section_wf_legacy _ _ _ _ Hwf).
  destruct Hwf as (_ & _ & _ & Hes & _).
  by rewrite filter_qualifying_section.
Qed.

(** C7: when the section pattern finds a [metadata] section, the result has
    exactly one record for each of its lines that splits into at least six
    tokens, in order, with the stripped tokens 1, 2 and 5 as name, version
    and checksum; lines with fewer tokens, blank lines among them, give
    nothing.  In a well-formed legacy lock file (the first line that begins
    with the header, then lines that are empty or made of the quoted
    checksum key, whitespace and a rest, up to the end of the text or to
    text that starts neither with whitespace nor with a double quote) the
    section found is the text of all those lines.  When no section is
    found, as in a text without a [metadata] header, the result is the empty
    sequence. *)
Theorem C7_legacy_extractor (text : list N) :
  (∀ section, metadata_section text = Some section →
     Cargo2Ports.get_packages_from_metadata text
     = (λ line, Cargo2Ports.metadata_package (tokens_of line))
         <$> filter qualifying (split nl section))
  ∧ (∀ pre blank es tail,
       text = legacy_text pre blank es tail → wf_legacy pre es tail →
       metadata_section text = Some (section_text es)
       ∧ Cargo2Ports.get_packages_from_metadata text
         = (λ line, Cargo2Ports.metadata_package (tokens_of line))
             <$> filter qualifying (entry_line <$> es))
  ∧ (∀ line, qualifying line →
       let tokens := tokens_of line in
       let pkg := Cargo2Ports.metadata_package tokens in
       pkg !! lit "name" = Some (strip_string (tokens !!! 1%nat))
       ∧ pkg !! lit "version" = Some (strip_string (tokens !!! 2%nat))
       ∧ pkg !! lit "checksum" = Some (strip_string (tokens !!! 5%nat)))
  ∧ ¬ qualifying []
  ∧ (metadata_section text = None →
     Cargo2Ports.get_packages_from_metadata text = [])
  ∧ (¬ has_metadata_header text →
     Cargo2Ports.get_packages_from_metadata text = []).
Proof.
  pose proof (get_packages_from_metadata_section text) as Hsec.
  split; [|split; [|split; [|split; [|split]]]].
  - intros section Hs. by rewrite Hsec, Hs.
  - intros pre blank es tail -> Hwf. split.
    + by apply metadata_section_wf_legacy.
    + by apply get_packages_from_metadata_wf_legacy.
  - intros line Hq. by apply metadata_package_fields.
  - apply not_qualifying_empty.
  - intros Hs. by rewrite Hsec, Hs.
  - intros Hh. by rewrite Hsec, metadata_section_None.
Qed.

(** C7 at the legacy lock file with the checksum line of the package bar. *)
Lemma C7_legacy_extractor_witness :
  legacy_lock = legacy_text [] 0 [bar_entry] []
  ∧ wf_legacy [] [bar_entry] []
  ∧ Cargo2Ports.get_packages_from_metadata legacy_lock = [bar_legacy_record].
Proof.
  assert (legacy_lock = legacy_text [] 0 [bar_entry] []) as Htext
    by (vm_compute; reflexivity).
  assert (wf_legacy [] [bar_entry] []) as Hwf.
  { split; [by left|]. split.
    { intros H%is_v1_lockfile_spec. vm_compute in H. discriminate H. }
    split; [done|]. split; [|by split].
    apply Forall_cons_2; [|apply Forall_nil_2].
    split; [reflexivity|].
    split; [apply (bool_decide_unpack _); vm_compute; exact I|].
    split; [discriminate|].
    split; [|apply (bool_decide_unpack _); vm_compute; exact I].
    intros c Hc. vm_compute in Hc. injection Hc as <-. reflexivity. }
  split; [exact Htext|]. split; [exact Hwf|].
  rewrite (proj2 (proj1 (proj2 (C7_legacy_extractor legacy_lock))
                    [] 0%nat [bar_entry] [] Htext Hwf)).
  vm_compute. reflexivity.
Defined.

(** * Further properties *)

(** ** What stripping removes *)

Lemma lstrip_split (p : N → bool) (s : list N) :
  ∃ l, s = l ++ lstrip p s ∧ forallb p l = true.
Proof.
  induction s as [|c s (l & Hs & Hl)]; simpl.
  - by exists [].
  - destruct (p c) eqn:Hc.
    + exists (c :: l). simpl. rewrite Hc. split; [by f_equal | done].
    + by exists [].
Qed.

Lemma lstrip_head (p : N → bool) (s : list N) (c : N) :
  head (lstrip p s) = Some c → p c = false.
Proof.
  induction s as [|d s IH]; simpl; [done|].
  destruct (p d) eqn:Hd; [done|]. simpl. by intros [= <-].
Qed.

Lemma rstrip_split (p : N → bool) (s : list N) :
  ∃ r, s = rstrip p s ++ r ∧ forallb p r = true.
Proof.
  unfold rstrip. destruct (lstrip_split p (rev s)) as (l & Hs & Hl).
  exists (rev l). split.
  - rewrite <- rev_app_distr, <- Hs. by rewrite rev_involutive.
  - rewrite forallb_forall in *. intros x Hx. apply Hl. by apply in_rev.
Qed.

Lemma last_rev (s : list N) : last (rev s) = head s.
Proof. destruct s as [|c s]; [done|]. simpl. by rewrite last_snoc. Qed.

Lemma head_rev (s : list N) : head (rev s) = last s.
Proof. by rewrite <- last_rev, rev_involutive. Qed.

Lemma rstrip_last (p : N → bool) (s : list N) (c : N) :
  last (rstrip p s) = Some c → p c = false.
Proof. unfold rstrip. rewrite last_rev. apply lstrip_head. Qed.

Lemma head_prefix_of (s t r : list N) (c : N) :
  s = t ++ r → head t = Some c → head s = Some c.
Proof. intros -> H. by destruct t. Qed.

Lemma rstrip_head (p : N → bool) (s : list N) (c : N) :
  head (rstrip p s) = Some c → head s = Some c.
Proof.
  destruct (rstrip_split p s) as (r & Hs & _). by apply (head_prefix_of s _ r).
Qed.

(** [strip] removes a run of [p] characters on each side and leaves a text
    that neither starts nor ends with one. *)
Lemma strip_split (p : N → bool) (s : list N) :
  ∃ l r,
    s = l ++ strip p s ++ r
    ∧ forallb p l = true ∧ forallb p r = true
    ∧ (∀ c, head (strip p s) = Some c → p c = false)
    ∧ (∀ c, last (strip p s) = Some c → p c = false).
Proof.
  unfold strip.
  destruct (lstrip_split p s) as (l & Hl & Hpl).
  destruct (rstrip_split p (lstrip p s)) as (r & Hr & Hpr).
  exists l, r. split; [by rewrite <- Hr|]. split; [done|]. split; [done|].
  split.
  - intros c Hc%rstrip_head. by apply lstrip_head in Hc.
  - apply rstrip_last.
Qed.

Lemma forallb_weaken (p q : N → bool) (l : list N) :
  (∀ c, p c = true → q c = true) → forallb p l = true → forallb q l = true.
Proof. rewrite !forallb_forall. auto. Qed.

(** X1: [strip_string] removes only whitespace and double quotes, and only
    at the two ends: the text is what is removed on the left, the result,
    and what is removed on the right; and the result neither starts nor
    ends with a double quote. *)
Theorem X1_strip_string_trims (s : list N) :
  ∃ l r,
    s = l ++ strip_string s ++ r
    ∧ forallb strippable l = true
    ∧ forallb strippable r = true
    ∧ head (strip_string s) ≠ Some dquote
    ∧ last (strip_string s) ≠ Some dquote.
Proof.
  unfold strip_string.
  destruct (strip_split isspace s) as (l1 & r1 & Hs1 & Hl1 & Hr1 & _ & _).
  destruct (strip_split is_dquote (strip isspace s))
    as (l2 & r2 & Hs2 & Hl2 & Hr2 & Hhd & Hlast).
  exists (l1 ++ l2), (r2 ++ r1). split; [|split; [|split; [|split]]].
  - rewrite Hs1 at 1. rewrite Hs2 at 1. by rewrite <- !app_assoc.
  - rewrite forallb_app. apply andb_true_intro. split.
    + apply (forallb_weaken isspace); [|done]. intros c Hc.
      unfold strippable. by rewrite Hc.
    + apply (forallb_weaken is_dquote); [|done]. intros c Hc.
      unfold strippable. rewrite Hc. by destruct (isspace c).
  - rewrite forallb_app. apply andb_true_intro. split.
    + apply (forallb_weaken is_dquote); [|done]. intros c Hc.
      unfold strippable. rewrite Hc. by destruct (isspace c).
    + apply (forallb_weaken isspace); [|done]. intros c Hc.
      unfold strippable. by rewrite Hc.
  - intros Hc. by specialize (Hhd _ Hc).
  - intros Hc. by specialize (Hlast _ Hc).
Qed.

(** ** Parsing back a table *)

Lemma split_lines_text (ls : list (list N)) :
  Forall (λ l, nl ∉ l) ls → split nl (lines_text ls) = ls ++ [[]].
Proof.
  induction 1 as [|l ls Hl _ IH]; [done|].
  unfold lines_text. rewrite bind_cons, <- app_assoc. cbn [app].
  rewrite split_piece by done. fold (lines_text ls). by rewrite IH.
Qed.

Lemma split1_first (sep : N) (k rest : list N) :
  sep ∉ k → split1 sep (k ++ sep :: rest) = (k, rest).
Proof.
  induction k as [|c k IH]; intros Hk; simpl.
  - by rewrite N.eqb_refl.
  - apply not_elem_of_cons in Hk as [Hc Hk].
    destruct (N.eqb_spec c sep) as [?|_]; [done|]. by rewrite IH.
Qed.

Lemma contains_app_sep (sep : N) (k rest : list N) :
  contains sep (k ++ sep :: rest) = true.
Proof.
  unfold contains. rewrite existsb_app. simpl. rewrite N.eqb_refl.
  by rewrite orb_true_r.
Qed.

Lemma strippable_false (c : N) :
  strippable c = false → isspace c = false ∧ is_dquote c = false.
Proof. unfold strippable. by intros [? ?]%orb_false_elim. Qed.

(** A text that neither starts nor ends with whitespace or a double quote
    is left as it is, also when a space follows it. *)
Lemma strip_string_clean (k : list N) :
  (∀ c, head k = Some c → strippable c = false) →
  (∀ c, last k = Some c → strippable c = false) →
  strip_string (k ++ [space]) = k.
Proof.
  intros Hhd Hlast. unfold strip_string.
  assert (strip isspace (k ++ [space]) = k) as ->.
  { apply (strip_wrapped isspace [] k [space]); try done.
    - intros c Hc. by apply strippable_false, Hhd.
    - intros c Hc. by apply strippable_false, Hlast. }
  pose proof (strip_wrapped is_dquote [] k []) as H.
  rewrite app_nil_r in H. apply H; try done.
  - intros c Hc. by apply strippable_false, Hhd.
  - intros c Hc. by apply strippable_false, Hlast.
Qed.

(** A quoted value after a space is unwrapped. *)
Lemma strip_string_quoted (v : list N) :
  head v ≠ Some dquote → last v ≠ Some dquote →
  strip_string ([space] ++ [dquote] ++ v ++ [dquote]) = v.
Proof.
  intros Hhd Hlast. unfold strip_string.
  assert (strip isspace ([space] ++ [dquote] ++ v ++ [dquote])
          = [dquote] ++ v ++ [dquote]) as ->.
  { pose proof (strip_wrapped isspace [space] ([dquote] ++ v ++ [dquote]) [])
      as H.
    rewrite app_nil_r in H. apply H; try done.
    - simpl. by intros c [= <-].
    - intros c. rewrite app_assoc, last_snoc. by intros [= <-]. }
  apply (strip_wrapped is_dquote [dquote] v [dquote]); try done.
  - intros c Hc. unfold is_dquote. apply N.eqb_neq. congruence.
  - intros c Hc. unfold is_dquote. apply N.eqb_neq. congruence.
Qed.

Lemma pair_line_split (p : list N * list N) :
  pair_line p
  = (p.1 ++ [space]) ++ equals :: ([space] ++ [dquote] ++ p.2 ++ [dquote]).
Proof. unfold pair_line. by rewrite <- !app_assoc. Qed.

Lemma parse_step_pair (m : gmap (list N) (list N)) (p : list N * list N) :
  clean_pair p → parse_step m (pair_line p) = <[p.1 := p.2]> m.
Proof.
  intros [(Heq & _ & Hhd & Hlast) (_ & Hvhd & Hvlast)].
  unfold parse_step. rewrite pair_line_split, contains_app_sep.
  rewrite split1_first.
  - by rewrite strip_string_clean, strip_string_quoted.
  - rewrite elem_of_app, elem_of_cons, elem_of_nil. intuition done.
Qed.

Lemma pair_line_no_newline (p : list N * list N) :
  clean_pair p → nl ∉ pair_line p.
Proof.
  intros [(_ & Hk & _) (Hv & _)]. rewrite pair_line_split.
  repeat (rewrite elem_of_app || rewrite elem_of_cons).
  rewrite !elem_of_nil. intuition done.
Qed.

Lemma foldl_parse_step_pairs (m : gmap (list N) (list N))
    (pairs : list (list N * list N)) :
  Forall clean_pair pairs →
  foldl parse_step m (pair_line <$> pairs)
  = foldl (λ m p, <[p.1 := p.2]> m) m pairs.
Proof.
  intros H. revert m. induction H as [|p pairs Hp _ IH]; intros m; [done|].
  simpl. by rewrite parse_step_pair, IH.
Qed.

Lemma parse_pairs (pairs : list (list N * list N)) :
  Forall clean_pair pairs →
  Cargo2Ports.parse_package_block (lines_text (pair_line <$> pairs))
  = table_record pairs.
Proof.
  intros Hpairs.
  assert (Forall (λ l, nl ∉ l) (pair_line <$> pairs)) as Hnl.
  { apply Forall_fmap. eapply Forall_impl; [exact Hpairs|].
    intros p. apply pair_line_no_newline. }
  rewrite parse_package_block_foldl, split_lines_text by done.
  rewrite foldl_app. cbn [foldl]. unfold parse_step at 1.
  cbn [contains existsb].
  by apply foldl_parse_step_pairs.
Qed.

(** X2: a table written from key/value pairs parses back to the record that
    the pairs build, a later pair for a key replacing an earlier one; keys
    have no equals sign and start and end with neither whitespace nor a
    double quote, values (which may contain equals signs and whitespace)
    start and end with no double quote.  cargoV2forports.py gives the same
    record when there is at least one pair. *)
Theorem X2_parse_package_block_round_trip
    (pairs : list (list N * list N)) :
  Forall clean_pair pairs →
  Cargo2Ports.parse_package_block (lines_text (pair_line <$> pairs))
  = table_record pairs
  ∧ (pairs ≠ [] →
     CargoV2.parse_package_block (lines_text (pair_line <$> pairs))
     = Ok (table_record pairs)).
Proof.
  intros Hpairs. split; [by apply parse_pairs|].
  intros Hne. rewrite <- (parse_pairs pairs Hpairs).
  assert (Forall (λ l, nl ∉ l) (pair_line <$> pairs)) as Hnl.
  { apply Forall_fmap. eapply Forall_impl; [exact Hpairs|].
    intros p. apply pair_line_no_newline. }
  destruct pairs as [|p pairs]; [done|].
  eapply v2_parse_package_block_ok.
  - by rewrite split_lines_text.
  - rewrite pair_line_split. apply contains_app_sep.
Qed.

(** X2 at the two pairs of [sample_pairs]. *)
Lemma X2_parse_package_block_round_trip_witness :
  Forall clean_pair sample_pairs
  ∧ Cargo2Ports.parse_package_block (lines_text (pair_line <$> sample_pairs))
    = table_record sample_pairs.
Proof.
  assert (Forall clean_pair sample_pairs) as H.
  { apply Forall_cons_2; [|apply Forall_cons_2; [|apply Forall_nil_2]];
      clean_pair_tac. }
  split; [exact H|].
  exact (proj1 (X2_parse_package_block_round_trip sample_pairs H)).
Defined.

(** ** Which keys a parsed record has *)

Lemma parse_step_defines (m : gmap (list N) (list N)) (key line : list N) :
  defines key line → parse_step m line !! key = Some (value_of line).
Proof.
  intros [Hc Hk]. unfold parse_step, value_of. rewrite Hc.
  destruct (split1 equals line) as [k v]. simpl in *. subst key.
  apply lookup_insert_eq.
Qed.

Lemma parse_step_other (m : gmap (list N) (list N)) (key line : list N) :
  ¬ defines key line → parse_step m line !! key = m !! key.
Proof.
  intros Hd. unfold parse_step, defines in *.
  destruct (contains equals line); [|done].
  destruct (split1 equals line) as [k v]. simpl in *.
  apply lookup_insert_ne. intros Hk. by apply Hd.
Qed.

Lemma foldl_parse_step_others (m : gmap (list N) (list N)) (key : list N)
    (lines : list (list N)) :
  Forall (λ l, ¬ defines key l) lines →
  foldl parse_step m lines !! key = m !! key.
Proof.
  intros H. revert m. induction H as [|l lines Hl _ IH]; intros m; [done|].
  simpl. by rewrite IH, parse_step_other.
Qed.

Lemma foldl_parse_step_None (m : gmap (list N) (list N)) (key : list N)
    (lines : list (list N)) :
  foldl parse_step m lines !! key = None
  ↔ m !! key = None ∧ Forall (λ l, ¬ defines key l) lines.
Proof.
  revert m. induction lines as [|l lines IH]; intros m; simpl.
  - split; [by intros ? | by intros [? _]].
  - rewrite IH, Forall_cons. destruct (decide (defines key l)) as [Hd|Hd].
    + rewrite parse_step_defines by done. split; [by intros [? _]|].
      by intros (_ & ? & _).
    + rewrite parse_step_other by done. tauto.
Qed.

(** X3: for every block text, a key is in the parsed record exactly when
    some line of the text has an equals sign and the stripped text before
    its first equals sign is the key; the value is the stripped text after
    the first equals sign of the last such line. *)
Theorem X3_parse_package_block_lookup (text key : list N) :
  (Cargo2Ports.parse_package_block text !! key = None
   ↔ Forall (λ l, ¬ defines key l) (split nl text))
  ∧ (∀ before line after,
       split nl text = before ++ line :: after →
       defines key line →
       Forall (λ l, ¬ defines key l) after →
       Cargo2Ports.parse_package_block text !! key = Some (value_of line)).
Proof.
  rewrite parse_package_block_foldl. split.
  - rewrite foldl_parse_step_None. rewrite lookup_empty. tauto.
  - intros before line after -> Hd Hafter.
    rewrite foldl_app. simpl.
    by rewrite foldl_parse_step_others, parse_step_defines.
Qed.

(** X3 at a table in which the checksum is given twice: the second value is
    the one that stays. *)
Lemma X3_parse_package_block_lookup_witness :
  split nl twice_body
  = [kv_line "checksum" "old"; kv_line "name" "foo"]
    ++ kv_line "checksum" "new" :: [[]]
  ∧ defines (lit "checksum") (kv_line "checksum" "new")
  ∧ Forall (λ l, ¬ defines (lit "checksum") l) [[]]
  ∧ Cargo2Ports.parse_package_block twice_body !! lit "checksum"
    = Some (lit "new").
Proof.
  assert (split nl twice_body
          = [kv_line "checksum" "old"; kv_line "name" "foo"]
            ++ kv_line "checksum" "new" :: [[]]) as Hs
    by (vm_compute; reflexivity).
  assert (defines (lit "checksum") (kv_line "checksum" "new")) as Hd
    by (split; vm_compute; reflexivity).
  assert (Forall (λ l, ¬ defines (lit "checksum") l) [[]]) as Hafter.
  { apply Forall_cons_2; [|apply Forall_nil_2]. intros [Hc _]. discriminate Hc. }
  split; [exact Hs|]. split; [exact Hd|]. split; [exact Hafter|].
  exact (proj2 (X3_parse_package_block_lookup twice_body (lit "checksum"))
           _ _ _ Hs Hd Hafter).
Defined.

(** ** When the second script can parse a block *)

Lemma split_cons (sep : N) (s : list N) :
  ∃ first rest, split sep s = first :: rest.
Proof.
  induction s as [|c s (first & rest & IH)]; simpl; [by eexists _, _|].
  destruct (c =? sep)%N; [by eexists _, _|]. rewrite IH. by eexists _, _.
Qed.

(** X4: in cargoV2forports.py a block parses exactly when its first line has
    an equals sign, and then to the record that cargo2ports.py builds from
    it; otherwise the unbound [v] is raised, whatever the later lines are. *)
Theorem X4_v2_parse_package_block_first_line (text : list N) :
  CargoV2.parse_package_block text
  = if contains equals (hd [] (split nl text))
    then Ok (Cargo2Ports.parse_package_block text)
    else Raise (UnboundLocalError "v").
Proof.
  destruct (split_cons nl text) as (first & rest & Hs). rewrite Hs. simpl.
  destruct (contains equals first) eqn:Hc.
  - by apply (v2_parse_package_block_ok text first rest).
  - unfold CargoV2.parse_package_block. rewrite Hs. simpl. by rewrite Hc.
Qed.

(** ** Where the continuation marker goes *)

Lemma stanza_loop_app (cfg : config) (num_blocks count : Z)
    (pkgs1 pkgs2 : list (gmap (list N) (list N))) (output : list (list N)) :
  Cargo2Ports.stanza_loop cfg num_blocks count (pkgs1 ++ pkgs2) output
  = Py.bind (Cargo2Ports.stanza_loop cfg num_blocks count pkgs1 output)
      (Cargo2Ports.stanza_loop cfg num_blocks (count + len_list pkgs1) pkgs2).
Proof.
  revert count output. induction pkgs1 as [|pkg pkgs1 IH]; intros count output.
  - simpl. unfold len_list. simpl. by rewrite Z.add_0_r.
  - rewrite <- app_comm_cons. cbn [Cargo2Ports.stanza_loop].
    replace (count + len_list (pkg :: pkgs1))
      with (count + 1 + len_list pkgs1)
      by (unfold len_list; cbn [length]; lia).
    destruct (pkg !! lit "checksum"); [|by apply IH].
    destruct (get_crate_line cfg pkg); [|done]. simpl. by apply IH.
Qed.

Lemma stanza_loop_marked (cfg : config)
    (pkgs : list (gmap (list N) (list N))) :
  Forall complete pkgs →
  ∀ num_blocks count output,
    count + len_list pkgs < num_blocks →
    ∃ lines,
      Cargo2Ports.stanza_loop cfg num_blocks count pkgs output
      = Ok (output ++ (marked <$> lines))
      ∧ Forall2 (line_of cfg) (filter renderable pkgs) lines.
Proof.
  induction 1 as [|pkg pkgs Hpkg _ IH]; intros num_blocks count output Hlt.
  - exists []. simpl. by rewrite app_nil_r.
  - assert (count + 1 + len_list pkgs < num_blocks) as Hlt'
      by (unfold len_list in *; cbn [length] in Hlt; lia).
    cbn [Cargo2Ports.stanza_loop]. rewrite filter_cons.
    destruct (decide (renderable pkg)) as [Hr|Hr].
    + destruct (get_crate_line_complete cfg pkg Hr Hpkg) as [l Hl].
      destruct Hr as [ck Hck]. rewrite Hck, Hl. simpl.
      assert ((count =? num_blocks - 1) = false) as ->
        by (apply Z.eqb_neq; unfold len_list in *; lia).
      destruct (IH num_blocks (count + 1) (output ++ [l ++ continuation]) Hlt')
        as (lines & -> & Hlines).
      exists (l :: lines). split; [|by constructor].
      by rewrite <- app_assoc.
    + assert (pkg !! lit "checksum" = None) as ->.
      { destruct (pkg !! lit "checksum") eqn:E; [|done].
        exfalso. apply Hr. by eexists. }
      by apply IH.
Qed.

Lemma generate_crates_stanza_snoc (cfg : config)
    (init : list (gmap (list N) (list N))) (final : gmap (list N) (list N)) :
  Forall complete (init ++ [final]) → renderable final →
  ∃ lines l,
    Forall2 (line_of cfg) (filter renderable init) lines
    ∧ line_of cfg final l
    ∧ Cargo2Ports.generate_crates_stanza cfg (init ++ [final])
      = Ok (join [nl] (declaration :: (marked <$> lines) ++ [l])).
Proof.
  intros Hall Hr. apply Forall_app in Hall as [Hinit Hfinal].
  apply (proj1 (Forall_singleton _ _)) in Hfinal.
  set (n := len_list (init ++ [final])).
  assert (0 + len_list init < n) as Hlt
    by (unfold n, len_list; rewrite length_app; simpl; lia).
  destruct (stanza_loop_marked cfg init Hinit n 0 [declaration] Hlt)
    as (lines & Hloop & Hlines).
  destruct (get_crate_line_complete cfg final Hr Hfinal) as [l Hl].
  exists lines, l. split; [done|]. split; [done|].
  unfold Cargo2Ports.generate_crates_stanza. fold n.
  rewrite stanza_loop_app, Hloop. cbn [Py.bind Cargo2Ports.stanza_loop].
  destruct Hr as [ck Hck]. rewrite Hck, Hl. cbn [Py.bind].
  assert ((0 + len_list init =? n - 1) = true) as ->
    by (apply Z.eqb_eq; unfold n, len_list; rewrite length_app; simpl; lia).
  by rewrite app_nil_r, <- app_assoc.
Qed.

(** X5: for records that have a name and a version whenever they have a
    checksum, the stanza is the declaration followed by the lines of the
    records with a checksum; every line of a record before the last one
    carries the continuation marker; the line of the last record carries
    none; and when the last record has no checksum, every emitted line
    carries the marker, the final one included. *)
Theorem X5_marker_placement (cfg : config)
    (init : list (gmap (list N) (list N))) (final : gmap (list N) (list N)) :
  Forall complete (init ++ [final]) →
  ∃ lines,
    Forall2 (line_of cfg) (filter renderable init) lines
    ∧ (renderable final →
       ∃ l, line_of cfg final l
            ∧ Cargo2Ports.generate_crates_stanza cfg (init ++ [final])
              = Ok (join [nl] (declaration :: (marked <$> lines) ++ [l])))
    ∧ (¬ renderable final →
       Cargo2Ports.generate_crates_stanza cfg (init ++ [final])
       = Ok (join [nl] (declaration :: (marked <$> lines)))).
Proof.
  intros Hall. apply Forall_app in Hall as [Hinit Hfinal].
  apply (proj1 (Forall_singleton _ _)) in Hfinal.
  set (n := len_list (init ++ [final])).
  assert (0 + len_list init < n) as Hlt
    by (unfold n, len_list; rewrite length_app; simpl; lia).
  destruct (stanza_loop_marked cfg init Hinit n 0 [declaration] Hlt)
    as (lines & Hloop & Hlines).
  exists lines. split; [done|].
  unfold Cargo2Ports.generate_crates_stanza. fold n.
  rewrite stanza_loop_app, Hloop. cbn [Py.bind Cargo2Ports.stanza_loop].
  split.
  - intros Hr. destruct (get_crate_line_complete cfg final Hr Hfinal) as [l Hl].
    exists l. split; [done|]. destruct Hr as [ck Hck]. rewrite Hck, Hl.
    cbn [Py.bind].
    assert ((0 + len_list init =? n - 1) = true) as ->
      by (apply Z.eqb_eq; unfold n, len_list; rewrite length_app; simpl; lia).
    by rewrite app_nil_r, <- app_assoc.
  - intros Hr.
    assert (final !! lit "checksum" = None) as ->.
    { destruct (final !! lit "checksum") eqn:E; [|done].
      exfalso. apply Hr. by eexists. }
    done.
Qed.

Lemma complete_foo_bar : Forall complete ([foo_record] ++ [bar_record]).
Proof.
  apply Forall_cons_2; [|apply Forall_cons_2; [|apply Forall_nil_2]].
  - intros _. split; by eexists.
  - intros [ck Hck]. vm_compute in Hck. discriminate Hck.
Qed.

(** X5 at a record with a checksum followed by one without. *)
Lemma X5_marker_placement_witness :
  Forall complete ([foo_record] ++ [bar_record])
  ∧ ¬ renderable bar_record
  ∧ ∃ lines,
      Forall2 (line_of default_config) (filter renderable [foo_record]) lines
      ∧ Cargo2Ports.generate_crates_stanza default_config
          ([foo_record] ++ [bar_record])
        = Ok (join [nl] (declaration :: (marked <$> lines))).
Proof.
  assert (¬ renderable bar_record) as Hbar.
  { intros [ck Hck]. vm_compute in Hck. discriminate Hck. }
  split; [exact complete_foo_bar|]. split; [exact Hbar|].
  destruct (X5_marker_placement default_config [foo_record] bar_record
              complete_foo_bar) as (lines & Hlines & _ & Hno).
  exists lines. split; [exact Hlines|]. exact (Hno Hbar).
Defined.

(** ** What a run can end in *)

Lemma get_crate_line_raise (cfg : config) (pkg : gmap (list N) (list N))
    (e : exn) :
  is_Some (pkg !! lit "checksum") →
  get_crate_line cfg pkg = Raise e →
  e = KeyError (lit "name") ∨ e = KeyError (lit "version").
Proof.
  intros [ck Hck]. unfold get_crate_line, getitem.
  destruct (pkg !! lit "name"); cbn [Py.bind]; [|intros [= <-]; by left].
  destruct (pkg !! lit "version"); cbn [Py.bind]; [|intros [= <-]; by right].
  rewrite Hck. cbn [Py.bind].
  by destruct (_ <=? 0).
Qed.

Lemma stanza_loop_raise (cfg : config)
    (pkgs : list (gmap (list N) (list N))) (e : exn) :
  ∀ num_blocks count output,
    Cargo2Ports.stanza_loop cfg num_blocks count pkgs output = Raise e →
    e = KeyError (lit "name") ∨ e = KeyError (lit "version").
Proof.
  induction pkgs as [|pkg pkgs IH]; intros num_blocks count output; [done|].
  cbn [Cargo2Ports.stanza_loop].
  destruct (pkg !! lit "checksum") as [ck|] eqn:Hck; [|by apply IH].
  destruct (get_crate_line cfg pkg) as [l|e'] eqn:Hl; cbn [Py.bind].
  - by apply IH.
  - intros [= <-]. by apply (get_crate_line_raise cfg pkg); [eexists|].
Qed.

Lemma v2_parse_loop_raise (lines : list (list N))
    (kv : option (list N * list N)) (parsed : gmap (list N) (list N))
    (e : exn) :
  CargoV2.parse_loop lines kv parsed = Raise e → e = UnboundLocalError "v".
Proof.
  revert kv parsed. induction lines as [|line lines IH]; intros kv parsed;
    [done|].
  cbn [CargoV2.parse_loop].
  destruct (if contains equals line then Some (split1 equals line) else kv)
    as [[k v]|]; [by apply IH | by intros [= <-]].
Qed.

Lemma v2_stanza_loop_raise (cfg : config) (blocks : list (list N)) (e : exn) :
  ∀ num_blocks count output,
    CargoV2.stanza_loop cfg num_blocks count blocks output = Raise e →
    e = KeyError (lit "name") ∨ e = KeyError (lit "version")
    ∨ e = UnboundLocalError "v".
Proof.
  induction blocks as [|b blocks IH]; intros num_blocks count output; [done|].
  cbn [CargoV2.stanza_loop].
  destruct (CargoV2.parse_package_block b) as [pkg|e'] eqn:Hb; cbn [Py.bind].
  - destruct (pkg !! lit "checksum") as [ck|] eqn:Hck; [|by apply IH].
    destruct (get_crate_line cfg pkg) as [l|e''] eqn:Hl; cbn [Py.bind].
    + by apply IH.
    + intros [= <-].
      destruct (get_crate_line_raise cfg pkg e'') as [->| ->];
        [by eexists | done | by left | by right; left].
  - intros [= <-]. right; right. by apply v2_parse_loop_raise in Hb.
Qed.

Lemma run_raise (e : exn) :
  (∀ code, e ≠ SystemExit code) →
  run (io_bind (io_ret tt) (λ _, io_bind (io_lift (Raise e)) print))
  = Outcome [] (traceback e) 1.
Proof. intros He. destruct e; try done. by destruct (He code). Qed.

(** X6: a run of either script ends in one of a few ways, and standard
    output is written only on success.  cargo2ports.py prints a stanza and
    exits with status 0, or prints the message about missing package
    definitions on standard error and exits with status 1, or dies of a
    [KeyError] for the name or the version; cargoV2forports.py can also die
    of the unbound [v].  In every failure standard output is empty. *)
Theorem X6_run_outcomes (indent width : Z) (contents : list N) :
  (let o := run (Cargo2Ports.main indent width contents) in
   (∃ stanza, o = Outcome (stanza ++ [nl]) [] 0)
   ∨ o = Outcome [] (no_packages_message ++ [nl]) 1
   ∨ o = Outcome [] (traceback (KeyError (lit "name"))) 1
   ∨ o = Outcome [] (traceback (KeyError (lit "version"))) 1)
  ∧ (let o := run (CargoV2.main indent contents) in
     (∃ stanza, o = Outcome (stanza ++ [nl]) [] 0)
     ∨ o = Outcome [] (no_packages_message ++ [nl]) 1
     ∨ o = Outcome [] (traceback (KeyError (lit "name"))) 1
     ∨ o = Outcome [] (traceback (KeyError (lit "version"))) 1
     ∨ o = Outcome [] (traceback (UnboundLocalError "v")) 1).
Proof.
  split; cbv zeta.
  - unfold Cargo2Ports.main.
    destruct (if Cargo2Ports.is_v1_lockfile contents
              then Cargo2Ports.get_packages_from_metadata contents
              else Cargo2Ports.get_packages contents) as [|pkg pkgs].
    { right; left. apply run_fatal_first. }
    destruct (Cargo2Ports.generate_crates_stanza _ (pkg :: pkgs))
      as [stanza|e] eqn:Hgen.
    { left. exists stanza. by apply run_print_stanza. }
    right; right. unfold Cargo2Ports.generate_crates_stanza in Hgen.
    destruct (Cargo2Ports.stanza_loop _ _ _ _ _) as [out|e'] eqn:Hloop;
      [done|]. cbn [Py.bind] in Hgen. injection Hgen as <-.
    apply stanza_loop_raise in Hloop as [->| ->]; [left|right];
      by apply run_raise.
  - unfold CargoV2.main.
    destruct (CargoV2.get_package_blocks contents) as [|b blocks].
    { right; left. apply run_fatal_first. }
    destruct (CargoV2.generate_crates_stanza _ (b :: blocks))
      as [stanza|e] eqn:Hgen.
    { left. exists stanza. by apply run_print_stanza. }
    right; right. unfold CargoV2.generate_crates_stanza in Hgen.
    destruct (CargoV2.stanza_loop _ _ _ _ _) as [out|e'] eqn:Hloop;
      [done|]. cbn [Py.bind] in Hgen. injection Hgen as <-.
    apply v2_stanza_loop_raise in Hloop as [->|[->| ->]];
      [left|right; left|right; right]; by apply run_raise.
Qed.

(** ** The column of the checksum *)

Lemma len_app (s t : list N) : len (s ++ t) = len s + len t.
Proof. unfold len. rewrite length_app. lia. Qed.

Lemma len_spaces (n : Z) : len (spaces n) = Z.max 0 n.
Proof. unfold len, spaces. rewrite length_replicate. lia. Qed.

(** X7: in a rendered line the name, the version and the checksum are each
    separated by at least one space, and the checksum starts in the column
    given by the indentation, the field width or, when they are wider, the
    name and the version, and two: so the checksums of all records whose
    name and version fit in the field are aligned. *)
Theorem X7_checksum_column (cfg : config) (pkg : gmap (list N) (list N))
    (l : list N) :
  get_crate_line cfg pkg = Ok l →
  ∃ name ver cksum gap spacer : list N,
    pkg !! lit "name" = Some name
    ∧ pkg !! lit "version" = Some ver
    ∧ pkg !! lit "checksum" = Some cksum
    ∧ l = spaces (STANZA_INDENT cfg) ++ name ++ gap ++ ver ++ spacer ++ cksum
    ∧ (∃ g, 0 < g ∧ gap = spaces g)
    ∧ (∃ w, 0 < w ∧ spacer = spaces w)
    ∧ len (spaces (STANZA_INDENT cfg) ++ name ++ gap ++ ver ++ spacer)
      = Z.max 0 (STANZA_INDENT cfg)
        + Z.max (STANZA_FIELD_WIDTH cfg) (len name + len ver) + 2.
Proof.
  unfold get_crate_line, getitem.
  destruct (pkg !! lit "name") as [name|]; cbn [Py.bind]; [|done].
  destruct (pkg !! lit "version") as [ver|]; cbn [Py.bind]; [|done].
  destruct (pkg !! lit "checksum") as [cksum|]; cbn [Py.bind]; [|done].
  destruct (_ <=? 0) eqn:Hgap; intros [= <-].
  - apply Z.leb_le in Hgap.
    exists name, ver, cksum, (spaces 1), (spaces (STANZA_SPACER_WIDTH - 1)).
    repeat (split; [done|]). split; [exists 1; by split|].
    split; [exists (STANZA_SPACER_WIDTH - 1); by split|].
    rewrite !len_app, !len_spaces. unfold STANZA_SPACER_WIDTH. lia.
  - apply Z.leb_gt in Hgap.
    exists name, ver, cksum,
      (spaces (STANZA_FIELD_WIDTH cfg - (len name + len ver))),
      (spaces STANZA_SPACER_WIDTH).
    repeat (split; [done|]). split; [eexists; by split|].
    split; [exists STANZA_SPACER_WIDTH; by split|].
    rewrite !len_app, !len_spaces. unfold STANZA_SPACER_WIDTH. lia.
Qed.

(** X7 at the record of the first sample table: the checksum starts in
    column 4 + 38 + 2. *)
Lemma X7_checksum_column_witness :
  get_crate_line default_config foo_record = Ok foo_line
  ∧ ∃ name ver cksum gap spacer : list N,
      foo_line = spaces 4 ++ name ++ gap ++ ver ++ spacer ++ cksum
      ∧ len (spaces 4 ++ name ++ gap ++ ver ++ spacer) = 44.
Proof.
  assert (get_crate_line default_config foo_record = Ok foo_line) as H
    by (vm_compute; reflexivity).
  split; [exact H|].
  destruct (X7_checksum_column default_config foo_record foo_line H)
    as (name & ver & cksum & gap & spacer & Hn & Hv & _ & Hl & _ & _ & Hlen).
  exists name, ver, cksum, gap, spacer. split; [exact Hl|].
  vm_compute in Hn, Hv. injection Hn as <-. injection Hv as <-.
  exact Hlen.
Defined.

(** ** The legacy path cannot fail in rendering *)

Lemma metadata_packages_full (text : list N) :
  Forall full (Cargo2Ports.get_packages_from_metadata text).
Proof.
  rewrite get_packages_from_metadata_section.
  destruct (metadata_section text) as [section|]; [|by constructor].
  apply Forall_fmap, Forall_forall. intros line Hline.
  apply list_elem_of_filter in Hline as [Hq _].
  destruct (metadata_package_fields (tokens_of line) Hq) as (Hn & Hv & Hc).
  unfold full. simpl. rewrite Hn, Hv, Hc. by repeat split.
Qed.

Lemma filter_renderable_full (pkgs : list (gmap (list N) (list N))) :
  Forall full pkgs → filter renderable pkgs = pkgs ∧ Forall complete pkgs.
Proof.
  induction 1 as [|pkg pkgs (Hn & Hv & Hc) _ [IH1 IH2]]; [by split|].
  rewrite filter_cons. destruct (decide (renderable pkg)) as [_|Hr];
    [|by destruct Hr]. rewrite IH1. split; [done|].
  constructor; [|done]. by intros _.
Qed.

(** X8: every record of the legacy extractor has a name, a version and a
    checksum, so that on a legacy lock file cargo2ports.py never dies of a
    [KeyError]: it reports that there are no packages, or it prints one line
    for each record, each with the continuation marker but the last. *)
Theorem X8_legacy_run (indent width : Z) (text : list N) :
  Cargo2Ports.is_v1_lockfile text = true →
  let cfg := {| STANZA_INDENT := indent; STANZA_FIELD_WIDTH := width |} in
  let packages := Cargo2Ports.get_packages_from_metadata text in
  Forall full packages
  ∧ (packages = [] →
     run (Cargo2Ports.main indent width text)
     = Outcome [] (no_packages_message ++ [nl]) 1)
  ∧ (packages ≠ [] →
     ∃ lines l,
       Forall2 (line_of cfg) packages (lines ++ [l])
       ∧ run (Cargo2Ports.main indent width text)
         = Outcome
             (join [nl] (declaration :: (marked <$> lines) ++ [l]) ++ [nl])
             [] 0).
Proof.
  intros Hv1. cbv zeta. unfold Cargo2Ports.main. rewrite Hv1.
  pose proof (metadata_packages_full text) as Hfull.
  split; [done|]. split.
  - intros ->. apply run_fatal_first.
  - intros Hne.
    destruct (exists_last Hne) as (init & final & Heq).
    destruct (Cargo2Ports.get_packages_from_metadata text) as [|pkg pkgs];
      [done|].
    rewrite Heq in Hfull |- *.
    destruct (filter_renderable_full _ Hfull) as [_ Hcomplete].
    apply Forall_app in Hfull as [Hinit Hfinal].
    apply (proj1 (Forall_singleton _ _)) in Hfinal.
    destruct (generate_crates_stanza_snoc
                {| STANZA_INDENT := indent; STANZA_FIELD_WIDTH := width |}
                init final Hcomplete) as (lines & l & Hlines & Hl & Hgen);
      [apply Hfinal|].
    rewrite (proj1 (filter_renderable_full _ Hinit)) in Hlines.
    exists lines, l. split.
    + apply Forall2_app; [done|]. by constructor.
    + destruct (init ++ [final]) eqn:E; [by destruct init|].
      by apply run_print_stanza.
Qed.

(** X8 at the sample legacy lock file. *)
Lemma X8_legacy_run_witness :
  Cargo2Ports.is_v1_lockfile legacy_lock = true
  ∧ Forall full (Cargo2Ports.get_packages_from_metadata legacy_lock).
Proof.
  assert (Cargo2Ports.is_v1_lockfile legacy_lock = true) as H
    by (vm_compute; reflexivity).
  split; [exact H|].
  exact (proj1 (X8_legacy_run 4 38 legacy_lock H)).
Defined.

(** ** Texts without a package header *)

Lemma search_from_absent (r : regex) (l : list N) :
  (∀ st, rmatch r st ≠ [] → ∃ s, ms_rest st = l ++ s) →
  ∀ text b, ¬ occurs l text → search_from r b text = None.
Proof.
  intros Hr. induction text as [|c text IH]; intros b Habs.
  - cbn [search_from]. unfold match_at.
    destruct (rmatch r (MState b [] [])) as [|st' sts] eqn:E; [done|].
    destruct (Hr (MState b [] [])) as [s Hs]; [by rewrite E|].
    exfalso. apply Habs. exists [], s. by rewrite <- Hs.
  - cbn [search_from]. unfold match_at.
    destruct (rmatch r (MState b (c :: text) [])) as [|st' sts] eqn:E.
    + rewrite IH; [done|]. intros (pre & post & ->). apply Habs.
      by exists (c :: pre), post.
    + destruct (Hr (MState b (c :: text) [])) as [s Hs]; [by rewrite E|].
      exfalso. apply Habs. exists [], s. by rewrite <- Hs.
Qed.

Lemma bind_nonempty {A B} (f : A → list B) (l : list A) :
  l ≫= f ≠ [] → l ≠ [].
Proof. by destruct l. Qed.

Lemma block_re_header (st : mstate) :
  rmatch Cargo2Ports.block_re st ≠ [] →
  ∃ s, ms_rest st = lit "[[package]]" ++ s.
Proof.
  unfold Cargo2Ports.block_re. rewrite rmatch_Seq, rmatch_Str.
  intros H%bind_nonempty. by apply match_str_nil_iff.
Qed.

Lemma v2_block_re_header (st : mstate) :
  rmatch CargoV2.block_re st ≠ [] →
  ∃ s, ms_rest st = lit "[[package]]" ++ s.
Proof.
  unfold CargoV2.block_re. rewrite rmatch_Seq, rmatch_Grp.
  intros H%bind_nonempty. rewrite rmatch_Seq, rmatch_Str in H.
  apply match_str_nil_iff. intros E. apply H. by rewrite E.
Qed.

(** X9: a text in which the package header does not occur has no package
    blocks for either script; cargoV2forports.py reports that there are no
    packages and exits with status 1, and so does cargo2ports.py unless the
    text is in the legacy format. *)
Theorem X9_no_package_header (indent width : Z) (text : list N) :
  ¬ occurs (lit "[[package]]") text →
  Cargo2Ports.get_packages text = []
  ∧ CargoV2.get_package_blocks text = []
  ∧ run (CargoV2.main indent text)
    = Outcome [] (no_packages_message ++ [nl]) 1
  ∧ (Cargo2Ports.is_v1_lockfile text = false →
     run (Cargo2Ports.main indent width text)
     = Outcome [] (no_packages_message ++ [nl]) 1).
Proof.
  intros Habs.
  assert (Cargo2Ports.get_packages text = []) as H1.
  { rewrite get_packages_fmap. unfold finditer. cbn [finditer_from].
    by rewrite (search_from_absent _ _ block_re_header). }
  assert (CargoV2.get_package_blocks text = []) as H2.
  { rewrite get_package_blocks_fmap. unfold finditer. cbn [finditer_from].
    by rewrite (search_from_absent _ _ v2_block_re_header). }
  split; [done|]. split; [done|]. split.
  - unfold CargoV2.main. rewrite H2. apply run_fatal_first.
  - intros Hv1. unfold Cargo2Ports.main. rewrite Hv1, H1.
    apply run_fatal_first.
Qed.

Lemma occurs_elem_of (c : N) (s text : list N) :
  c ∈ s → c ∉ text → ¬ occurs s text.
Proof.
  intros Hc Hn (pre & post & ->). apply Hn.
  rewrite !elem_of_app. auto.
Qed.

(** X9 at the preamble that Cargo writes, which has no opening bracket. *)
Lemma X9_no_package_header_witness :
  ¬ occurs (lit "[[package]]") cargo_preamble
  ∧ run (CargoV2.main 4 cargo_preamble)
    = Outcome [] (no_packages_message ++ [nl]) 1.
Proof.
  assert (¬ occurs (lit "[[package]]") cargo_preamble) as H.
  { apply (occurs_elem_of open_bracket).
    - apply (bool_decide_unpack _). vm_compute. exact I.
    - apply (bool_decide_unpack _). vm_compute. exact I. }
  split; [exact H|].
  exact (proj1 (proj2 (proj2 (X9_no_package_header 4 38 cargo_preamble H)))).
Defined.

(** ** The two scripts find the same blocks *)

Lemma pos_eq_refl (st : mstate) : pos_eq st st.
Proof. by split. Qed.

Lemma pos_eq_sym (st1 st2 : mstate) : pos_eq st1 st2 → pos_eq st2 st1.
Proof. unfold pos_eq. by intros [-> ->]. Qed.

Lemma pos_eq_trans (st1 st2 st3 : mstate) :
  pos_eq st1 st2 → pos_eq st2 st3 → pos_eq st1 st3.
Proof. unfold pos_eq. by intros [-> ->] [-> ->]. Qed.

Lemma match_str_pos (l : list N) (st1 st2 : mstate) :
  pos_eq st1 st2 → Forall2 pos_eq (match_str l st1) (match_str l st2).
Proof.
  revert st1 st2. induction l as [|c l IH]; intros st1 st2 [Hb Hr]; simpl.
  - constructor; [by split | constructor].
  - rewrite Hr. destruct (ms_rest st2) as [|c' rest]; [constructor|].
    destruct (c =? c')%N; [|constructor]. by apply IH.
Qed.

Lemma star_loop_pos (step1 step2 : mstate → list mstate) :
  (∀ st1 st2, pos_eq st1 st2 → Forall2 pos_eq (step1 st1) (step2 st2)) →
  ∀ fuel st1 st2,
    pos_eq st1 st2 →
    Forall2 pos_eq (star_loop step1 fuel st1) (star_loop step2 fuel st2).
Proof.
  intros Hstep. induction fuel as [|fuel IH]; intros st1 st2 Hpos.
  - simpl. by constructor.
  - rewrite !star_loop_S. apply Forall2_app; [|by constructor].
    apply Forall2_bind. eapply Forall2_impl; [by apply Hstep|].
    intros a b Hab. cbv beta.
    destruct Hpos as [_ Hr], Hab as [Hb' Hr']. rewrite Hr, Hr'.
    destruct (_ <? _)%nat; [|constructor]. apply IH. by split.
Qed.

Lemma rmatch_erase (r : regex) (st1 st2 : mstate) :
  pos_eq st1 st2 → Forall2 pos_eq (rmatch r st1) (rmatch (erase r) st2).
Proof.
  revert st1 st2.
  induction r as [l|p| | |r1 IH1 r2 IH2|r1 IH1 r2 IH2|r IH|r IH|n r IH];
    intros st1 st2 Hpos; cbn [erase].
  - by apply match_str_pos.
  - cbn [rmatch]. destruct Hpos as [Hb Hr]. rewrite Hr.
    destruct (ms_rest st2) as [|c rest]; [constructor|].
    destruct (p c); [|constructor]. constructor; [by split | constructor].
  - cbn [rmatch]. destruct Hpos as [Hb Hr]. rewrite Hb.
    destruct (ms_bol st2) eqn:E; [|constructor].
    constructor; [split; congruence | constructor].
  - cbn [rmatch]. destruct Hpos as [Hb Hr]. rewrite Hr.
    destruct (ms_rest st2) as [|c rest] eqn:E.
    + constructor; [split; congruence | constructor].
    + destruct (c =? nl)%N; [|constructor].
      constructor; [split; congruence | constructor].
  - rewrite !rmatch_Seq. apply Forall2_bind.
    eapply Forall2_impl; [by apply IH1|]. intros a b Hab. by apply IH2.
  - rewrite !rmatch_Alt. apply Forall2_app; [by apply IH1 | by apply IH2].
  - rewrite !rmatch_Star. destruct Hpos as [Hb Hr]. rewrite Hr.
    apply star_loop_pos; [done | by split].
  - rewrite !rmatch_Plus. apply Forall2_bind.
    eapply Forall2_impl; [by apply IH|]. intros a b [Hb' Hr']. cbv beta.
    rewrite Hr'. apply star_loop_pos; [done | by split].
  - rewrite rmatch_Grp. apply Forall2_fmap_l.
    eapply Forall2_impl; [by apply IH|]. intros a b Hab. apply Hab.
Qed.

Lemma rmatch_same_erase (r1 r2 : regex) (st1 st2 : mstate) :
  erase r1 = erase r2 → pos_eq st1 st2 →
  Forall2 pos_eq (rmatch r1 st1) (rmatch r2 st2).
Proof.
  intros He Hpos.
  pose proof (rmatch_erase r1 st1 st2 Hpos) as H1.
  pose proof (rmatch_erase r2 st2 st2 (pos_eq_refl st2)) as H2.
  rewrite He in H1.
  apply (proj2 (Forall2_flip _ _ _)) in H2.
  eapply Forall2_trans; [|exact H1|exact H2].
  intros a b c Hab Hcb. by apply (pos_eq_trans a b c), pos_eq_sym.
Qed.

Lemma Forall2_bind_same {A B C} (f : A → list B) (g : A → list C)
    (P : B → C → Prop) (l : list A) :
  (∀ x, x ∈ l → Forall2 P (f x) (g x)) → Forall2 P (l ≫= f) (l ≫= g).
Proof.
  intros H. apply Forall2_bind. induction l as [|x l IH]; constructor.
  - apply H. by left.
  - apply IH. intros y Hy. apply H. by right.
Qed.

Lemma Forall2_members {A B} (P : A → B → Prop) (l : list A) (k : list B) :
  Forall2 P l k → Forall2 (λ a b, P a b ∧ a ∈ l ∧ b ∈ k) l k.
Proof.
  induction 1 as [|a b l k Hab _ IH]; constructor.
  - repeat split; [done | by left | by left].
  - eapply Forall2_impl; [exact IH|]. intros a' b' (? & ? & ?).
    repeat split; [done | by right | by right].
Qed.

Lemma cap_set_group (n : nat) (st st' : mstate) :
  cap n (set_group n st st')
  = Some (take (length (ms_rest st) - length (ms_rest st')) (ms_rest st)).
Proof.
  unfold cap, set_group. cbn [ms_caps list_find fst].
  by rewrite decide_True.
Qed.

Lemma cap_set_group_ne (n k : nat) (st st' : mstate) :
  k ≠ n → cap n (set_group k st st') = cap n st'.
Proof.
  intros Hne. unfold cap, set_group. cbn [ms_caps list_find fst].
  rewrite decide_False by done.
  by destruct (list_find _ (ms_caps st')) as [[i g]|].
Qed.

Lemma cap_same_caps (n : nat) (st st' : mstate) :
  same_caps st st' → cap n st' = cap n st.
Proof. unfold same_caps, cap. by intros ->. Qed.

Lemma terminator_same_block (k1 k2 : nat) (st1 st2 : mstate) :
  k1 ≠ 1%nat → k2 ≠ 2%nat → same_block st1 st2 →
  Forall2 same_block
    (rmatch (Grp k1 terminator_re) st1) (rmatch (Grp k2 terminator_re) st2).
Proof.
  intros Hk1 Hk2 [Hpos Hcap]. rewrite !rmatch_Grp. apply Forall2_fmap.
  pose proof (rmatch_same_erase terminator_re terminator_re st1 st2
                eq_refl Hpos) as H.
  apply Forall2_members in H.
  eapply Forall2_impl; [exact H|]. intros a b (Hab & Ha & Hb). cbv beta.
  apply (rmatch_groupless terminator_re) in Ha; [|done].
  apply (rmatch_groupless terminator_re) in Hb; [|done].
  split; [apply Hab|].
  rewrite !cap_set_group_ne by done.
  by rewrite (cap_same_caps 1 st1 a), (cap_same_caps 2 st2 b).
Qed.

Lemma lines_same_block (st : mstate) :
  Forall2 same_block
    (rmatch (Seq (Str (lit "[[package]]"))
               (Seq (Star ws) (Grp 1 (Plus (line_re 2))))) st)
    (rmatch (Grp 1 (Seq (Str (lit "[[package]]"))
                      (Seq (Star ws) (Grp 2 (Plus (line_re 3)))))) st).
Proof.
  rewrite (rmatch_Grp 1). apply Forall2_fmap_r.
  rewrite !(rmatch_Seq (Str _)). apply Forall2_bind_same. intros st1 _.
  rewrite !(rmatch_Seq (Star _)). apply Forall2_bind_same. intros st2 _.
  rewrite !rmatch_Grp. apply Forall2_fmap.
  pose proof (rmatch_same_erase (Plus (line_re 2)) (Plus (line_re 3)) st2 st2
                eq_refl (pos_eq_refl st2)) as H.
  eapply Forall2_impl; [exact H|]. intros a b [Hb Hr]. cbv beta.
  unfold compose. split; [by split|].
  rewrite cap_set_group, cap_set_group_ne, cap_set_group by done.
  by rewrite Hr.
Qed.

Lemma block_re_same_block (st : mstate) :
  Forall2 same_block
    (rmatch Cargo2Ports.block_re st) (rmatch CargoV2.block_re st).
Proof.
  unfold Cargo2Ports.block_re, CargoV2.block_re.
  change (Alt (Seq Bol (Seq (Star ws) (Str [nl]))) Eol) with terminator_re.
  change (Grp 2 (Seq (Plus dot) (Str [nl]))) with (line_re 2).
  change (Grp 3 (Seq (Plus dot) (Str [nl]))) with (line_re 3).
  assert (rmatch
            (Seq (Str (lit "[[package]]"))
               (Seq (Star ws)
                  (Seq (Grp 1 (Plus (line_re 2))) (Grp 3 terminator_re)))) st
          = rmatch
              (Seq (Seq (Str (lit "[[package]]"))
                      (Seq (Star ws) (Grp 1 (Plus (line_re 2)))))
                 (Grp 3 terminator_re)) st) as ->.
  { apply rmatch_Seq_assoc. }
  rewrite (rmatch_Seq (Seq _ _)), (rmatch_Seq (Grp 1 _)).
  apply Forall2_bind.
  eapply Forall2_impl; [apply lines_same_block|].
  intros a b Hab. by apply terminator_same_block.
Qed.

Lemma match_at_same_match (b : bool) (s : list N) :
  option_Forall2 same_match
    (match_at Cargo2Ports.block_re b s) (match_at CargoV2.block_re b s).
Proof.
  unfold match_at.
  destruct (block_re_same_block (MState b s [])) as [|st1 st2 l1 l2 H _];
    constructor.
  split; [done|]. split; [|done]. cbn [m_text].
  destruct H as [[_ ->] _]. done.
Qed.

Lemma search_from_same_match (s : list N) (b : bool) :
  option_Forall2 same_match
    (search_from Cargo2Ports.block_re b s) (search_from CargoV2.block_re b s).
Proof.
  revert b. induction s as [|c s IH]; intros b; cbn [search_from].
  - destruct (match_at_same_match b []); by constructor.
  - destruct (match_at_same_match b (c :: s)) as [m1 m2 H|];
      [by constructor|].
    destruct (IH (c =? nl)%N) as [m1 m2 (Hp & Ht & He)|]; constructor.
    unfold skip, same_match. cbn [m_pre m_text m_end]. by rewrite Hp.
Qed.

Lemma finditer_from_same_match (fuel : nat) (b : bool) (s : list N) :
  Forall2 same_match
    (finditer_from fuel Cargo2Ports.block_re b s)
    (finditer_from fuel CargoV2.block_re b s).
Proof.
  revert b s. induction fuel as [|fuel IH]; intros b s; [constructor|].
  rewrite !finditer_from_S.
  destruct (search_from_same_match s b) as [m1 m2 (Hp & Ht & He)|];
    [|constructor].
  constructor; [done|]. rewrite Ht.
  destruct (m_text m2); [constructor|].
  destruct He as [[-> ->] _]. apply IH.
Qed.

Lemma finditer_same_blocks (text : list N) :
  Cargo2Ports.groups_0 <$> finditer Cargo2Ports.block_re text
  = CargoV2.groups_1 <$> finditer CargoV2.block_re text.
Proof.
  unfold finditer.
  pose proof (finditer_from_same_match (S (length text)) true text) as H.
  induction H as [|m1 m2 l1 l2 (_ & _ & _ & Hcap) _ IH]; [done|].
  rewrite !fmap_cons, IH. f_equal.
  unfold Cargo2Ports.groups_0, CargoV2.groups_1.
  change (group 1 m1) with (cap 1 (m_end m1)).
  change (group 2 m2) with (cap 2 (m_end m2)).
  by rewrite Hcap.
Qed.

Lemma get_packages_of_blocks (text : list N) :
  Cargo2Ports.get_packages text
  = Cargo2Ports.parse_package_block <$> CargoV2.get_package_blocks text.
Proof.
  rewrite get_packages_fmap, get_package_blocks_fmap.
  rewrite <- finditer_same_blocks. by rewrite <- list_fmap_compose.
Qed.

(** X10: on every text the two scripts find the same package blocks, group 1
    of the one pattern being group 2 of the other at each match, so that the
    records of cargo2ports.py are those of the blocks of
    cargoV2forports.py. *)
Theorem X10_same_blocks (text : list N) :
  Cargo2Ports.groups_0 <$> finditer Cargo2Ports.block_re text
  = CargoV2.get_package_blocks text
  ∧ Cargo2Ports.get_packages text
    = Cargo2Ports.parse_package_block <$> CargoV2.get_package_blocks text.
Proof.
  split; [|apply get_packages_of_blocks].
  by rewrite get_package_blocks_fmap, finditer_same_blocks.
Qed.

(** ** When the two scripts print the same *)

Lemma v2_parse_first_line (b : list N) :
  first_line_pair b = true →
  CargoV2.parse_package_block b = Ok (Cargo2Ports.parse_package_block b).
Proof.
  unfold first_line_pair. intros H.
  destruct (split nl b) as [|first rest] eqn:Hs; [done|].
  by apply (v2_parse_package_block_ok b first rest).
Qed.

Lemma v2_parse_no_first_line (b : list N) :
  first_line_pair b = false →
  CargoV2.parse_package_block b = Raise (UnboundLocalError "v").
Proof.
  unfold first_line_pair, CargoV2.parse_package_block. intros H.
  destruct (split nl b) as [|first rest] eqn:Hs; simpl in *.
  - pose proof (split_no_sep nl b) as Hn. destruct b; simpl in Hs; [done|].
    destruct (_ =? _)%N; [done|]. by destruct (split nl b).
  - by rewrite H.
Qed.

Lemma v2_stanza_loop_unparsed (cfg : config) (b : list N)
    (blocks : list (list N)) (e : exn) :
  b ∈ blocks →
  CargoV2.parse_package_block b = Raise e →
  ∀ num_blocks count output,
    ∃ e', CargoV2.stanza_loop cfg num_blocks count blocks output = Raise e'.
Proof.
  intros Hin Hb. induction blocks as [|b' blocks IH]; [by inv Hin|].
  intros num_blocks count output. cbn [CargoV2.stanza_loop].
  apply elem_of_cons in Hin as [<-|Hin].
  - rewrite Hb. by eexists.
  - destruct (CargoV2.parse_package_block b') as [pkg|]; cbn [Py.bind];
      [|by eexists].
    destruct (pkg !! lit "checksum"); [|by apply IH].
    destruct (get_crate_line cfg pkg); cbn [Py.bind]; [|by eexists].
    by apply IH.
Qed.

Lemma v2_main_agrees (indent : Z) (text : list N) :
  Cargo2Ports.is_v1_lockfile text = false →
  Forall (λ b, first_line_pair b = true) (CargoV2.get_package_blocks text) →
  CargoV2.main indent text = Cargo2Ports.main indent 38 text.
Proof.
  intros Hv1 Hall. unfold CargoV2.main, Cargo2Ports.main.
  rewrite Hv1, get_packages_of_blocks.
  set (blocks := CargoV2.get_package_blocks text) in *.
  assert (Forall2 (λ b pkg, CargoV2.parse_package_block b = Ok pkg) blocks
            (Cargo2Ports.parse_package_block <$> blocks)) as Hparsed.
  { apply Forall2_fmap_r, Forall_Forall2_diag.
    eapply Forall_impl; [exact Hall|]. intros b Hb.
    by apply v2_parse_first_line. }
  rewrite (v2_generate_parsed _ _ _ Hparsed).
  by destruct blocks.
Qed.

(** X11: on a text that is not in the legacy format, cargoV2forports.py
    does what cargo2ports.py does with a field width of 38 when the first
    line of every block has an equals sign; when some block has a first
    line without one, cargoV2forports.py dies of an exception with status 1
    and an empty standard output. *)
Theorem X11_drivers_agree (indent : Z) (text : list N) :
  Cargo2Ports.is_v1_lockfile text = false →
  (Forall (λ b, first_line_pair b = true) (CargoV2.get_package_blocks text) →
   CargoV2.main indent text = Cargo2Ports.main indent 38 text)
  ∧ (Exists (λ b, first_line_pair b = false)
       (CargoV2.get_package_blocks text) →
     ∃ e, run (CargoV2.main indent text) = Outcome [] (traceback e) 1).
Proof.
  intros Hv1. split; [by apply v2_main_agrees|].
  intros (b & Hin & Hb)%Exists_exists.
  apply v2_parse_no_first_line in Hb.
  unfold CargoV2.main.
  destruct (CargoV2.get_package_blocks text) as [|b' blocks] eqn:E;
    [by inv Hin|].
  unfold CargoV2.generate_crates_stanza.
  destruct (v2_stanza_loop_unparsed
              {| STANZA_INDENT := indent;
                 STANZA_FIELD_WIDTH := STANZA_FIELD_WIDTH default_config |}
              b (b' :: blocks) _ Hin Hb
              (len_list (b' :: blocks)) 0 [declaration]) as [e He].
  rewrite He. cbn [Py.bind]. exists e.
  apply v2_stanza_loop_raise in He.
  apply run_raise. by destruct He as [->|[->| ->]].
Qed.

(** X11 at the two sample tables. *)
Lemma X11_drivers_agree_witness :
  Cargo2Ports.is_v1_lockfile foo_bar_lock = false
  ∧ CargoV2.main 4 foo_bar_lock = Cargo2Ports.main 4 38 foo_bar_lock.
Proof.
  assert (Cargo2Ports.is_v1_lockfile foo_bar_lock = false) as Hv1
    by (vm_compute; reflexivity).
  assert (CargoV2.get_package_blocks foo_bar_lock = [foo_body; bar_body])
    as Hb by (vm_compute; reflexivity).
  assert (Forall (λ b, first_line_pair b = true)
            (CargoV2.get_package_blocks foo_bar_lock)) as Hall.
  { rewrite Hb.
    apply Forall_cons_2; [vm_compute; reflexivity|].
    apply Forall_cons_2; [vm_compute; reflexivity|]. apply Forall_nil_2. }
  split; [exact Hv1|].
  exact (proj1 (X11_drivers_agree 4 foo_bar_lock Hv1) Hall).
Defined.

(** ** The shape of a block *)

Lemma skips_refl (P : list N → Prop) : P [] → Reflexive (skips P).
Proof. intros H st. by exists []. Qed.

Lemma skips_trans (P : list N → Prop) :
  (∀ l1 l2, P l1 → P l2 → P (l1 ++ l2)) → Transitive (skips P).
Proof.
  intros H st1 st2 st3 (l1 & H1 & E1) (l2 & H2 & E2).
  exists (l1 ++ l2). split; [by apply H|]. by rewrite E1, E2, app_assoc.
Qed.

Lemma lines_text_app (ls1 ls2 : list (list N)) :
  lines_text (ls1 ++ ls2) = lines_text ls1 ++ lines_text ls2.
Proof. unfold lines_text. apply bind_app. Qed.

Lemma rmatch_dot_skips (st st' : mstate) :
  st' ∈ rmatch dot st →
  ∃ c, c ≠ nl ∧ ms_rest st = c :: ms_rest st'.
Proof.
  unfold dot. cbn [rmatch]. destruct (ms_rest st) as [|c rest]; [by inv 1|].
  destruct (c =? nl)%N eqn:E; cbn [negb]; [by inv 1|].
  intros ->%list_elem_of_singleton. exists c. split; [|done].
  by apply N.eqb_neq.
Qed.

Lemma plus_dot_skips (st st' : mstate) :
  st' ∈ rmatch (Plus dot) st →
  ∃ l, l ≠ [] ∧ (nl ∉ l) ∧ ms_rest st = l ++ ms_rest st'.
Proof.
  rewrite rmatch_Plus. intros (st1 & Hloop & H1)%list_elem_of_bind.
  apply rmatch_dot_skips in H1 as (c & Hc & E1).
  assert (skips no_newline st1 st') as (l & Hl & E2).
  { pose proof (skips_refl no_newline (not_elem_of_nil nl)).
    assert (Transitive (skips no_newline)).
    { apply skips_trans. intros l1 l2 ? ?. unfold no_newline in *.
      rewrite elem_of_app. tauto. }
    apply (star_loop_closure (skips no_newline) (rmatch dot)) in Hloop;
      [done|].
    intros a b (c' & Hc' & E)%rmatch_dot_skips. exists [c'].
    split; [|done]. unfold no_newline. rewrite list_elem_of_singleton.
    congruence. }
  exists (c :: l). split; [done|]. split.
  - rewrite elem_of_cons. intros [?|?]; [congruence | done].
  - by rewrite E1, E2.
Qed.

Lemma line_re_skips (n : nat) (st st' : mstate) :
  st' ∈ rmatch (line_re n) st →
  ∃ l, body_line l ∧ ms_rest st = (l ++ [nl]) ++ ms_rest st'.
Proof.
  unfold line_re. rewrite rmatch_Grp.
  intros (st2 & -> & H2)%list_elem_of_fmap.
  rewrite rmatch_Seq in H2. apply list_elem_of_bind in H2 as (st1 & H1 & H2).
  rewrite rmatch_Str in H1. apply match_str_inv in H1 as [E1 _].
  apply plus_dot_skips in H2 as (l & Hne & Hnl & E2).
  exists l. split; [by split|]. cbn [set_group ms_rest].
  by rewrite E2, E1, <- app_assoc.
Qed.

Lemma plus_lines_skips (n : nat) (st st' : mstate) :
  st' ∈ rmatch (Plus (line_re n)) st →
  ∃ ls, ls ≠ [] ∧ Forall body_line ls
        ∧ ms_rest st = lines_text ls ++ ms_rest st'.
Proof.
  rewrite rmatch_Plus. intros (st1 & Hloop & H1)%list_elem_of_bind.
  apply line_re_skips in H1 as (l & Hl & E1).
  assert (skips some_lines st1 st') as (t & (ls & Hls & ->) & E2).
  { assert (Reflexive (skips some_lines)).
    { apply skips_refl. exists []. by split. }
    assert (Transitive (skips some_lines)).
    { apply skips_trans. intros t1 t2 (ls1 & H1 & ->) (ls2 & H2 & ->).
      exists (ls1 ++ ls2). split; [by apply Forall_app|].
      by rewrite lines_text_app. }
    apply (star_loop_closure (skips some_lines) (rmatch (line_re n)))
      in Hloop; [done|].
    intros a b (l' & Hl' & E)%line_re_skips. exists (l' ++ [nl]).
    split; [|done]. exists [l']. split; [by constructor|].
    unfold lines_text. by rewrite bind_singleton. }
  exists (l :: ls). split; [done|]. split; [by constructor|].
  rewrite E1, E2. unfold lines_text. rewrite bind_cons.
  by rewrite <- !app_assoc.
Qed.

Lemma v2_block_re_shape (st st' : mstate) :
  st' ∈ rmatch CargoV2.block_re st →
  ∃ ls, ls ≠ [] ∧ Forall body_line ls ∧ cap 2 st' = Some (lines_text ls).
Proof.
  unfold CargoV2.block_re.
  change (Alt (Seq Bol (Seq (Star ws) (Str [nl]))) Eol) with terminator_re.
  change (Grp 3 (Seq (Plus dot) (Str [nl]))) with (line_re 3).
  rewrite rmatch_Seq. intros (st1 & Hin & H1)%list_elem_of_bind.
  rewrite rmatch_Grp in Hin, H1.
  apply list_elem_of_fmap in Hin as (st4 & -> & H4).
  apply list_elem_of_fmap in H1 as (st1' & -> & H1).
  rewrite rmatch_Seq in H1. apply list_elem_of_bind in H1 as (st2 & H1 & _).
  rewrite rmatch_Seq in H1. apply list_elem_of_bind in H1 as (st3 & H1 & _).
  rewrite rmatch_Grp in H1.
  apply list_elem_of_fmap in H1 as (st3' & -> & H3).
  apply plus_lines_skips in H3 as (ls & Hne & Hls & E).
  apply (rmatch_groupless terminator_re) in H4; [|done].
  exists ls. split; [done|]. split; [done|].
  rewrite cap_set_group_ne by done.
  rewrite (cap_same_caps 2 _ _ H4).
  rewrite cap_set_group_ne, cap_set_group by done.
  f_equal. rewrite E, length_app.
  replace (length (lines_text ls) + length (ms_rest st3')
           - length (ms_rest st3'))%nat
    with (length (lines_text ls)) by lia.
  apply take_app_length.
Qed.

(** X12: on every text, each block that the scripts find is made of one or
    more lines, each of them not empty and followed by its newline; the
    records of cargo2ports.py are the records of these lines. *)
Theorem X12_block_shape (text : list N) :
  ∃ tables : list (list (list N)),
    Forall (λ ls, ls ≠ [] ∧ Forall body_line ls) tables
    ∧ CargoV2.get_package_blocks text = lines_text <$> tables
    ∧ Cargo2Ports.get_packages text = block_record <$> tables.
Proof.
  assert (∃ tables : list (list (list N)),
            Forall (λ ls, ls ≠ [] ∧ Forall body_line ls) tables
            ∧ CargoV2.get_package_blocks text = lines_text <$> tables)
    as (tables & Htables & Hblocks).
  { rewrite get_package_blocks_fmap.
    assert (Forall (λ m, ∃ bol s,
                      m_end m ∈ rmatch CargoV2.block_re (MState bol s []))
              (finditer CargoV2.block_re text)) as H.
    { apply Forall_forall. intros m Hm.
      by apply finditer_from_end in Hm. }
    induction H as [|m ms (bol & s & Hm) _ (tables & Ht & IH)].
    - by exists [].
    - apply v2_block_re_shape in Hm as (ls & Hne & Hls & Hcap).
      exists (ls :: tables). split; [by constructor|].
      rewrite !fmap_cons, IH. f_equal.
      unfold CargoV2.groups_1.
      change (group 2 m) with (cap 2 (m_end m)). by rewrite Hcap. }
  exists tables. split; [done|]. split; [done|].
  rewrite get_packages_of_blocks, Hblocks, <- list_fmap_compose.
  done.
Qed.

(** ** The tokens of a line *)

Lemma plus_ws_nonempty (b : bool) (c : N) (s : list N)
    (caps : list (nat * list N)) :
  isspace c = true → rmatch (Plus ws) (MState b (c :: s) caps) ≠ [].
Proof.
  intros Hc. rewrite rmatch_Plus, rmatch_ws_step by done.
  rewrite bind_singleton, star_loop_S. by destruct (_ ≫= _).
Qed.

Lemma match_at_ws_None (b : bool) (c : N) (s : list N) :
  match_at (Plus ws) b (c :: s) = None → isspace c = false.
Proof.
  unfold match_at. destruct (isspace c) eqn:Hc; [|done].
  pose proof (plus_ws_nonempty b c s [] Hc) as H.
  by destruct (rmatch (Plus ws) (MState b (c :: s) [])).
Qed.

Lemma match_at_pre (r : regex) (b : bool) (s : list N) (m : rematch) :
  match_at r b s = Some m → m_pre m = [].
Proof.
  unfold match_at. destruct (rmatch r (MState b s [])); [done|].
  by intros [= <-].
Qed.

Lemma search_ws_None (s : list N) (b : bool) :
  search_from (Plus ws) b s = None → no_ws s.
Proof.
  revert b. induction s as [|c s IH]; intros b; [by constructor|].
  cbn [search_from].
  destruct (match_at (Plus ws) b (c :: s)) eqn:Hm; [done|].
  destruct (search_from (Plus ws) (c =? nl)%N s) eqn:Hs; [done|].
  intros _. constructor; [by apply match_at_ws_None in Hm | by eapply IH].
Qed.

Lemma search_ws_pre (s : list N) (b : bool) (m : rematch) :
  search_from (Plus ws) b s = Some m → no_ws (m_pre m).
Proof.
  revert b m. induction s as [|c s IH]; intros b m; cbn [search_from].
  - destruct (match_at (Plus ws) b []) eqn:Hm; [|done].
    intros [= <-]. apply match_at_pre in Hm as ->. constructor.
  - destruct (match_at (Plus ws) b (c :: s)) eqn:Hm.
    + intros [= <-]. apply match_at_pre in Hm as ->. constructor.
    + destruct (search_from (Plus ws) (c =? nl)%N s) as [m'|] eqn:Hs;
        [|done].
      intros [= <-]. cbn [skip m_pre].
      constructor; [by apply match_at_ws_None in Hm | by eapply IH].
Qed.

Lemma last_cons_from_option {A B} (f : A → B) (d : B) (x : A) (l : list A) :
  from_option f d (last (x :: l)) = from_option f (f x) (last l).
Proof.
  destruct l as [|y l]; [done|]. rewrite last_cons_cons.
  destruct (last (y :: l)) eqn:E; [done|]. by apply last_None in E.
Qed.

Lemma finditer_ws_tokens (fuel : nat) (b : bool) (s : list N) :
  (length s < fuel)%nat →
  let ms := finditer_from fuel (Plus ws) b s in
  Forall no_ws (m_pre <$> ms)
  ∧ no_ws (from_option (λ m, ms_rest (m_end m)) s (last ms)).
Proof.
  revert b s. induction fuel as [|fuel IH]; intros b s Hlt; [lia|].
  cbv zeta. rewrite finditer_from_consuming by done.
  destruct (search_from (Plus ws) b s) as [m|] eqn:Hs.
  - pose proof (search_from_consuming (Plus ws) _ _ _ eq_refl Hs) as Hne.
    pose proof (search_from_progress _ _ _ _ Hs Hne) as Hlt'.
    destruct (IH (ms_bol (m_end m)) (ms_rest (m_end m))) as [IH1 IH2];
      [lia|].
    rewrite fmap_cons, last_cons_from_option. split; [|done].
    constructor; [by eapply search_ws_pre | done].
  - split; [constructor|]. by eapply search_ws_None.
Qed.

Lemma tokens_of_no_ws (line : list N) : Forall no_ws (tokens_of line).
Proof.
  unfold tokens_of, re_split, Cargo2Ports.token_sep_re, finditer.
  destruct (finditer_ws_tokens (S (length line)) true line) as [H1 H2];
    [lia|].
  apply Forall_app. split; [done|]. by constructor.
Qed.

Lemma no_ws_strip_string (t : list N) : no_ws t → no_ws (strip_string t).
Proof.
  unfold no_ws. rewrite !Forall_forall. intros H c Hc.
  by apply H, (strip_string_subseteq t).
Qed.

Lemma no_ws_lookup_total (tokens : list (list N)) (i : nat) :
  Forall no_ws tokens → no_ws (tokens !!! i).
Proof.
  intros H. destruct (tokens !! i) as [t|] eqn:E.
  - rewrite (list_lookup_total_correct _ _ _ E).
    by eapply Forall_lookup_1.
  - rewrite list_lookup_total_alt, E. constructor.
Qed.

Lemma metadata_package_no_ws (tokens : list (list N)) :
  Forall no_ws tokens →
  ∀ key value,
    Cargo2Ports.metadata_package tokens !! key = Some value → no_ws value.
Proof.
  intros Htok key value. unfold Cargo2Ports.metadata_package.
  assert (∀ i, no_ws ((strip_string <$> tokens) !!! i)) as Hi.
  { intros i. apply no_ws_lookup_total, Forall_fmap.
    eapply Forall_impl; [exact Htok|]. intros t. apply no_ws_strip_string. }
  rewrite !lookup_insert_Some, lookup_empty.
  intros [[_ <-]|[_ [[_ <-]|[_ [[_ <-]|[_ ?]]]]]]; done.
Qed.

(** X13: the tokens into which a line of the legacy section is cut have no
    whitespace in them, and so neither have the name, the version and the
    checksum of a legacy record: the fields of its rendered line are
    separated by the spaces that the program puts there and by nothing
    else. *)
Theorem X13_legacy_fields_no_whitespace (text : list N) :
  (∀ line, Forall no_ws (tokens_of line))
  ∧ Forall
      (λ pkg : gmap (list N) (list N),
         ∀ key value, pkg !! key = Some value → no_ws value)
      (Cargo2Ports.get_packages_from_metadata text).
Proof.
  split; [apply tokens_of_no_ws|].
  rewrite get_packages_from_metadata_section.
  destruct (metadata_section text) as [section|]; [|constructor].
  apply Forall_fmap, Forall_forall. intros line _. cbv beta.
  unfold compose. apply metadata_package_no_ws, tokens_of_no_ws.
Qed.

(** ** The lines of the output *)

Lemma stanza_loop_ok (cfg : config) (pkgs : list (gmap (list N) (list N))) :
  ∀ num_blocks count output out,
    Cargo2Ports.stanza_loop cfg num_blocks count pkgs output = Ok out →
    ∃ lines,
      out = output ++ lines
      ∧ Forall2 (rendered_as cfg) (filter renderable pkgs) lines.
Proof.
  induction pkgs as [|pkg pkgs IH]; intros num_blocks count output out.
  - intros [= <-]. exists []. by rewrite app_nil_r.
  - cbn [Cargo2Ports.stanza_loop]. rewrite filter_cons.
    destruct (pkg !! lit "checksum") as [ck|] eqn:Hck.
    + rewrite decide_True by (by eexists).
      destruct (get_crate_line cfg pkg) as [l|] eqn:Hl; cbn [Py.bind];
        [|done].
      intros (lines & -> & Hlines)%IH. eexists (_ :: lines).
      rewrite <- app_assoc. split; [done|]. constructor; [|done].
      exists l. split; [done|]. destruct (_ =? _); [left|right]; [|done].
      by rewrite app_nil_r.
    + rewrite decide_False by (intros [? ?]; congruence). apply IH.
Qed.

Lemma stanza_split (cfg : config) (pkgs : list (gmap (list N) (list N)))
    (stanza : list N) :
  Forall one_line_values pkgs →
  Cargo2Ports.generate_crates_stanza cfg pkgs = Ok stanza →
  ∃ lines,
    split nl stanza = declaration :: lines
    ∧ Forall2 (rendered_as cfg) (filter renderable pkgs) lines.
Proof.
  intros Hvalues. unfold Cargo2Ports.generate_crates_stanza.
  destruct (Cargo2Ports.stanza_loop _ _ _ _ _) as [out|] eqn:Hloop;
    cbn [Py.bind]; [|done].
  intros [= <-]. apply stanza_loop_ok in Hloop as (lines & -> & Hlines).
  exists lines. split; [|done].
  apply (split_join ([declaration] ++ lines)); [done|].
  apply Forall_app. split.
  - constructor; [|constructor]. apply (bool_decide_unpack _).
    vm_compute. exact I.
  - apply (Forall2_Forall_r _ _ _ _ Hlines), Forall_forall.
    intros pkg [_ Hpkg]%list_elem_of_filter line Hr.
    eapply rendered_as_no_newline; [|exact Hr].
    by eapply Forall_forall in Hvalues.
Qed.

Lemma get_packages_one_line (text : list N) :
  Forall one_line_values (Cargo2Ports.get_packages text).
Proof.
  rewrite get_packages_fmap. apply Forall_fmap, Forall_forall.
  intros m _ key value. apply parse_package_block_no_newline.
Qed.

Lemma metadata_packages_one_line (text : list N) :
  Forall one_line_values (Cargo2Ports.get_packages_from_metadata text).
Proof.
  rewrite get_packages_from_metadata_section.
  destruct (metadata_section text) as [section|]; [|constructor].
  apply Forall_fmap, Forall_forall. intros line _ key value Hv Hnl.
  apply metadata_package_no_ws in Hv; [|apply tokens_of_no_ws].
  unfold no_ws in Hv. rewrite Forall_forall in Hv.
  by specialize (Hv nl Hnl).
Qed.

Lemma v2_parse_ok (b : list N) (pkg : gmap (list N) (list N)) :
  CargoV2.parse_package_block b = Ok pkg →
  pkg = Cargo2Ports.parse_package_block b.
Proof.
  destruct (first_line_pair b) eqn:E.
  - rewrite (v2_parse_first_line b E). by intros [= <-].
  - by rewrite (v2_parse_no_first_line b E).
Qed.

Lemma v2_stanza_loop_all_parsed (cfg : config) (blocks : list (list N)) :
  ∀ num_blocks count output out,
    CargoV2.stanza_loop cfg num_blocks count blocks output = Ok out →
    Forall2 (λ b pkg, CargoV2.parse_package_block b = Ok pkg) blocks
      (Cargo2Ports.parse_package_block <$> blocks).
Proof.
  induction blocks as [|b blocks IH]; intros num_blocks count output out;
    [by constructor|].
  cbn [CargoV2.stanza_loop].
  destruct (CargoV2.parse_package_block b) as [pkg|] eqn:Hb; cbn [Py.bind];
    [|done].
  intros H. rewrite fmap_cons. constructor.
  - by rewrite <- (v2_parse_ok b pkg Hb).
  - destruct (pkg !! lit "checksum"); [|by eapply IH].
    destruct (get_crate_line cfg pkg); cbn [Py.bind] in H; [|done].
    by eapply IH.
Qed.

(** X14: whenever a stanza is produced, for whatever input, its lines are
    the declaration followed by one line for each record that has a
    checksum, in the order of the records: no value taken from the lock
    file can break a line of the output.  This holds for the records of
    both extractors of cargo2ports.py and for the blocks of
    cargoV2forports.py. *)
Theorem X14_stanza_lines (cfg : config) (contents stanza : list N) :
  (∀ packages,
     packages = Cargo2Ports.get_packages contents
     ∨ packages = Cargo2Ports.get_packages_from_metadata contents →
     Cargo2Ports.generate_crates_stanza cfg packages = Ok stanza →
     ∃ lines,
       split nl stanza = declaration :: lines
       ∧ Forall2 (rendered_as cfg) (filter renderable packages) lines)
  ∧ (CargoV2.generate_crates_stanza cfg (CargoV2.get_package_blocks contents)
     = Ok stanza →
     ∃ lines,
       split nl stanza = declaration :: lines
       ∧ Forall2 (rendered_as cfg)
           (filter renderable (Cargo2Ports.get_packages contents)) lines).
Proof.
  split.
  - intros packages Hp. apply stanza_split.
    destruct Hp as [-> | ->];
      [apply get_packages_one_line | apply metadata_packages_one_line].
  - intros Hgen.
    assert (Forall2 (λ b pkg, CargoV2.parse_package_block b = Ok pkg)
              (CargoV2.get_package_blocks contents)
              (Cargo2Ports.get_packages contents)) as Hparsed.
    { rewrite get_packages_of_blocks.
      unfold CargoV2.generate_crates_stanza in Hgen.
      destruct (CargoV2.stanza_loop _ _ _ _ _) as [out|] eqn:Hloop; [|done].
      by eapply v2_stanza_loop_all_parsed. }
    rewrite (v2_generate_parsed _ _ _ Hparsed) in Hgen.
    apply stanza_split; [apply get_packages_one_line | done].
Qed.

(** X14 at the two sample tables. *)
Lemma X14_stanza_lines_witness :
  Cargo2Ports.generate_crates_stanza default_config
    (Cargo2Ports.get_packages foo_bar_lock)
  = Ok (declaration ++ [nl] ++ foo_line ++ continuation)
  ∧ ∃ lines,
      split nl (declaration ++ [nl] ++ foo_line ++ continuation)
      = declaration :: lines.
Proof.
  assert (Cargo2Ports.generate_crates_stanza default_config
            (Cargo2Ports.get_packages foo_bar_lock)
          = Ok (declaration ++ [nl] ++ foo_line ++ continuation)) as H
    by (vm_compute; reflexivity).
  split; [exact H|].
  destruct (proj1 (X14_stanza_lines default_config foo_bar_lock _)
              (Cargo2Ports.get_packages foo_bar_lock) (or_introl eq_refl) H)
    as (lines & Hs & _).
  exists lines. exact Hs.
Defined.

(** ** A last line without its newline *)












Lemma join_cons_cons (sep x y : list N) (l : list (list N)) :
  join sep (x :: y :: l) = x ++ sep ++ join sep (y :: l).
Proof. done. Qed.







(** ** From a lock file to its stanza *)

Lemma clean_key_name : clean_key (lit "name").
Proof.
  split; [|split; [|split]];
    first [ apply (bool_decide_unpack _); vm_compute; exact I
          | intros c Hc; vm_compute in Hc; injection Hc as <-; reflexivity ].
Qed.

Lemma clean_key_version : clean_key (lit "version").
Proof.
  split; [|split; [|split]];
    first [ apply (bool_decide_unpack _); vm_compute; exact I
          | intros c Hc; vm_compute in Hc; injection Hc as <-; reflexivity ].
Qed.

Lemma clean_key_checksum : clean_key (lit "checksum").
Proof.
  split; [|split; [|split]];
    first [ apply (bool_decide_unpack _); vm_compute; exact I
          | intros c Hc; vm_compute in Hc; injection Hc as <-; reflexivity ].
Qed.

Lemma crate_pairs_clean (c : crate) :
  clean_crate c → Forall clean_pair (crate_pairs c).
Proof.
  intros (Hn & Hv & Hc). unfold crate_pairs.
  repeat apply Forall_cons_2; try apply Forall_nil_2; split; simpl;
    auto using clean_key_name, clean_key_version, clean_key_checksum.
Qed.

Lemma crate_table_record (c : crate) :
  clean_crate c → block_record (crate_table c) = crate_record c.
Proof.
  intros Hc. unfold block_record, crate_table.
  by rewrite (parse_pairs _ (crate_pairs_clean c Hc)).
Qed.

Lemma crate_table_wf (c : crate) : clean_crate c → wf_block (crate_table c).
Proof.
  intros Hc. split; [done|]. split.
  - apply Forall_fmap. eapply Forall_impl; [apply crate_pairs_clean, Hc|].
    intros p Hp. split; [|by apply pair_line_no_newline].
    rewrite pair_line_split. by destruct p.1.
  - intros ch. unfold crate_table, crate_pairs, lines_text.
    rewrite !fmap_cons, bind_cons, pair_line_split.
    cbn [fst snd]. change (lit "name") with (110%N :: lit "ame").
    rewrite <- !app_comm_cons. cbn [head]. by intros [= <-].
Qed.

Lemma crate_record_line (cfg : config) (c : crate) :
  get_crate_line cfg (crate_record c) = Ok (crate_line cfg c).
Proof.
  unfold get_crate_line, getitem, crate_record, crate_line.
  rewrite lookup_insert_ne, lookup_insert_ne, lookup_insert_eq by done.
  cbn [Py.bind].
  rewrite lookup_insert_ne, lookup_insert_eq by done. cbn [Py.bind].
  rewrite lookup_insert_eq. cbn [Py.bind]. cbv zeta.
  destruct (_ <=? 0) eqn:E.
  - apply Z.leb_le in E. rewrite Z.max_l by lia. done.
  - apply Z.leb_gt in E. rewrite Z.max_r by lia. done.
Qed.

Lemma crate_record_renderable (c : crate) : renderable (crate_record c).
Proof. unfold renderable, crate_record. rewrite lookup_insert_eq. by eexists. Qed.

Lemma crate_records_complete (cs : list crate) :
  Forall complete (crate_record <$> cs).
Proof.
  apply Forall_fmap, Forall_forall. intros c _ _. unfold crate_record.
  split.
  - rewrite lookup_insert_ne, lookup_insert_ne, lookup_insert_eq by done.
    by eexists.
  - rewrite lookup_insert_ne, lookup_insert_eq by done. by eexists.
Qed.

Lemma crate_lines (cfg : config) (cs : list crate) (lines : list (list N)) :
  Forall2 (line_of cfg) (filter renderable (crate_record <$> cs)) lines →
  lines = crate_line cfg <$> cs.
Proof.
  revert lines. induction cs as [|c cs IH]; intros lines.
  - by intros ->%Forall2_nil_inv_l.
  - rewrite fmap_cons, filter_cons.
    rewrite decide_True by apply crate_record_renderable.
    intros (l & lines' & Hl & Hlines & ->)%Forall2_cons_inv_l.
    unfold line_of in Hl. rewrite crate_record_line in Hl.
    injection Hl as <-. rewrite fmap_cons. f_equal. by apply IH.
Qed.

Lemma crates_generate (cfg : config) (init : list crate) (final : crate) :
  Cargo2Ports.generate_crates_stanza cfg (crate_record <$> init ++ [final])
  = Ok (crates_stanza cfg init final).
Proof.
  rewrite fmap_app. change (crate_record <$> [final]) with [crate_record final].
  destruct (generate_crates_stanza_snoc cfg (crate_record <$> init)
              (crate_record final)) as (lines & l & Hlines & Hl & ->).
  { apply Forall_app. split; [apply crate_records_complete|].
    apply (crate_records_complete [final]). }
  { apply crate_record_renderable. }
  unfold line_of in Hl. rewrite crate_record_line in Hl. injection Hl as <-.
  by rewrite (crate_lines cfg init lines Hlines).
Qed.

Lemma match_at_v1_None (b : bool) (s : list N) :
  (b = true → ∀ post, s ≠ lit "[metadata]" ++ post) →
  match_at Cargo2Ports.v1_re b s = None.
Proof.
  intros H. destruct (match_at Cargo2Ports.v1_re b s) as [m|] eqn:E; [|done].
  destruct (proj1 (match_at_v1_re b s)) as [Hb [post Hpost]];
    [by rewrite E|]. by destruct (H Hb post).
Qed.

Lemma search_v1_inside (l s : list N) :
  nl ∉ l →
  search_from Cargo2Ports.v1_re true s = None →
  search_from Cargo2Ports.v1_re false (l ++ nl :: s) = None.
Proof.
  intros Hl Hs. induction l as [|c l IH].
  - simpl app. rewrite search_from_miss by (by apply match_at_v1_None).
    by rewrite N.eqb_refl, Hs.
  - apply not_elem_of_cons in Hl as [Hc Hl]. rewrite <- app_comm_cons.
    rewrite search_from_miss by (by apply match_at_v1_None).
    apply N.eqb_neq in Hc. rewrite N.eqb_sym, Hc. by rewrite IH.
Qed.

Lemma search_v1_line (l s : list N) (b : bool) :
  plain_line l →
  search_from Cargo2Ports.v1_re true s = None →
  search_from Cargo2Ports.v1_re b (l ++ nl :: s) = None.
Proof.
  intros [Hl Hplain] Hs.
  assert (match_at Cargo2Ports.v1_re b (l ++ nl :: s) = None) as Hm.
  { apply match_at_v1_None. intros _ post. apply Hplain. }
  destruct l as [|c l].
  - simpl app in *. rewrite (search_from_miss _ _ _ _ Hm).
    by rewrite N.eqb_refl, Hs.
  - apply not_elem_of_cons in Hl as [Hc Hl]. rewrite <- app_comm_cons in *.
    rewrite (search_from_miss _ _ _ _ Hm).
    apply N.eqb_neq in Hc. rewrite N.eqb_sym, Hc.
    by rewrite search_v1_inside.
Qed.

Lemma search_v1_lines (ls : list (list N)) (s : list N) (b : bool) :
  Forall plain_line ls →
  (∀ b', search_from Cargo2Ports.v1_re b' s = None) →
  search_from Cargo2Ports.v1_re b (lines_text ls ++ s) = None.
Proof.
  intros Hls Hs. revert b. induction Hls as [|l ls Hl _ IH]; intros b.
  - apply Hs.
  - unfold lines_text. rewrite bind_cons, <- !app_assoc. simpl app.
    by apply search_v1_line.
Qed.

Lemma plain_header : plain_line (lit "[[package]]").
Proof.
  split; [apply (bool_decide_unpack _); vm_compute; exact I|].
  intros s post H. vm_compute in H. discriminate H.
Qed.

Lemma plain_empty : plain_line [].
Proof.
  split; [apply not_elem_of_nil|]. intros s post H. vm_compute in H.
  discriminate H.
Qed.

Lemma search_v1_blocks (bs : list (list (list N))) (b : bool) :
  Forall (Forall plain_line) bs →
  search_from Cargo2Ports.v1_re b (join [nl] (block_text <$> bs)) = None.
Proof.
  intros Hbs. revert b. induction Hbs as [|ls bs Hls _ IH]; intros b.
  - by destruct b.
  - rewrite join_blocks_cons. unfold block_text. rewrite <- app_assoc.
    rewrite <- app_comm_cons. apply search_v1_line; [apply plain_header|].
    apply search_v1_lines; [done|]. intros b'.
    destruct bs as [|ls' bs]; [by destruct b'|].
    apply (search_v1_line [] _ b' plain_empty), IH.
Qed.

Lemma search_v1_preamble (pre s : list N) (b : bool) :
  open_bracket ∉ pre →
  (∀ b', search_from Cargo2Ports.v1_re b' s = None) →
  search_from Cargo2Ports.v1_re b (pre ++ s) = None.
Proof.
  intros Hpre Hs. revert b. induction pre as [|c pre IH]; intros b; [apply Hs|].
  apply not_elem_of_cons in Hpre as [Hc Hpre]. rewrite <- app_comm_cons.
  rewrite search_from_miss; [by rewrite IH|].
  apply match_at_v1_None. intros _ post H. vm_compute in H.
  injection H as H _. by destruct Hc.
Qed.

Lemma crate_table_plain (c : crate) :
  clean_crate c → Forall plain_line (crate_table c).
Proof.
  intros Hc. unfold crate_table. apply Forall_fmap.
  pose proof (crate_pairs_clean c Hc) as Hp. unfold crate_pairs in *.
  repeat (apply Forall_cons in Hp as [? Hp]).
  repeat apply Forall_cons_2; try apply Forall_nil_2;
    (split; [by apply pair_line_no_newline|]);
    intros s post E; rewrite pair_line_split in E; vm_compute in E;
    discriminate E.
Qed.

Lemma crates_not_legacy (pre : list N) (cs : list crate) :
  open_bracket ∉ pre → Forall clean_crate cs →
  Cargo2Ports.is_v1_lockfile (lockfile_text pre (crate_table <$> cs)) = false.
Proof.
  intros Hpre Hcs. unfold Cargo2Ports.is_v1_lockfile, search, lockfile_text.
  rewrite search_v1_preamble; [done|done|]. intros b'.
  apply search_v1_blocks, Forall_fmap.
  eapply Forall_impl; [exact Hcs|]. apply crate_table_plain.
Qed.

(** X16: end to end.  For a lock file made of a preamble without an opening
    bracket and of the tables of crates that all have a name, a version and
    a checksum (values that neither begin nor end with a double quote and
    have no newline), both scripts print exactly
    the stanza of the crates: the declaration, then for each crate the
    indentation, the name, the gap, the version, the spacer and the
    checksum, each line but the last with the continuation marker; and they
    exit with status 0. *)
Theorem X16_lock_file_to_stanza (indent width : Z) (pre : list N)
    (init : list crate) (final : crate) :
  let text := lockfile_text pre (crate_table <$> init ++ [final]) in
  (open_bracket ∉ pre) →
  Forall clean_crate (init ++ [final]) →
  run (Cargo2Ports.main indent width text)
  = Outcome
      (crates_stanza {| STANZA_INDENT := indent; STANZA_FIELD_WIDTH := width |}
         init final ++ [nl]) [] 0
  ∧ run (CargoV2.main indent text)
    = Outcome
        (crates_stanza {| STANZA_INDENT := indent; STANZA_FIELD_WIDTH := 38 |}
           init final ++ [nl]) [] 0.
Proof.
  intros text Hpre Hclean.
  pose proof (crates_not_legacy pre (init ++ [final]) Hpre Hclean) as Hv1.
  fold text in Hv1.
  assert (wf_lockfile pre (crate_table <$> init ++ [final])) as Hwf.
  { split; [done|]. apply Forall_fmap.
    eapply Forall_impl; [exact Hclean|]. apply crate_table_wf. }
  destruct (get_packages_wf_lockfile _ _ Hwf) as [Hpk Hbl].
  fold text in Hpk, Hbl.
  assert (Cargo2Ports.get_packages text = crate_record <$> init ++ [final])
    as Hrec.
  { rewrite Hpk, <- list_fmap_compose. apply Forall_fmap_ext_1.
    eapply Forall_impl; [exact Hclean|]. intros c Hc.
    by apply crate_table_record. }
  assert (∀ w, run (Cargo2Ports.main indent w text)
               = Outcome
                   (crates_stanza
                      {| STANZA_INDENT := indent; STANZA_FIELD_WIDTH := w |}
                      init final ++ [nl]) [] 0) as Hrun.
  { intros w. unfold Cargo2Ports.main. rewrite Hv1, Hrec.
    destruct (crate_record <$> init ++ [final]) as [|pkg pkgs] eqn:E.
    { apply (f_equal length) in E. rewrite length_fmap, length_app in E.
      simpl in E. lia. }
    apply run_print_stanza. rewrite <- E. apply crates_generate. }
  split; [apply Hrun|].
  rewrite (v2_main_agrees indent text Hv1); [apply Hrun|].
  rewrite Hbl. apply Forall_fmap, Forall_fmap, Forall_forall.
  intros c Hc. cbv beta. unfold compose, first_line_pair.
  eapply Forall_forall in Hclean; [|exact Hc].
  rewrite split_lines_text.
  - unfold crate_table, crate_pairs. rewrite !fmap_cons. cbn [hd app].
    rewrite pair_line_split. apply contains_app_sep.
  - apply Forall_fmap. eapply Forall_impl; [apply crate_pairs_clean, Hclean|].
    intros p. apply pair_line_no_newline.
Qed.

(** X16 at the crates foo and bar after the preamble that Cargo writes. *)
Lemma X16_lock_file_to_stanza_witness :
  let foo := Crate (lit "foo") (lit "1.0") (lit "abc123") in
  let bar := Crate (lit "bar") (lit "2.0") (lit "def456") in
  (open_bracket ∉ cargo_preamble)
  ∧ Forall clean_crate ([foo] ++ [bar])
  ∧ run (Cargo2Ports.main 4 38
           (lockfile_text cargo_preamble (crate_table <$> [foo] ++ [bar])))
    = Outcome
        (crates_stanza {| STANZA_INDENT := 4; STANZA_FIELD_WIDTH := 38 |}
           [foo] bar ++ [nl]) [] 0.
Proof.
  intros foo bar.
  assert (open_bracket ∉ cargo_preamble) as Hpre
    by (apply (bool_decide_unpack _); vm_compute; exact I).
  assert (Forall clean_crate ([foo] ++ [bar])) as Hclean.
  { apply Forall_cons_2; [|apply Forall_cons_2; [|apply Forall_nil_2]];
      (split; [|split]);
      (split; [apply (bool_decide_unpack _); vm_compute; exact I|];
       split; discriminate). }
  split; [exact Hpre|]. split; [exact Hclean|].
  exact (proj1 (X16_lock_file_to_stanza 4 38 cargo_preamble [foo] bar
                  Hpre Hclean)).
Defined.

(** ** From a legacy lock file to its stanza *)

Lemma rmatch_plus_ws_stuck (st : mstate) :
  not_ws_start (ms_rest st) → rmatch (Plus ws) st = [].
Proof. intros H. by rewrite rmatch_Plus, rmatch_ws_stuck. Qed.

Lemma match_at_ws_stuck (b : bool) (s : list N) :
  not_ws_start s → match_at (Plus ws) b s = None.
Proof. intros H. unfold match_at. by rewrite rmatch_plus_ws_stuck. Qed.

Lemma no_ws_start (t s : list N) :
  no_ws t → not_ws_start s → not_ws_start (t ++ s).
Proof.
  intros Ht Hs. destruct Ht as [|c t Hc _]; [done|].
  intros c'. simpl. by intros [= <-].
Qed.

Lemma search_ws_word (t : list N) (b : bool) :
  no_ws t → search_from (Plus ws) b t = None.
Proof.
  intros Ht. revert b. induction Ht as [|c t Hc Ht IH]; intros b.
  - cbn [search_from]. by rewrite match_at_ws_stuck.
  - rewrite search_from_miss, IH; [done|].
    apply match_at_ws_stuck. intros c'. simpl. by intros [= <-].
Qed.

Lemma match_at_space (b : bool) (rest : list N) :
  not_ws_start rest →
  match_at (Plus ws) b (space :: rest)
  = Some (ReMatch [] [space] (MState false rest [])).
Proof.
  intros Hrest. unfold match_at.
  rewrite rmatch_Plus, rmatch_ws_step by done. rewrite bind_singleton.
  rewrite star_loop_stuck by (by apply rmatch_ws_stuck).
  cbn [ms_rest length]. do 3 f_equal.
  replace (S (length rest) - length rest)%nat with 1%nat by lia. done.
Qed.

Lemma search_ws_sep (t rest : list N) (b : bool) :
  no_ws t → not_ws_start rest →
  search_from (Plus ws) b (t ++ space :: rest)
  = Some (ReMatch t [space] (MState false rest [])).
Proof.
  intros Ht Hrest. revert b. induction Ht as [|c t Hc Ht IH]; intros b.
  - apply search_from_hit. by apply match_at_space.
  - rewrite <- app_comm_cons, search_from_miss, IH; [done|].
    apply match_at_ws_stuck. intros c'. simpl. by intros [= <-].
Qed.

Lemma word_start (t : list N) (ts : list (list N)) :
  word t → not_ws_start (join [space] (t :: ts)).
Proof.
  intros [Hne Ht]. destruct Ht as [|c t Hc _]; [done|].
  intros c'. destruct ts; simpl; by intros [= <-].
Qed.

Lemma finditer_ws_join (ts : list (list N)) :
  Forall word ts →
  ∀ t fuel b,
    word t →
    (length (join [space] (t :: ts)) < fuel)%nat →
    let text := join [space] (t :: ts) in
    let ms := finditer_from fuel (Plus ws) b text in
    (m_pre <$> ms) ++ [from_option (λ m, ms_rest (m_end m)) text (last ms)]
    = t :: ts.
Proof.
  induction 1 as [|t2 ts Ht2 _ IH]; intros t fuel b Ht Hfuel; cbv zeta.
  - destruct fuel as [|fuel]; [lia|]. rewrite finditer_from_S.
    simpl join. by rewrite search_ws_word by apply Ht.
  - destruct fuel as [|fuel]; [lia|].
    rewrite join_cons_cons in Hfuel |- *.
    pose proof (word_start t2 ts Ht2) as Hstart.
    set (rest := join [space] (t2 :: ts)) in *.
    change ([space] ++ rest) with (space :: rest) in *.
    rewrite finditer_from_S, search_ws_sep by (apply Ht || done).
    cbn [m_text m_end ms_bol ms_rest].
    rewrite fmap_cons, last_cons_from_option. cbn [m_pre m_end ms_rest].
    rewrite <- app_comm_cons. f_equal.
    apply (IH t2 fuel false Ht2). fold rest.
    rewrite length_app in Hfuel. simpl in Hfuel. lia.
Qed.

Lemma tokens_of_join (ts : list (list N)) :
  ts ≠ [] → Forall word ts → tokens_of (join [space] ts) = ts.
Proof.
  intros Hne Hts. destruct Hts as [|t ts Ht Hts]; [done|].
  unfold tokens_of, re_split, Cargo2Ports.token_sep_re, finditer.
  exact (finditer_ws_join ts Hts t _ true Ht (Nat.lt_succ_diag_r _)).
Qed.

Lemma no_ws_app (s t : list N) : no_ws s → no_ws t → no_ws (s ++ t).
Proof. intros. by apply Forall_app. Qed.

Lemma legacy_tokens_words (item : crate * list N) :
  legacy_crate item → Forall word (legacy_tokens item).
Proof.
  intros ([Hn1 Hn2] & _ & [Hv1 Hv2] & _ & Hs & Hc & _).
  unfold legacy_tokens.
  repeat apply Forall_cons_2; try apply Forall_nil_2; split; try done.
  - by repeat constructor.
  - repeat apply no_ws_app; try done; by repeat constructor.
  - by repeat constructor.
  - repeat apply no_ws_app; try done; by repeat constructor.
Qed.

Lemma legacy_entry_line (item : crate * list N) :
  entry_line (legacy_entry item) = join [space] (legacy_tokens item).
Proof. done. Qed.

Lemma no_ws_no_newline (t : list N) : no_ws t → nl ∉ t.
Proof.
  unfold no_ws. rewrite Forall_forall. intros H Hnl.
  by specialize (H nl Hnl).
Qed.

Lemma no_ws_join (ts : list (list N)) :
  Forall word ts → nl ∉ join [space] ts.
Proof.
  induction 1 as [|t ts [_ Ht] Hts IH]; [apply not_elem_of_nil|].
  destruct ts as [|t2 ts]; [by apply no_ws_no_newline|].
  rewrite join_cons_cons, !elem_of_app, list_elem_of_singleton.
  intros [?|[?|?]]; [by apply (no_ws_no_newline t) | done | done].
Qed.

Lemma legacy_entry_wf (item : crate * list N) :
  legacy_crate item → wf_entry (legacy_entry item).
Proof.
  intros Hitem. pose proof (legacy_tokens_words item Hitem) as Hw.
  unfold legacy_tokens in Hw. apply Forall_cons in Hw as [_ Hw].
  unfold wf_entry, legacy_entry. cbn [e_space e_body].
  split; [done|]. split; [by apply (bool_decide_unpack _)|].
  change (drop 1 (legacy_tokens item))
    with [c_name item.1; c_version item.1;
          lit "(" ++ item.2 ++ lit ")" ++ [dquote]; lit "=";
          [dquote] ++ c_checksum item.1 ++ [dquote]].
  pose proof Hw as Hw'. apply Forall_cons in Hw' as [Hn _].
  split; [|split].
  - pose proof (word_start _ [c_version item.1;
          lit "(" ++ item.2 ++ lit ")" ++ [dquote]; lit "=";
          [dquote] ++ c_checksum item.1 ++ [dquote]] Hn) as Hs.
    intros E. destruct Hn as [Hne _]. rewrite join_cons_cons in E.
    by destruct (c_name item.1).
  - by apply word_start.
  - by apply no_ws_join.
Qed.

Lemma strip_string_word (t : list N) :
  no_ws t → head t ≠ Some dquote → last t ≠ Some dquote →
  strip_string t = t.
Proof.
  intros Ht Hh Hl. unfold no_ws in Ht. rewrite Forall_forall in Ht.
  assert (∀ c, head t = Some c → isspace c = false) as Hh'.
  { intros c Hc. apply Ht. by apply head_Some_elem_of. }
  assert (∀ c, last t = Some c → isspace c = false) as Hl'.
  { intros c Hc. apply Ht. by apply last_Some_elem_of. }
  unfold strip_string.
  pose proof (strip_wrapped isspace [] t [] eq_refl eq_refl Hh' Hl') as E1.
  rewrite app_nil_r, app_nil_l in E1. rewrite E1.
  pose proof (strip_wrapped is_dquote [] t [] eq_refl eq_refl) as E2.
  rewrite app_nil_r, app_nil_l in E2. apply E2.
  - intros c Hc. unfold is_dquote. apply N.eqb_neq. congruence.
  - intros c Hc. unfold is_dquote. apply N.eqb_neq. congruence.
Qed.

Lemma strip_string_in_quotes (v : list N) :
  head v ≠ Some dquote → last v ≠ Some dquote →
  strip_string ([dquote] ++ v ++ [dquote]) = v.
Proof.
  intros Hh Hl. unfold strip_string.
  pose proof (strip_wrapped isspace [] ([dquote] ++ v ++ [dquote]) []
                eq_refl eq_refl) as E1.
  rewrite app_nil_r, app_nil_l in E1. rewrite E1.
  - apply (strip_wrapped is_dquote [dquote] v [dquote] eq_refl eq_refl).
    + intros c Hc. unfold is_dquote. apply N.eqb_neq. congruence.
    + intros c Hc. unfold is_dquote. apply N.eqb_neq. congruence.
  - intros c. simpl. by intros [= <-].
  - intros c. rewrite app_assoc, last_snoc. by intros [= <-].
Qed.

Lemma legacy_record (item : crate * list N) :
  legacy_crate item →
  Cargo2Ports.metadata_package (legacy_tokens item) = crate_record item.1.
Proof.
  intros ([_ Hn] & (_ & Hn1 & Hn2) & [_ Hv] & (_ & Hv1 & Hv2) & _ & Hc
          & (_ & Hc1 & Hc2)).
  unfold Cargo2Ports.metadata_package, legacy_tokens, crate_record.
  rewrite !fmap_cons. cbn [lookup_total list_lookup_total].
  rewrite (strip_string_word (c_name item.1)) by done.
  rewrite (strip_string_word (c_version item.1)) by done.
  by rewrite strip_string_in_quotes.
Qed.

Lemma filter_all {A} (P : A → Prop) `{!∀ x, Decision (P x)} (l : list A) :
  Forall P l → filter P l = l.
Proof.
  induction 1 as [|x l Hx _ IH]; [done|].
  by rewrite filter_cons, decide_True, IH.
Qed.

(** X17: end to end on the legacy format.  For a text with a [metadata]
    section that has one line for each crate, as Cargo wrote them, whatever
    comes before the section, cargo2ports.py prints exactly the stanza of
    the crates and exits with status 0. *)
Theorem X17_legacy_lock_file_to_stanza (indent width : Z)
    (pre tail : list N) (blank : nat)
    (init : list (crate * list N)) (final : crate * list N) :
  let text :=
    legacy_text pre blank (legacy_entry <$> init ++ [final]) tail in
  (pre = [] ∨ ∃ pre', pre = pre' ++ [nl]) →
  ¬ has_metadata_header (pre ++ lit "[metadata") →
  section_end tail →
  Forall legacy_crate (init ++ [final]) →
  run (Cargo2Ports.main indent width text)
  = Outcome
      (crates_stanza {| STANZA_INDENT := indent; STANZA_FIELD_WIDTH := width |}
         (fst <$> init) final.1 ++ [nl]) [] 0.
Proof.
  intros text Hpre Hfirst Htail Hitems.
  assert (wf_legacy pre (legacy_entry <$> init ++ [final]) tail) as Hwf.
  { split; [done|]. split; [done|]. split; [by destruct init|].
    split; [|done]. apply Forall_fmap.
    eapply Forall_impl; [exact Hitems|]. apply legacy_entry_wf. }
  assert (Cargo2Ports.is_v1_lockfile text = true) as Hv1.
  { apply is_v1_lockfile_spec. exists pre. eexists. by split. }
  assert (Cargo2Ports.get_packages_from_metadata text
          = crate_record <$> (fst <$> init ++ [final])) as Hrec.
  { unfold text. rewrite (get_packages_from_metadata_wf_legacy _ _ _ _ Hwf).
    rewrite <- !list_fmap_compose.
    rewrite filter_all.
    - rewrite <- list_fmap_compose. apply Forall_fmap_ext_1.
      eapply Forall_impl; [exact Hitems|]. intros item Hitem. cbv beta.
      unfold compose. rewrite legacy_entry_line, tokens_of_join;
        [by apply legacy_record | done | by apply legacy_tokens_words].
    - apply Forall_fmap. eapply Forall_impl; [exact Hitems|].
      intros item Hitem. unfold compose, qualifying.
      rewrite legacy_entry_line, tokens_of_join;
        [simpl; lia | done | by apply legacy_tokens_words]. }
  unfold Cargo2Ports.main. rewrite Hv1, Hrec.
  rewrite fmap_app. change (fst <$> [final]) with [final.1].
  destruct (crate_record <$> (fst <$> init) ++ [final.1]) as [|pkg pkgs] eqn:E.
  { apply (f_equal length) in E. rewrite length_fmap, length_app in E.
    simpl in E. lia. }
  apply run_print_stanza. rewrite <- E. apply crates_generate.
Qed.

(** X17 at the sample text with a package table before the section. *)
Lemma X17_legacy_lock_file_to_stanza_witness :
  let init : list (crate * list N) := [] in
  legacy_text (foo_block ++ [nl]) 0 (legacy_entry <$> init ++ [bar_item]) []
  = mixed_lock
  ∧ Forall legacy_crate (init ++ [bar_item])
  ∧ run (Cargo2Ports.main 4 38
           (legacy_text (foo_block ++ [nl]) 0
              (legacy_entry <$> init ++ [bar_item]) []))
    = Outcome
        (crates_stanza {| STANZA_INDENT := 4; STANZA_FIELD_WIDTH := 38 |}
           (fst <$> init) bar_item.1 ++ [nl]) [] 0.
Proof.
  intros init.
  assert (Forall legacy_crate (init ++ [bar_item])) as Hitems.
  { apply Forall_cons_2; [|apply Forall_nil_2].
    repeat split;
      first [ discriminate
            | apply (bool_decide_unpack _); vm_compute; exact I ]. }
  split; [vm_compute; reflexivity|]. split; [exact Hitems|].
  refine (X17_legacy_lock_file_to_stanza 4 38 (foo_block ++ [nl]) [] 0 init
            bar_item _ _ _ Hitems).
  - right. by exists foo_block.
  - intros H%is_v1_lockfile_spec. vm_compute in H. discriminate H.
  - by split.
Defined.
